(** * aice_ps: editor history, service-layer fallback and bounded task pools

    A shallow embedding of the state-carrying parts of the photo editor:

    - [Editor]: the image history of [EditorView] (App.tsx): [updateHistory],
      undo / redo / start-over, the two upload handlers and "regenerate";
    - [Service]: the calls of geminiService.ts that reach the remote model,
      with their fallback prompt, and [generateWithRetry] of BeatSyncPage;
    - [BeatSync]: the worker pool of [handleGenerate] and the effect that
      aggregates a finished batch;
    - [PastForward]: the worker pool of [handleGenerateClick].

    React components are modelled by their store (the [useState] cells) and
    by the values a render captured.  A handler created in a render reads the
    [const] bindings of that render and writes the store through setters; a
    handler therefore takes the render it was created in ([r]) and the store
    it updates ([s]).  For a handler that is re-created whenever the values it
    reads change, [r] and [s] coincide when it is invoked. *)

From Stdlib Require Import ZArith Lia Ascii String.
From stdpp Require Import base option list strings gmap sorting.

Local Open Scope string_scope.
Local Open Scope list_scope.

(** ** JavaScript helpers *)

(** [arr.slice(0, end)]: a negative [end] counts from the end of the array,
    and the bound is clamped to the length. *)
Definition js_slice0 {A : Type} (arr : list A) (e : Z) : list A :=
  let len := Z.of_nat (length arr) in
  let final := if (e <? 0)%Z then Z.max (len + e) 0 else Z.min e len in
  take (Z.to_nat final) arr.

(** [arr[i]] for a number [i]: [undefined] (here [None]) out of range. *)
Definition js_get {A : Type} (arr : list A) (i : Z) : option A :=
  if (i <? 0)%Z then None else arr !! Z.to_nat i.

(** [hay.includes(needle)] *)
Definition includes (needle hay : string) : bool :=
  match String.index 0 needle hay with
  | Some _ => true
  | None => false
  end.

(** ASCII lower case.  On a string of ASCII characters this is
    [s.toLowerCase()]. *)
Definition ascii_lower (c : ascii) : ascii :=
  let n := nat_of_ascii c in
  if ((65 <=? n) && (n <=? 90))%nat then ascii_of_nat (n + 32) else c.

Fixpoint asciiLowerCase (s : string) : string :=
  match s with
  | EmptyString => EmptyString
  | String c rest => String (ascii_lower c) (asciiLowerCase rest)
  end.

(** A thrown JavaScript value: whether it is an [Error] instance, and its
    [message]. *)
Record Thrown : Type := mkThrown {
  isError : bool;
  message : string
}.

Definition newError (msg : string) : Thrown := mkThrown true msg.

(** A browser [File]: the fields the code reads. *)
Record File : Type := mkFile {
  file_name : string;
  file_size : Z;
  file_type : string
}.

(** ** The editor: history, uploads, regenerate (App.tsx) *)

Module Editor.

Local Open Scope Z_scope.
Local Open Scope list_scope.

Definition MAX_FILE_SIZE_MB : Z := 12.
Definition MAX_FILE_SIZE_BYTES : Z := MAX_FILE_SIZE_MB * 1024 * 1024.

Inductive Tab : Type :=
  | retouch | adjust | filters | crop | fusion | texture | erase.

Inductive LastAction : Type :=
  | la_retouch (prompt : string) (hotspot : Z * Z)
  | la_adjust (prompt : string)
  | la_filters (prompt : string)
  | la_fusion (prompt : string) (sourceImages : list File)
  | la_texture (prompt : string)
  | la_erase.

Record PixelCrop : Type := mkCrop {
  crop_x : Z; crop_y : Z; crop_width : Z; crop_height : Z
}.

(** The [useState] cells of [EditorView] that the history handlers touch. *)
Record EditorState : Type := mkEditor {
  history : list File;
  historyIndex : Z;
  isLoading : bool;
  error : option string;
  activeTab : Tab;
  lastAction : option LastAction;
  cropSel : option PixelCrop;
  completedCrop : option PixelCrop;
  retouchPrompt : string;
  retouchHotspot : option (Z * Z)
}.

(** The values of the first render: the initial arguments of [useState]. *)
Definition initialRender : EditorState :=
  {| history := []; historyIndex := -1; isLoading := false; error := None;
     activeTab := adjust; lastAction := None; cropSel := None;
     completedCrop := None; retouchPrompt := ""; retouchHotspot := None |}.

Definition setHistory (v : list File) (s : EditorState) : EditorState :=
  {| history := v; historyIndex := historyIndex s; isLoading := isLoading s;
     error := error s; activeTab := activeTab s; lastAction := lastAction s;
     cropSel := cropSel s; completedCrop := completedCrop s;
     retouchPrompt := retouchPrompt s; retouchHotspot := retouchHotspot s |}.

Definition setHistoryIndex (v : Z) (s : EditorState) : EditorState :=
  {| history := history s; historyIndex := v; isLoading := isLoading s;
     error := error s; activeTab := activeTab s; lastAction := lastAction s;
     cropSel := cropSel s; completedCrop := completedCrop s;
     retouchPrompt := retouchPrompt s; retouchHotspot := retouchHotspot s |}.

Definition setIsLoading (v : bool) (s : EditorState) : EditorState :=
  {| history := history s; historyIndex := historyIndex s; isLoading := v;
     error := error s; activeTab := activeTab s; lastAction := lastAction s;
     cropSel := cropSel s; completedCrop := completedCrop s;
     retouchPrompt := retouchPrompt s; retouchHotspot := retouchHotspot s |}.

Definition setError (v : option string) (s : EditorState) : EditorState :=
  {| history := history s; historyIndex := historyIndex s;
     isLoading := isLoading s; error := v; activeTab := activeTab s;
     lastAction := lastAction s; cropSel := cropSel s;
     completedCrop := completedCrop s; retouchPrompt := retouchPrompt s;
     retouchHotspot := retouchHotspot s |}.

Definition setActiveTab (v : Tab) (s : EditorState) : EditorState :=
  {| history := history s; historyIndex := historyIndex s;
     isLoading := isLoading s; error := error s; activeTab := v;
     lastAction := lastAction s; cropSel := cropSel s;
     completedCrop := completedCrop s; retouchPrompt := retouchPrompt s;
     retouchHotspot := retouchHotspot s |}.

Definition setLastAction (v : option LastAction) (s : EditorState)
  : EditorState :=
  {| history := history s; historyIndex := historyIndex s;
     isLoading := isLoading s; error := error s; activeTab := activeTab s;
     lastAction := v; cropSel := cropSel s;
     completedCrop := completedCrop s; retouchPrompt := retouchPrompt s;
     retouchHotspot := retouchHotspot s |}.

Definition setCrop (v : option PixelCrop) (s : EditorState) : EditorState :=
  {| history := history s; historyIndex := historyIndex s;
     isLoading := isLoading s; error := error s; activeTab := activeTab s;
     lastAction := lastAction s; cropSel := v;
     completedCrop := completedCrop s; retouchPrompt := retouchPrompt s;
     retouchHotspot := retouchHotspot s |}.

Definition setCompletedCrop (v : option PixelCrop) (s : EditorState)
  : EditorState :=
  {| history := history s; historyIndex := historyIndex s;
     isLoading := isLoading s; error := error s; activeTab := activeTab s;
     lastAction := lastAction s; cropSel := cropSel s;
     completedCrop := v; retouchPrompt := retouchPrompt s;
     retouchHotspot := retouchHotspot s |}.

Definition setRetouchPrompt (v : string) (s : EditorState) : EditorState :=
  {| history := history s; historyIndex := historyIndex s;
     isLoading := isLoading s; error := error s; activeTab := activeTab s;
     lastAction := lastAction s; cropSel := cropSel s;
     completedCrop := completedCrop s; retouchPrompt := v;
     retouchHotspot := retouchHotspot s |}.

Definition setRetouchHotspot (v : option (Z * Z)) (s : EditorState)
  : EditorState :=
  {| history := history s; historyIndex := historyIndex s;
     isLoading := isLoading s; error := error s; activeTab := activeTab s;
     lastAction := lastAction s; cropSel := cropSel s;
     completedCrop := completedCrop s; retouchPrompt := retouchPrompt s;
     retouchHotspot := v |}.

(** [const currentImageFile = history[historyIndex]] *)
Definition currentImageFile (r : EditorState) : option File :=
  js_get (history r) (historyIndex r).

(** [updateHistory]: [history] and [historyIndex] are the bindings of the
    render [r] the closure belongs to; the setters write the store [s]. *)
Definition updateHistory (r : EditorState) (newFile : File) (s : EditorState)
  : EditorState :=
  let newHistory := js_slice0 (history r) (historyIndex r + 1) ++ [newFile] in
  let s := setHistory newHistory s in
  let s := setHistoryIndex (Z.of_nat (length newHistory) - 1) s in
  let s := setCrop None s in
  let s := setCompletedCrop None s in
  setRetouchHotspot None s.

(** [handleUndo], re-created on every change of [historyIndex]. *)
Definition handleUndo (r s : EditorState) : EditorState :=
  if historyIndex r >? 0 then setHistoryIndex (historyIndex r - 1) s else s.

(** [handleRedo], re-created on every change of [historyIndex] and
    [history.length]. *)
Definition handleRedo (r s : EditorState) : EditorState :=
  if historyIndex r <? Z.of_nat (length (history r)) - 1
  then setHistoryIndex (historyIndex r + 1) s else s.

(** [handleStartOver] *)
Definition handleStartOver (s : EditorState) : EditorState :=
  let s := setHistory [] s in
  let s := setHistoryIndex (-1) s in
  let s := setLastAction None s in
  let s := setCrop None s in
  let s := setCompletedCrop None s in
  let s := setRetouchHotspot None s in
  setRetouchPrompt "" s.

Definition oversizeMessage : string :=
  "图片文件大小不能超过 12MB。请选择一个较小的文件。".

(** [handleLocalFileSelect(files)]: [files] is a [FileList] or [null]. *)
Definition handleLocalFileSelect (files : option (list File))
    (s : EditorState) : EditorState :=
  match files with
  | Some (file :: _) =>
      if file_size file >? MAX_FILE_SIZE_BYTES
      then setError (Some oversizeMessage) s
      else
        let s := setHistory [file] s in
        let s := setHistoryIndex 0 s in
        let s := setActiveTab adjust s in
        let s := setError None s in
        setLastAction None s
  | _ => s
  end.

(** [handleFileInputChange], the handler of the hidden "replace image"
    input.  It is wrapped in [useCallback(..., [])]: the function kept is
    the one of the first render, so the [updateHistory] it calls reads the
    [history] and [historyIndex] of [initialRender]. *)
Definition handleFileInputChange (files : option (list File))
    (s : EditorState) : EditorState :=
  match files with
  | Some (file :: _) =>
      if String.prefix "image/" (file_type file)
      then setLastAction None (updateHistory initialRender file s)
      else s
  | _ => s
  end.

(** The generative call a task closure performs: the service function and
    its arguments.  [imageFile] is [None] when the array access that
    produced it was out of range. *)
Inductive GenCall : Type :=
  | call_generateEditedImage (imageFile : option File) (prompt : string)
      (hotspot : Z * Z)
  | call_generateAdjustedImage (imageFile : option File) (prompt : string)
  | call_generateFilteredImage (imageFile : option File) (prompt : string)
  | call_generateTexturedImage (imageFile : option File) (prompt : string)
  | call_removeBackgroundImage (imageFile : option File)
  | call_generateFusedImage (mainImage : option File)
      (sourceImages : list File) (prompt : string).

(** The image a call edits. *)
Definition callInput (c : GenCall) : option File :=
  match c with
  | call_generateEditedImage imageFile _ _ => imageFile
  | call_generateAdjustedImage imageFile _ => imageFile
  | call_generateFilteredImage imageFile _ => imageFile
  | call_generateTexturedImage imageFile _ => imageFile
  | call_removeBackgroundImage imageFile => imageFile
  | call_generateFusedImage mainImage _ _ => mainImage
  end.

(** The first half of [handleRegenerate]: the guard and the [switch] that
    builds [task] from the render's [lastAction] and
    [history[historyIndex - 1]]. *)
Definition regenerateTask (r : EditorState) : option GenCall :=
  match lastAction r with
  | None => None
  | Some la =>
      if (historyIndex r <? 1) || isLoading r then None
      else
        let imageToEdit := js_get (history r) (historyIndex r - 1) in
        Some match la with
             | la_retouch prompt hotspot =>
                 call_generateEditedImage imageToEdit prompt hotspot
             | la_adjust prompt => call_generateAdjustedImage imageToEdit prompt
             | la_filters prompt => call_generateFilteredImage imageToEdit prompt
             | la_texture prompt => call_generateTexturedImage imageToEdit prompt
             | la_erase => call_removeBackgroundImage imageToEdit
             | la_fusion prompt sourceImages =>
                 call_generateFusedImage imageToEdit sourceImages prompt
             end
  end.

(** [runGenerativeTask(task, 1)] up to its [await task()]. *)
Definition runGenerativeTask_start (s : EditorState) : EditorState :=
  let s := setIsLoading true s in
  let s := setError None s in
  setRetouchHotspot None s.

Definition unknownErrorMessage : string := "发生了未知错误".

Section Browser.

(** [dataURLtoFile(dataurl, filename)] decodes through the browser's [atob]
    and [File] constructor; it either throws or returns a [File].  It is
    kept abstract, as is the clock read by [Date.now()]. *)
Variable dataURLtoFile : string -> string -> Thrown + File.
Variable now : string.

(** [runGenerativeTask(task, 1)] from the point where [task()] settles with
    [awaited]: the rest of the [try], the [catch] and the [finally].  The
    [updateHistory] called is the one of the render [r] in which this
    [runGenerativeTask] closure was created.  (The branch [count !== 1]
    only fills the batch modal and is not modelled.) *)
Definition runGenerativeTask_settle (r : EditorState)
    (awaited : Thrown + string) (s : EditorState) : EditorState :=
  let caught (e : Thrown) (s : EditorState) :=
    setError (Some (if isError e then message e else unknownErrorMessage)) s in
  let s :=
    match awaited with
    | inr resultDataUrl =>
        match dataURLtoFile resultDataUrl ("edit-" +:+ now +:+ ".png") with
        | inr newFile => updateHistory r newFile s
        | inl e => caught e s
        end
    | inl e => caught e s
    end in
  setIsLoading false s.

(** [handleRegenerate] up to the [await] inside [runGenerativeTask]: the
    call issued, if any, and the store. *)
Definition handleRegenerate (r s : EditorState)
  : option GenCall * EditorState :=
  match regenerateTask r with
  | None => (None, s)
  | Some task =>
      (Some task, runGenerativeTask_start (setHistoryIndex (historyIndex r - 1) s))
  end.

(** A whole regenerate: the click in render [r], then the settlement of the
    issued call with the result [remote] gives for it.  While the call is
    pending [isLoading] disables every other history control. *)
Definition regenerate (remote : GenCall -> Thrown + string)
    (r s : EditorState) : EditorState :=
  match handleRegenerate r s with
  | (None, s') => s'
  | (Some task, s') => runGenerativeTask_settle r (remote task) s'
  end.

End Browser.

(** The history operations of the History Manager, as user actions. *)
Inductive HistoryOp : Type :=
  | Push (entry : File)
  | Undo
  | Redo
  | Reset.

(** One operation, invoked on an up-to-date render. *)
Definition apply_op (s : EditorState) (op : HistoryOp) : EditorState :=
  match op with
  | Push entry => updateHistory s entry s
  | Undo => handleUndo s s
  | Redo => handleRedo s s
  | Reset => handleStartOver s
  end.

Definition run_ops (ops : list HistoryOp) (s : EditorState) : EditorState :=
  foldl apply_op s ops.

(** The invariant of the history state. *)
Definition history_ok (s : EditorState) : Prop :=
  match history s with
  | [] => historyIndex s = -1
  | _ :: _ => 0 <= historyIndex s < Z.of_nat (length (history s))
  end.

End Editor.

(** ** The service layer (services/geminiService.ts) *)

Module Service.

(** *** Regular expressions of the service layer, on byte strings *)

Definition is_digit (c : ascii) : bool :=
  let n := nat_of_ascii c in (48 <=? n)%nat && (n <=? 57)%nat.

(** [\w]: ASCII letters, digits and the underscore. *)
Definition is_word (c : ascii) : bool :=
  let n := nat_of_ascii c in
  is_digit c || ((65 <=? n)%nat && (n <=? 90)%nat)
  || ((97 <=? n)%nat && (n <=? 122)%nat) || (n =? 95)%nat.

(** [prompt.match(/(\d{4}s)/)]: the first four digits followed by [s]. *)
Fixpoint extractDecade (prompt : string) : option string :=
  match prompt with
  | EmptyString => None
  | String a rest =>
      match rest with
      | String b (String c (String d (String e _))) =>
          if is_digit a && is_digit b && is_digit c && is_digit d
             && Ascii.eqb e "s"
          then Some (String a (String b (String c (String d (String e "")))))
          else extractDecade rest
      | _ => None
      end
  end.

(** Removes [pre] from the front of [s], if it is there. *)
Fixpoint strip_prefix (pre s : string) : option string :=
  match pre, s with
  | EmptyString, _ => Some s
  | String a pre', String b s' =>
      if Ascii.eqb a b then strip_prefix pre' s' else None
  | String _ _, EmptyString => None
  end.

(** The longest run of word characters at the front, and the rest. *)
Fixpoint span_word (s : string) : string * string :=
  match s with
  | String a s' =>
      if is_word a
      then let '(w, rest) := span_word s' in (String a w, rest)
      else (EmptyString, s)
  | EmptyString => (EmptyString, EmptyString)
  end.

(** Whether a UTF-8 string holds a line terminator of JavaScript:
    LF, CR, U+2028 or U+2029.  The dot of a regular expression does not
    match them. *)
Fixpoint has_line_terminator (s : string) : bool :=
  match s with
  | EmptyString => false
  | String a s' =>
      let n := nat_of_ascii a in
      if (n =? 10)%nat || (n =? 13)%nat then true
      else
        match s' with
        | String b (String c _) =>
            if (n =? 226)%nat && (nat_of_ascii b =? 128)%nat
               && ((nat_of_ascii c =? 168)%nat || (nat_of_ascii c =? 169)%nat)
            then true else has_line_terminator s'
        | _ => has_line_terminator s'
        end
  end.

(** The pattern [generateDecadeImage] matches its [imageDataUrl] against,
    anchored at both ends: [data:], then the group [image/] with one or more
    word characters, then [;base64,], then a group of any characters but
    line terminators.  The result holds the two groups. *)
Definition matchDataUrl (imageDataUrl : string) : option (string * string) :=
  match strip_prefix "data:image/" imageDataUrl with
  | None => None
  | Some rest =>
      let '(w, rest) := span_word rest in
      match w with
      | EmptyString => None
      | _ =>
          match strip_prefix ";base64," rest with
          | None => None
          | Some base64Data =>
              if has_line_terminator base64Data then None
              else Some ("image/" +:+ w, base64Data)
          end
      end
  end.

(** *** Requests, responses and the log of effects *)

Record InlineData : Type := mkInline {
  mimeType : string;
  data : string
}.

(** A part of a request or of a response. *)
Record Part : Type := mkPart {
  inlineData : option InlineData;
  text : option string
}.

Definition textPart (t : string) : Part := mkPart None (Some t).
Definition imagePartOf (d : InlineData) : Part := mkPart (Some d) None.

(** A candidate of a response.  [content_parts] is [None] when
    [candidate.content] or [candidate.content.parts] is missing. *)
Record Candidate : Type := mkCandidate {
  content_parts : option (list Part);
  finishReason : option string;
  safetyRatings : list bool
}.

(** What [getGoogleAI()] followed by [ai.models.generateContent(...)] comes
    to: a throw of either, or a response with its [candidates]. *)
Inductive SdkResult : Type :=
  | SdkThrow (e : Thrown)
  | SdkResponse (candidates : list Candidate).

(** The effects a call leaves behind, in order: a file handed to
    [fileToGenerativePart], an entry into [callImageEditingModel] with the
    parts and the action it was given (the request itself is not sent when
    [getGoogleAI()] throws first), and a sleep. *)
Inductive Event : Type :=
  | EvRead (file : File)
  | EvModel (parts : list Part) (action : string)
  | EvSleep (ms : Z).

(** Truthiness of an optional string. *)
Definition truthy (o : option string) : bool :=
  match o with
  | Some (String _ _) => true
  | _ => false
  end.

(** An asynchronous computation that may throw: it extends the log and
    either throws or returns. *)
Definition Async (A : Type) : Type := list Event -> (Thrown + A) * list Event.

Definition ret {A : Type} (a : A) : Async A := fun log => (inr a, log).

Definition throw {A : Type} (e : Thrown) : Async A := fun log => (inl e, log).

Definition bind {A B : Type} (m : Async A) (k : A -> Async B) : Async B :=
  fun log =>
    match m log with
    | (inr a, log') => k a log'
    | (inl e, log') => (inl e, log')
    end.

Definition tryCatch {A : Type} (m : Async A) (handler : Thrown -> Async A)
  : Async A :=
  fun log =>
    match m log with
    | (inr a, log') => (inr a, log')
    | (inl e, log') => handler e log'
    end.

Definition emit (ev : Event) : Async unit := fun log => (inr tt, log ++ [ev]).

#[global] Instance Async_ret : MRet Async := @ret.
#[global] Instance Async_bind : MBind Async := fun A B k m => bind m k.

Definition textInsteadOfImage : string :=
  "Model responded with text instead of an image".

(** The test every fallback [catch] performs on the caught value. *)
Definition respondedWithText (e : Thrown) : bool :=
  isError e && includes textInsteadOfImage (message e).

(** The [EvModel] entries of a log: the calls of [callImageEditingModel],
    each of which sends at most one request to the model. *)
Definition modelCalls (log : list Event) : list (list Part * string) :=
  omap (fun ev => match ev with
                  | EvModel parts action => Some (parts, action)
                  | _ => None
                  end) log.

(** The [EvRead] entries of a log: one per run of a service function that
    takes a [File]. *)
Definition reads (log : list Event) : list File :=
  omap (fun ev => match ev with EvRead file => Some file | _ => None end) log.

Definition sleeps (log : list Event) : list Z :=
  omap (fun ev => match ev with EvSleep ms => Some ms | _ => None end) log.

Section Remote.

(** The remote side: what a request gets, given everything that happened
    before it. *)
Variable sdk : list Event -> list Part -> SdkResult.

(** What [fileToGenerativePart] yields for a file: it resizes and reads the
    file through the browser's [Image], canvas and [FileReader]. *)
Variable readFile : File -> Thrown + InlineData.

(** The message [handleApiError] builds: it depends on [JSON.parse] and on
    the base URL in [localStorage]. *)
Variable apiErrorMessage : Thrown -> string -> string.

Definition handleApiError (e : Thrown) (action : string) : Thrown :=
  newError (apiErrorMessage e action).

Definition fileToGenerativePart (file : File) : Async Part :=
  emit (EvRead file) ;;
  match readFile file with
  | inl e => throw e
  | inr d => ret (imagePartOf d)
  end.

(** The [catch] of [callImageEditingModel]. *)
Definition rethrow (e : Thrown) (action : string) : Thrown :=
  if isError e
     && (includes "Model responded with text" (message e)
         || includes "AI did not return a valid result" (message e))
  then e
  else handleApiError e action.

Definition detailedError (candidate : option Candidate) : string :=
  let base := "AI did not return a valid result." in
  let withReason :=
    match candidate with
    | Some c =>
        if truthy (finishReason c)
        then base +:+ " Reason: " +:+ default "" (finishReason c) +:+ "."
        else base
    | None => base
    end in
  match candidate with
  | Some c =>
      if existsb (fun blocked => blocked) (safetyRatings c)
      then withReason +:+ " The prompt may have been blocked by safety filters."
      else withReason
  | None => withReason
  end.

(** The first part of [parts] that carries [inlineData]. *)
Definition firstInlineData (parts : list Part) : option InlineData :=
  head (omap inlineData parts).

Definition callImageEditingModel (parts : list Part) (action : string)
  : Async string :=
  let request : Async string := fun log =>
    let thrown (e : Thrown) := (inl (rethrow e action), log) in
    match sdk log parts with
    | SdkThrow e => thrown e
    | SdkResponse candidates =>
        let candidate := head candidates in
        match candidate ≫= content_parts with
        | Some ((first :: _) as responseParts) =>
            match firstInlineData responseParts with
            | Some d =>
                (inr ("data:" +:+ mimeType d +:+ ";base64," +:+ data d), log)
            | None =>
                if truthy (text first)
                then thrown (newError
                  "Model responded with text instead of an image. The prompt may have been blocked.")
                else thrown (newError "AI 未能返回预期的图片结果。")
            end
        | _ => thrown (newError (detailedError candidate))
        end
    end in
  emit (EvModel parts action) ;; request.

Definition generateFilteredImage (imageFile : File) (prompt : string)
  : Async string :=
  imagePart ← fileToGenerativePart imageFile;
  let primaryTextPart := textPart ("Apply this filter: " +:+ prompt) in
  tryCatch
    (callImageEditingModel [imagePart; primaryTextPart] "滤镜")
    (fun error =>
       if respondedWithText error
       then
         let fallbackTextPart := textPart prompt in
         callImageEditingModel [imagePart; fallbackTextPart] "滤镜 (fallback)"
       else throw error).

Definition generateStyledImage (imageFile : File) (prompt : string)
  : Async string :=
  imagePart ← fileToGenerativePart imageFile;
  let primaryTextPart := textPart ("Apply this artistic style: " +:+ prompt) in
  tryCatch
    (callImageEditingModel [imagePart; primaryTextPart] "应用风格")
    (fun error =>
       if respondedWithText error
       then
         let fallbackTextPart := textPart prompt in
         callImageEditingModel [imagePart; fallbackTextPart]
           "应用风格 (fallback)"
       else throw error).

Definition generateAdjustedImage (imageFile : File) (prompt : string)
  : Async string :=
  imagePart ← fileToGenerativePart imageFile;
  let primaryTextPart := textPart ("Apply this adjustment: " +:+ prompt) in
  tryCatch
    (callImageEditingModel [imagePart; primaryTextPart] "调整")
    (fun error =>
       if respondedWithText error
       then
         let fallbackTextPart := textPart prompt in
         callImageEditingModel [imagePart; fallbackTextPart] "调整 (fallback)"
       else throw error).

Definition generateTexturedImage (imageFile : File) (prompt : string)
  : Async string :=
  imagePart ← fileToGenerativePart imageFile;
  let primaryTextPart := textPart ("Apply this texture: " +:+ prompt) in
  tryCatch
    (callImageEditingModel [imagePart; primaryTextPart] "纹理")
    (fun error =>
       if respondedWithText error
       then
         let fallbackTextPart := textPart prompt in
         callImageEditingModel [imagePart; fallbackTextPart] "纹理 (fallback)"
       else throw error).

Definition getFallbackPrompt (decade : string) : string :=
  "Create a photograph of the person in this image as if they were living in the "
  +:+ decade
  +:+ ". The photograph should capture the distinct fashion, hairstyles, and overall atmosphere of that time period. Ensure the final image is a clear photograph that looks authentic to the era.".

Definition generateDecadeImage (imageDataUrl prompt : string)
  : Async string :=
  match matchDataUrl imageDataUrl with
  | None => throw (newError "Invalid image data URL format.")
  | Some (mime, base64Data) =>
      let imagePart := imagePartOf (mkInline mime base64Data) in
      tryCatch
        (let textPart := textPart prompt in
         callImageEditingModel [imagePart; textPart]
           ("生成 " +:+ default "null" (extractDecade prompt) +:+ " 图像"))
        (fun error =>
           if respondedWithText error
           then
             match extractDecade prompt with
             | None => throw error
             | Some decade =>
                 let fallbackPrompt := getFallbackPrompt decade in
                 let fallbackTextPart := textPart fallbackPrompt in
                 callImageEditingModel [imagePart; fallbackTextPart]
                   ("生成 " +:+ decade +:+ " 图像 (fallback)")
             end
           else throw error)
  end.

(** [generateWithRetry] of BeatSyncPage.tsx.  [retries] counts down to zero;
    the only caller leaves it at its default, [1]. *)
Fixpoint generateWithRetry (file : File) (prompt : string) (retries : nat)
  : Async string :=
  tryCatch
    (generateStyledImage file prompt)
    (fun error =>
       match retries with
       | S retries' =>
           emit (EvSleep 1000) ;;
           generateWithRetry file prompt retries'
       | O => throw error
       end).

(** The fallback policy of a generation whose first call to the model is
    made at [log]: [result] is what the generation came to.  The fallback
    call is made exactly when the first call threw a value that passes
    [respondedWithText] and [canFallBack] holds; it is then the result.
    Otherwise the result is that of the first call, thrown value included,
    and no other call is made. *)
Definition fallbackPolicy (result : (Thrown + string) * list Event)
    (log : list Event) (primary fallback : list Part * string)
    (canFallBack : bool) : Prop :=
  let first := callImageEditingModel primary.1 primary.2 log in
  let triggered :=
    match first.1 with
    | inl e => respondedWithText e && canFallBack
    | inr _ => false
    end in
  result = (if triggered
            then callImageEditingModel fallback.1 fallback.2 first.2
            else first)
  /\ modelCalls result.2
     = modelCalls log ++ primary :: (if triggered then [fallback] else []).

End Remote.

End Service.

(** ** Batch generation: the status of one image *)

(** [ImageStatus] and [GeneratedImage], declared alike in BeatSyncPage.tsx
    and PastForwardPage.tsx. *)
Inductive ImageStatus : Type :=
  | status_pending
  | status_done
  | status_error.

Record GeneratedImage : Type := mkImage {
  status : ImageStatus;
  url : option string;
  error_message : option string
}.

#[global] Instance ImageStatus_eq_dec : EqDecision ImageStatus.
Proof. solve_decision. Defined.

Definition pendingImage : GeneratedImage := mkImage status_pending None None.

Definition doneImage (u : string) : GeneratedImage :=
  mkImage status_done (Some u) None.

Definition errorImage (msg : string) : GeneratedImage :=
  mkImage status_error None (Some msg).

(** The entry both pages write when the awaited generation settles:
    [{ status: 'done', url }], or [{ status: 'error', error: errorMessage }]
    with [errorMessage] taken from the caught value. *)
Definition settledImage (awaited : Thrown + string) : GeneratedImage :=
  match awaited with
  | inr u => doneImage u
  | inl err =>
      errorImage (if isError err then message err
                  else "An unknown error occurred.")
  end.

Definition terminal (img : GeneratedImage) : bool :=
  match status img with
  | status_pending => false
  | _ => true
  end.

(** ** BeatSyncPage.tsx: [handleGenerate] and the effect on a finished batch *)

Module BeatSync.

Inductive AppState : Type :=
  | idle | generating_images | generating_video | results_shown | app_error.

#[global] Instance AppState_eq_dec : EqDecision AppState.
Proof. solve_decision. Defined.

Definition concurrencyLimit : nat := 3.

(** The store of the page ([appState] to [generatedImages]) together with
    the locals of one run of [handleGenerate]: [promptsQueue], the tasks
    whose [generateWithRetry] promise is pending, each awaited by one worker
    ([inFlight]), the tasks taken off the queue so far ([dispatched]), and
    the number of workers whose loop has returned. *)
Record Run : Type := mkRun {
  appState : AppState;
  error : option string;
  notification : option string;
  videoUrl : option string;
  generatedImages : gmap nat GeneratedImage;
  promptsQueue : list (nat * string);
  inFlight : list (nat * string);
  dispatched : list (nat * string);
  workersReturned : nat
}.

Definition idlePage : Run :=
  mkRun idle None None None ∅ [] [] [] 0.

Definition setGeneratedImages
    (f : gmap nat GeneratedImage -> gmap nat GeneratedImage) (p : Run) : Run :=
  mkRun (appState p) (error p) (notification p) (videoUrl p)
    (f (generatedImages p)) (promptsQueue p) (inFlight p) (dispatched p)
    (workersReturned p).

Definition setAppState (v : AppState) (p : Run) : Run :=
  mkRun v (error p) (notification p) (videoUrl p) (generatedImages p)
    (promptsQueue p) (inFlight p) (dispatched p) (workersReturned p).

Definition setError (v : option string) (p : Run) : Run :=
  mkRun (appState p) v (notification p) (videoUrl p) (generatedImages p)
    (promptsQueue p) (inFlight p) (dispatched p) (workersReturned p).

Definition setNotification (v : option string) (p : Run) : Run :=
  mkRun (appState p) (error p) v (videoUrl p) (generatedImages p)
    (promptsQueue p) (inFlight p) (dispatched p) (workersReturned p).

(** [processQueue] up to its [await]: the task it took and dispatched, if
    the queue was not empty. *)
Definition processQueue_start (p : Run) : option (nat * string) * Run :=
  match promptsQueue p with
  | [] => (None, p)
  | task :: rest =>
      (Some task,
       mkRun (appState p) (error p) (notification p) (videoUrl p)
         (generatedImages p) rest (inFlight p ++ [task])
         (dispatched p ++ [task]) (workersReturned p))
  end.

(** A worker at the test of its [while]: it returns when the queue is
    empty, and otherwise awaits [processQueue()]. *)
Definition worker_loop (p : Run) : Run :=
  match promptsQueue p with
  | [] =>
      mkRun (appState p) (error p) (notification p) (videoUrl p)
        (generatedImages p) (promptsQueue p) (inFlight p) (dispatched p)
        (S (workersReturned p))
  | _ :: _ => snd (processQueue_start p)
  end.

(** [Promise.all(workers)] has resolved: [handleGenerate] returns. *)
Definition returned (p : Run) : bool :=
  (workersReturned p =? concurrencyLimit)%nat.

(** [handleGenerate] up to [await Promise.all(workers)]. *)
Definition handleGenerate (uploadedImageFile : option File)
    (imageCount : nat) (stylePrompts : list string) (p : Run) : Run :=
  match uploadedImageFile with
  | None => setError (Some "请先上传一张图片。") p
  | Some _ =>
      let initialImages : gmap nat GeneratedImage :=
        foldl (fun m i => <[i := pendingImage]> m) ∅ (seq 0 imageCount) in
      let promptsQueue := imap (fun index prompt => (index, prompt)) stylePrompts in
      let p := mkRun generating_images None None None initialImages
                 promptsQueue [] [] 0 in
      Nat.iter concurrencyLimit worker_loop p
  end.

(** The generation of task [index] settles with [awaited]: the rest of
    [processQueue], then the worker that awaited it goes round its loop.
    [None] when no such task is in flight. *)
Definition settle (index : nat) (awaited : Thrown + string) (p : Run)
  : option Run :=
  if bool_decide (index ∈ (inFlight p).*1) then
    let p := mkRun (appState p) (error p) (notification p) (videoUrl p)
               (generatedImages p) (promptsQueue p)
               (filter (fun task => task.1 ≠ index) (inFlight p))
               (dispatched p) (workersReturned p) in
    let p := setGeneratedImages (fun prev => <[index := settledImage awaited]> prev) p in
    Some (worker_loop p)
  else None.

(** A run of settlements, in the order the remote side answers. *)
Fixpoint settle_all (answers : list (nat * (Thrown + string))) (p : Run)
  : option Run :=
  match answers with
  | [] => Some p
  | (index, awaited) :: rest =>
      match settle index awaited p with
      | Some p' => settle_all rest p'
      | None => None
      end
  end.

(** The order of the integer keys of an object. *)
Definition key_le (a b : nat * GeneratedImage) : Prop := (a.1 <= b.1)%nat.

#[global] Instance key_le_dec : RelDecision key_le.
Proof. intros a b. unfold key_le. apply _. Defined.

(** [Object.values] of an object with integer keys: the values in
    ascending order of the keys. *)
Definition Object_values (m : gmap nat GeneratedImage) : list GeneratedImage :=
  (merge_sort key_le (map_to_list m)).*2.

Definition successful (img : GeneratedImage) : bool :=
  bool_decide (status img = status_done) && Service.truthy (url img).

(** The effect that watches [generatedImages], up to the point where it
    returns or calls [createVideo]: the store at that point, and the
    argument of [createVideo] when it calls it. *)
Definition batchEffect (imageCount : nat) (p : Run)
  : Run * option (list string) :=
  let values := Object_values (generatedImages p) in
  if negb (bool_decide (appState p = generating_images))
     || (length values =? 0)%nat
  then (p, None)
  else
    let allDone := (length values =? imageCount)%nat
                   && forallb (fun img => negb (bool_decide (status img = status_pending))) values in
    if allDone then
      let successfulImages := List.filter successful values in
      if (length successfulImages =? 0)%nat then
        (setAppState app_error (setError (Some "所有图片生成失败，请重试。") p),
         None)
      else
        let p :=
          if (length successfulImages <? imageCount)%nat
          then setNotification
                 (Some "部分图片生成失败，但我们将用成功的图片创建视频。") p
          else p in
        (p, Some (omap url successfulImages))
    else (p, None).

(** What holds of a run once [started] of its workers have been started,
    [tasks] being the queue [handleGenerate] built. *)
Record pool_inv (started : nat) (tasks : list (nat * string)) (p : Run)
  : Prop := mkPoolInv {
  inv_tasks : dispatched p ++ promptsQueue p = tasks;
  inv_workers : length (inFlight p) + workersReturned p = started;
  inv_drained : 0 < workersReturned p -> promptsQueue p = [];
  inv_nodup : NoDup (promptsQueue p ++ inFlight p).*1;
  inv_status : forall i img,
    generatedImages p !! i = Some img ->
    terminal img = true \/ i ∈ (promptsQueue p ++ inFlight p).*1
}.

(** An entry of a finished batch, as [processQueue] writes it: an error, or
    done with a URL. *)
Definition settledEntry (img : GeneratedImage) : Prop :=
  status img = status_error
  \/ (status img = status_done /\ Service.truthy (url img) = true).

(** The work a run still has to do: the tasks queued or in flight. *)
Definition pending_work (p : Run) : nat :=
  length (promptsQueue p) + length (inFlight p).

(** An answer of the remote side as [generateWithRetry] can deliver it: a
    generation that resolves, resolves with a URL. *)
Definition deliverable (answer : nat * (Thrown + string)) : Prop :=
  forall u, answer.2 = inr u -> Service.truthy (Some u) = true.

(** What holds of the store during a run for [imageCount] images whose
    queue was [tasks]. *)
Record batch_inv (imageCount : nat) (tasks : list (nat * string)) (p : Run)
  : Prop := mkBatchInv {
  inv_state : appState p = generating_images;
  inv_flight : forall task, task ∈ inFlight p -> task ∈ tasks;
  inv_keys : forall i, is_Some (generatedImages p !! i) <-> i < imageCount;
  inv_entries : forall i img,
    generatedImages p !! i = Some img ->
    img = pendingImage \/ settledEntry img
}.

Definition isDone (img : GeneratedImage) : bool :=
  bool_decide (status img = status_done).

End BeatSync.

(** ** PastForwardPage.tsx: [handleGenerateClick] *)

Module PastForward.

Inductive AppState : Type :=
  | idle | image_uploaded | generating | results_shown.

Definition DECADES : list string :=
  ["1950s"; "1960s"; "1970s"; "1980s"; "1990s"; "2000s"].

Definition concurrencyLimit : nat := 2.

(** The store of the page together with the locals of one run of
    [handleGenerateClick]: [decadesQueue]; the decades whose
    [generateSingleDecade] promise is pending, each with whether a worker
    loop awaits it ([inFlight]); the decades taken off the queue so far; and
    the number of worker loops that have returned. *)
Record Run : Type := mkRun {
  appState : AppState;
  isLoading : bool;
  error : option string;
  generatedImages : gmap string GeneratedImage;
  decadesQueue : list string;
  inFlight : list (string * bool);
  dispatched : list string;
  loopsReturned : nat
}.

Definition uploadedPage : Run :=
  mkRun image_uploaded false None ∅ [] [] [] 0.

Definition primaryPrompt (decade : string) : string :=
  "Reimagine the person in this photo in the style of the " +:+ decade
  +:+ ". This includes clothing, hairstyle, photo quality, and the overall aesthetic of that decade. The output must be a photorealistic image showing the person clearly.".

(** [generateSingleDecade(decade)] up to its [await]: it marks the decade
    pending and issues [generateDecadeImage].  [awaited] records whether the
    caller is a worker loop. *)
Definition generateSingleDecade_start (uploadedImage : option string)
    (decade : string) (awaited : bool) (p : Run) : Run :=
  if Service.truthy uploadedImage then
    mkRun (appState p) (isLoading p) (error p)
      (<[decade := pendingImage]> (generatedImages p))
      (decadesQueue p) (inFlight p ++ [(decade, awaited)])
      (dispatched p ++ [decade]) (loopsReturned p)
  else p.

Definition setDecadesQueue (q : list string) (p : Run) : Run :=
  mkRun (appState p) (isLoading p) (error p) (generatedImages p) q
    (inFlight p) (dispatched p) (loopsReturned p).

(** [processQueue()] called for itself, as [Array(...).map(processQueue)]
    does: nobody awaits the promise it returns. *)
Definition processQueue_start (uploadedImage : option string) (p : Run) : Run :=
  match decadesQueue p with
  | [] => p
  | decade :: rest =>
      let p := setDecadesQueue rest p in
      if Service.truthy (Some decade)
      then generateSingleDecade_start uploadedImage decade false p
      else p
  end.

(** A worker loop at the test of its [while], [queue] being the current
    [decadesQueue]: it returns when the queue is empty; otherwise it calls
    [processQueue()] and awaits it, going round again at once when nothing
    was issued. *)
Fixpoint worker_loop (uploadedImage : option string) (queue : list string)
    (p : Run) : Run :=
  match queue with
  | [] =>
      mkRun (appState p) (isLoading p) (error p) (generatedImages p)
        (decadesQueue p) (inFlight p) (dispatched p) (S (loopsReturned p))
  | decade :: rest =>
      let p := setDecadesQueue rest p in
      if Service.truthy (Some decade) && Service.truthy uploadedImage
      then generateSingleDecade_start uploadedImage decade true p
      else worker_loop uploadedImage rest p
  end.

(** The end of [handleGenerateClick], once [Promise.all] over the worker
    loops has resolved. *)
Definition finish (p : Run) : Run :=
  mkRun results_shown false (error p) (generatedImages p) (decadesQueue p)
    (inFlight p) (dispatched p) (loopsReturned p).

Definition allLoopsReturned (p : Run) : bool :=
  (loopsReturned p =? concurrencyLimit)%nat.

(** [handleGenerateClick] up to [await Promise.all(...)].  The array
    [workers] is built by [Array(concurrencyLimit).fill(null).map(processQueue)],
    which calls [processQueue] once per slot; then one worker loop per
    element of [workers] is started, and only these loops are awaited. *)
Definition handleGenerateClick (uploadedImage : option string) (p : Run)
  : Run :=
  if Service.truthy uploadedImage then
    let initialImages : gmap string GeneratedImage :=
      foldl (fun m decade => <[decade := pendingImage]> m) ∅ DECADES in
    let p := mkRun generating true None initialImages DECADES [] [] 0 in
    let p := Nat.iter concurrencyLimit (processQueue_start uploadedImage) p in
    let p := Nat.iter concurrencyLimit
               (fun p => worker_loop uploadedImage (decadesQueue p) p) p in
    if allLoopsReturned p then finish p else p
  else p.

(** The generation of [decade] settles with [awaited]: the rest of
    [generateSingleDecade]; when a worker loop awaited it, that loop goes
    round, and the handler finishes when the last loop returns.  [None] when
    the decade is not in flight. *)
Definition settle (uploadedImage : option string) (decade : string)
    (awaited : Thrown + string) (p : Run) : option Run :=
  match list_find (fun task => task.1 = decade) (inFlight p) with
  | None => None
  | Some (_, (_, byLoop)) =>
      let p := mkRun (appState p) (isLoading p) (error p)
                 (<[decade := settledImage awaited]> (generatedImages p))
                 (decadesQueue p)
                 (filter (fun task => task.1 ≠ decade) (inFlight p))
                 (dispatched p) (loopsReturned p) in
      if byLoop then
        let p := worker_loop uploadedImage (decadesQueue p) p in
        Some (if allLoopsReturned p then finish p else p)
      else Some p
  end.

Fixpoint settle_all (uploadedImage : option string)
    (answers : list (string * (Thrown + string))) (p : Run) : option Run :=
  match answers with
  | [] => Some p
  | (decade, awaited) :: rest =>
      match settle uploadedImage decade awaited p with
      | Some p' => settle_all uploadedImage rest p'
      | None => None
      end
  end.

(** [isGenerationComplete] *)
Definition isGenerationComplete (p : Run) : bool :=
  forallb (fun img => bool_decide (status img = status_done)
                      || bool_decide (status img = status_error))
    (map_to_list (generatedImages p)).*2.

End PastForward.

(** ** Sample environments *)

Module Samples.

Import Service.

(** A remote side that always answers with text. *)
Definition textOnlySdk (log : list Event) (parts : list Part) : SdkResult :=
  SdkResponse [mkCandidate (Some [textPart "I can't help with that."]) None []].

(** A remote side whose request fails until the caller has slept once, and
    answers with an image afterwards. *)
Definition flakySdk (log : list Event) (parts : list Part) : SdkResult :=
  match sleeps log with
  | [] => SdkThrow (newError "failed to fetch")
  | _ :: _ =>
      SdkResponse
        [mkCandidate (Some [imagePartOf (mkInline "image/png" "QUJD")]) None []]
  end.

(** A remote side whose requests always fail. *)
Definition downSdk (log : list Event) (parts : list Part) : SdkResult :=
  SdkThrow (newError "failed to fetch").

Definition pngReader (file : File) : Thrown + InlineData :=
  inr (mkInline "image/png" "AAAA").

(** The message [handleApiError] builds in a browser whose storage holds no
    base URL, for a thrown [Error] whose message is ASCII text that
    [JSON.parse] refuses: the fixed message for an invalid key, the fixed
    message for a network failure, and otherwise the action followed by the
    message of the error. *)
Definition plainMessage (e : Thrown) (action : string) : string :=
  let errorMessage := asciiLowerCase (message e) in
  if includes "api key not valid" errorMessage
  then "API 密钥无效。请检查您在设置中输入的密钥。官方 Gemini API 密钥通常以 `AIzaSy...` 开头。"
  else if includes "xhr error" errorMessage
          || includes "failed to fetch" errorMessage
  then "与 AI 服务的通信失败。请检查您的网络连接、API 密钥和 Base URL 设置。"
  else "在“" +:+ action +:+ "”期间发生错误: "
       +:+ (if truthy (Some (message e)) then message e
            else "未知通信错误").

Definition photo : File := mkFile "photo.png" 2048 "image/png".

(** An uploaded photo as PastForwardPage holds it, and a generation that
    succeeded for a decade. *)
Definition photoUrl : option string := Some "data:image/png;base64,QUJD".

Definition answered (decade : string) : string * (Thrown + string) :=
  (decade, inr ("data:image/png;base64," +:+ decade)).

End Samples.

(** ** The editor: the remaining handlers of [EditorView] (App.tsx) *)

Module EditorActions.

Import Editor.
Local Open Scope Z_scope.
Local Open Scope list_scope.

(** *** [dataURLtoFile] *)

(** [s.split(sep)] for a separator of one character. *)
Fixpoint split_on (sep : ascii) (s : string) : list string :=
  match s with
  | EmptyString => [EmptyString]
  | String c rest =>
      if Ascii.eqb c sep then EmptyString :: split_on sep rest
      else
        match split_on sep rest with
        | piece :: pieces => String c piece :: pieces
        | [] => [String c EmptyString]
        end
  end.

(** Whether [c] occurs in [s]. *)
Fixpoint contains_char (c : ascii) (s : string) : bool :=
  match s with
  | EmptyString => false
  | String c' rest => Ascii.eqb c' c || contains_char c rest
  end.

(** The text before the first [stop], when there is one. *)
Fixpoint until_char (stop : ascii) (s : string) : option string :=
  match s with
  | EmptyString => None
  | String c rest =>
      if Ascii.eqb c stop then Some EmptyString
      else option_map (String c) (until_char stop rest)
  end.

(** The group of the pattern [dataURLtoFile] matches the header against: a
    colon, then lazily any characters but line terminators, then a
    semicolon.  The match is tried at each colon from the left; at a colon
    the lazy group ends at the first semicolon. *)
Fixpoint mimeMatch (header : string) : option string :=
  match header with
  | EmptyString => None
  | String c rest =>
      if Ascii.eqb c ":" then
        match until_char ";" rest with
        | Some group =>
            if Service.has_line_terminator group then mimeMatch rest
            else Some group
        | None => mimeMatch rest
        end
      else mimeMatch rest
  end.

(** The [type] of a [File] made with the option [type: t], for [t] not
    empty: the empty string when [t] holds a character outside
    U+0020..U+007E, and [t] in ASCII lower case otherwise.  Strings are
    byte strings here; every byte of the encoding of a character beyond
    U+007F lies outside that range too. *)
Definition printable (c : ascii) : bool :=
  let n := nat_of_ascii c in ((32 <=? n) && (n <=? 126))%nat.

Definition fileType (t : string) : string :=
  if forallb printable (list_ascii_of_string t) then asciiLowerCase t
  else "".


Section Decode.

(** The browser's [atob]: the decoded binary string, or [None] when it
    throws; [atobError] is what it throws. *)
Variable atob : string -> option string.
Variable atobError : Thrown.

(** [dataURLtoFile(dataurl, filename)]: the [File] holds one byte per
    character of the decoded string, and its type is what the constructor
    makes of the MIME text. *)
Definition dataURLtoFile (dataurl filename : string) : Thrown + File :=
  match split_on "," dataurl with
  | header :: payload :: _ =>
      match mimeMatch header with
      | Some (String _ _ as mime) =>
          match atob payload with
          | Some bstr =>
              inr (mkFile filename (Z.of_nat (String.length bstr))
                     (fileType mime))
          | None => inl atobError
          end
      | _ => inl (newError "Could not parse MIME type from data URL")
      end
  | _ => inl (newError "Invalid data URL")
  end.

End Decode.

(** *** Generative edits *)

Section Apply.

Variable dataURLtoFile : string -> string -> Thrown + File.
Variable now : string.

(** [handleApplyFilter(prompt, count)] up to the [await] of
    [runGenerativeTask]: the call its task makes and the store. *)
Definition handleApplyFilter (r : EditorState) (prompt : string)
    (s : EditorState) : GenCall * EditorState :=
  (call_generateFilteredImage (currentImageFile r) prompt,
   runGenerativeTask_start (setLastAction (Some (la_filters prompt)) s)).

Definition handleApplyAdjustment (r : EditorState) (prompt : string)
    (s : EditorState) : GenCall * EditorState :=
  (call_generateAdjustedImage (currentImageFile r) prompt,
   runGenerativeTask_start (setLastAction (Some (la_adjust prompt)) s)).

Definition handleApplyFusion (r : EditorState) (sourceImages : list File)
    (prompt : string) (s : EditorState) : GenCall * EditorState :=
  (call_generateFusedImage (currentImageFile r) sourceImages prompt,
   runGenerativeTask_start
     (setLastAction (Some (la_fusion prompt sourceImages)) s)).

Definition handleApplyTexture (r : EditorState) (prompt : string)
    (s : EditorState) : GenCall * EditorState :=
  (call_generateTexturedImage (currentImageFile r) prompt,
   runGenerativeTask_start (setLastAction (Some (la_texture prompt)) s)).

Definition handleRemoveBackground (r s : EditorState)
  : GenCall * EditorState :=
  (call_removeBackgroundImage (currentImageFile r),
   runGenerativeTask_start (setLastAction (Some la_erase) s)).

(** [handleApplyRetouch]: nothing happens unless the render holds a prompt
    and a hotspot. *)
Definition handleApplyRetouch (r s : EditorState)
  : option GenCall * EditorState :=
  match retouchPrompt r, retouchHotspot r with
  | String _ _ as prompt, Some hotspot =>
      let s := setLastAction (Some (la_retouch prompt hotspot)) s in
      let s := runGenerativeTask_start s in
      (Some (call_generateEditedImage (currentImageFile r) prompt hotspot),
       setRetouchPrompt "" s)
  | _, _ => (None, s)
  end.

(** [handleApplyCrop] from the point where [getCroppedImg] settles. *)
Definition handleApplyCrop_settle (r : EditorState)
    (awaited : Thrown + File) (s : EditorState) : EditorState :=
  let s :=
    match awaited with
    | inr croppedImageFile =>
        setLastAction None (updateHistory r croppedImageFile s)
    | inl e =>
        setError (Some (if isError e then message e else "裁剪图片时出错")) s
    end in
  setIsLoading false s.

(** [handleLocalImageGenerated(dataUrl)] *)
Definition handleLocalImageGenerated (dataUrl : string) (s : EditorState)
  : EditorState :=
  let s := setIsLoading true s in
  let s :=
    match dataURLtoFile dataUrl ("generated-" +:+ now +:+ ".png") with
    | inr newFile =>
        let s := setHistory [newFile] s in
        let s := setHistoryIndex 0 s in
        let s := setActiveTab adjust s in
        let s := setError None s in
        setLastAction None s
    | inl e =>
        setError (Some (if isError e then message e
                        else "处理生成图像时出错")) s
    end in
  setIsLoading false s.

End Apply.

(** The history operations that never empty the history. *)
Definition keeps_entries (op : HistoryOp) : bool :=
  match op with
  | Reset => false
  | _ => true
  end.

End EditorActions.

(** ** The service layer: the remaining generations (geminiService.ts) *)

Module ServiceMore.

Import Service.

Section Remote.

Variable sdk : list Event -> list Part -> SdkResult.
Variable readFile : File -> Thrown + InlineData.
Variable apiErrorMessage : Thrown -> string -> string.

(** How a number is printed inside a template literal. *)
Variable showNumber : Z -> string.

(** Which rejection [Promise.all] reports when several of its promises
    reject: the first to happen, which the browser decides. *)
Variable firstRejection : list Thrown -> Thrown.

Definition generateEditedImage (imageFile : File) (prompt : string)
    (hotspot : Z * Z) : Async string :=
  imagePart ← fileToGenerativePart readFile imageFile;
  let textPart :=
    textPart ("Apply this edit at hotspot (" +:+ showNumber hotspot.1
              +:+ ", " +:+ showNumber hotspot.2 +:+ "): " +:+ prompt) in
  callImageEditingModel sdk apiErrorMessage [imagePart; textPart] "修饰".

Definition removeBackgroundImage (imageFile : File) : Async string :=
  imagePart ← fileToGenerativePart readFile imageFile;
  let textPart :=
    textPart "Remove the background of this image, leaving only the main subject with a transparent background." in
  callImageEditingModel sdk apiErrorMessage [imagePart; textPart] "抠图".

(** Starts every computation of [ms], in order, and collects what each one
    settles with. *)
Fixpoint startAll {A : Type} (ms : list (Async A)) (log : list Event)
  : list (Thrown + A) * list Event :=
  match ms with
  | [] => ([], log)
  | m :: ms' =>
      let '(out, log1) := m log in
      let '(outs, log2) := startAll ms' log1 in
      (out :: outs, log2)
  end.

Definition rejections {A : Type} (outs : list (Thrown + A)) : list Thrown :=
  omap (fun out => match out with inl e => Some e | inr _ => None end) outs.

Definition fulfilments {A : Type} (outs : list (Thrown + A)) : list A :=
  omap (fun out => match out with inl _ => None | inr a => Some a end) outs.

(** [Promise.all(ms)]: every promise is already started; the result is the
    list of values, or a rejection as soon as one rejects. *)
Definition promiseAll {A : Type} (ms : list (Async A)) : Async (list A) :=
  fun log =>
    let '(outs, log') := startAll ms log in
    match rejections outs with
    | [] => (inr (fulfilments outs), log')
    | e :: es => (inl (firstRejection (e :: es)), log')
    end.

Definition fusedPrompt (sources : nat) (prompt : string) : string :=
  "Fuse the images. The main image is the one I'm editing. "
  +:+ String.concat ""
        (map (fun index =>
                "Source image " +:+ showNumber (Z.of_nat index)
                +:+ " is provided. ")
           (seq 1 sources))
  +:+ "Instructions: " +:+ prompt.

Definition generateFusedImage (mainImage : File) (sourceImages : list File)
    (prompt : string) : Async string :=
  tryCatch
    (mainImagePart ← fileToGenerativePart readFile mainImage;
     sourceImageParts ←
       promiseAll (map (fileToGenerativePart readFile) sourceImages);
     let fullPrompt := fusedPrompt (length sourceImageParts) prompt in
     let textPart := textPart fullPrompt in
     let allParts := mainImagePart :: sourceImageParts ++ [textPart] in
     callImageEditingModel sdk apiErrorMessage allParts "合成")
    (fun e => throw (handleApiError apiErrorMessage e "合成")).

(** *** [generateImageFromText] *)

(** The remote side of the text-to-image model: what a request with the
    given text gets, after the requests made before it. *)
Variable sdkText : list string -> string -> SdkResult.

(** [getGoogleAI()]: [Some e] when it throws. *)
Variable clientError : option Thrown.

(** The [for] loop of [generateImageFromText], with [remaining] rounds to
    go: the images collected, or what was thrown, and the requests made. *)
Fixpoint generateLoop (text : string) (remaining : nat)
    (results : list string) (requests : list string)
  : (Thrown + list string) * list string :=
  match remaining with
  | O => (inr results, requests)
  | S remaining' =>
      let requests' := requests ++ [text] in
      match sdkText requests text with
      | SdkThrow e => (inl e, requests')
      | SdkResponse candidates =>
          match head candidates ≫= content_parts with
          | None => (inl (newError "AI 未能生成图片。"), requests')
          | Some parts =>
              let results' :=
                match firstInlineData parts with
                | Some d =>
                    results
                    ++ ["data:" +:+ mimeType d +:+ ";base64," +:+ data d]
                | None => results
                end in
              generateLoop text remaining' results' requests'
          end
      end
  end.

(** [generateImageFromText(prompt, aspectRatio, imageCount)], with the
    requests it made. *)
Definition generateImageFromText (prompt aspectRatio : string)
    (imageCount : nat) : (Thrown + list string) * list string :=
  let wrap (e : Thrown) := handleApiError apiErrorMessage e "生成图片" in
  match clientError with
  | Some e => (inl (wrap e), [])
  | None =>
      let text := "Generate an image with aspect ratio " +:+ aspectRatio
                  +:+ ": " +:+ prompt in
      match generateLoop text imageCount [] [] with
      | (inr [], requests) => (inl (wrap (newError "AI 未能生成图片。")), requests)
      | (inr results, requests) => (inr results, requests)
      | (inl e, requests) => (inl (wrap e), requests)
      end
  end.

End Remote.

(** Four ASCII digits followed by [s]. *)
Definition is_decade (d : string) : bool :=
  match d with
  | String a (String b (String c (String d' (String e EmptyString)))) =>
      is_digit a && is_digit b && is_digit c && is_digit d' && Ascii.eqb e "s"
  | _ => false
  end.

Definition all_word (w : string) : bool :=
  forallb is_word (list_ascii_of_string w).

End ServiceMore.

(** ** More sample environments *)

Module Samples2.

Import Service.

(** A text-to-image model that always answers with one image. *)
Definition imageSdkText (requests : list string) (text : string) : SdkResult :=
  SdkResponse
    [mkCandidate (Some [imagePartOf (mkInline "image/png" "QUJD")]) None []].

End Samples2.

(** ** BeatSyncPage.tsx: the beginning of [createVideo] and its callers *)

Module BeatSyncVideo.

Import BeatSync.

(** [createVideo(imageUrls)] up to its [try]: the store, and whether it
    goes on to render. *)
Definition createVideo_start (imageUrls : list string) (p : Run)
  : Run * bool :=
  let p := setAppState generating_video p in
  if (length imageUrls =? 0)%nat
  then (setAppState app_error
          (setError (Some "没有成功生成的图片来创建视频。") p), false)
  else (p, true).

(** One pass of the effect that watches [generatedImages], with the
    beginning of the [createVideo] it calls. *)
Definition batchEffect_pass (imageCount : nat) (p : Run) : Run :=
  match batchEffect imageCount p with
  | (p', Some urls) => (createVideo_start urls p').1
  | (p', None) => p'
  end.

(** [handleRegenerateVideo]: the store when it returns, that is with the
    beginning of the [createVideo] it calls, and the argument of that call.
    The entries it maps over passed the filter, so their [url] is a
    string. *)
Definition handleRegenerateVideo (p : Run) : Run * option (list string) :=
  let successfulImages :=
    omap url (List.filter successful (Object_values (generatedImages p))) in
  if (0 <? length successfulImages)%nat
  then ((createVideo_start successfulImages p).1, Some successfulImages)
  else (setAppState app_error
          (setError (Some "没有可用的图片来重新生成视频。") p), None).

(** [hasSuccessfulImages], which enables the button of
    [handleRegenerateVideo]. *)
Definition hasSuccessfulImages (p : Run) : bool :=
  existsb isDone (Object_values (generatedImages p)).

End BeatSyncVideo.

(** ** PastForwardPage.tsx: what holds during a run of [handleGenerateClick] *)

Module PastForwardRuns.

Import PastForward.

(** The generations in flight that a worker loop awaits, and those issued
    by the calls of [processQueue] that nobody awaits. *)
Definition awaitedByLoop (p : Run) : list (string * bool) :=
  filter (fun task => task.2 = true) (inFlight p).

Definition unawaited (p : Run) : list (string * bool) :=
  filter (fun task => task.2 = false) (inFlight p).

(** What holds of a run once [started] worker loops have been started and
    [processQueue] has been called [fired] times for itself. *)
Record run_inv (started fired : nat) (p : Run) : Prop := mkRunInv {
  inv_decades : dispatched p ++ decadesQueue p = DECADES;
  inv_flight : forall task, task ∈ inFlight p -> task.1 ∈ dispatched p;
  inv_nodup : NoDup (inFlight p).*1;
  inv_loops : length (awaitedByLoop p) + loopsReturned p = started;
  inv_unawaited : length (unawaited p) <= fired;
  inv_drained : 0 < loopsReturned p -> decadesQueue p = [];
  inv_pending : forall decade,
    decade ∈ decadesQueue p ++ (inFlight p).*1 ->
    generatedImages p !! decade = Some pendingImage;
  inv_settled : forall decade img,
    generatedImages p !! decade = Some img ->
    decade ∉ decadesQueue p ++ (inFlight p).*1 ->
    terminal img = true;
  inv_keys : forall decade,
    decade ∈ DECADES -> is_Some (generatedImages p !! decade)
}.

(** The page shows what the handler last set: [generating] with the
    spinner until both loops have returned, [results-shown] afterwards. *)
Definition shown_ok (p : Run) : Prop :=
  appState p = (if allLoopsReturned p then results_shown else generating)
  /\ isLoading p = negb (allLoopsReturned p).

(** The generations a run still has to see settle. *)
Definition pending_work (p : Run) : nat :=
  length (decadesQueue p) + length (inFlight p).

End PastForwardRuns.

(** ** FusionPanel.tsx: the three source slots and [handleApply] *)

Module FusionPanel.

Definition MAX_FILE_SIZE_MB : Z := 12.
Definition MAX_FILE_SIZE_BYTES : Z := MAX_FILE_SIZE_MB * 1024 * 1024.

(** The three [ImageUploader]s, by the setter each was given. *)
Inductive Slot : Type := slot1 | slot2 | slot3.

(** The store of the panel, and the messages passed to [onError]. *)
Record Panel : Type := mkPanel {
  sourceImageFile1 : option File;
  sourceImageFile2 : option File;
  sourceImageFile3 : option File;
  prompt : string;
  batchCount : Z;
  reported : list string
}.

Definition initialPanel : Panel := mkPanel None None None "" 1 [].

Definition setFile (slot : Slot) (file : option File) (s : Panel) : Panel :=
  match slot with
  | slot1 => mkPanel file (sourceImageFile2 s) (sourceImageFile3 s)
               (prompt s) (batchCount s) (reported s)
  | slot2 => mkPanel (sourceImageFile1 s) file (sourceImageFile3 s)
               (prompt s) (batchCount s) (reported s)
  | slot3 => mkPanel (sourceImageFile1 s) (sourceImageFile2 s) file
               (prompt s) (batchCount s) (reported s)
  end.

Definition onError (msg : string) (s : Panel) : Panel :=
  mkPanel (sourceImageFile1 s) (sourceImageFile2 s) (sourceImageFile3 s)
    (prompt s) (batchCount s) (reported s ++ [msg]).

Definition setPrompt (v : string) (s : Panel) : Panel :=
  mkPanel (sourceImageFile1 s) (sourceImageFile2 s) (sourceImageFile3 s)
    v (batchCount s) (reported s).

Definition setBatchCount (v : Z) (s : Panel) : Panel :=
  mkPanel (sourceImageFile1 s) (sourceImageFile2 s) (sourceImageFile3 s)
    (prompt s) v (reported s).

(** [handleFileSelect(files)] of the uploader of [slot]; [files] is a
    [FileList] or [null].  The message is the template with
    [MAX_FILE_SIZE_MB] printed. *)
Definition handleFileSelect (slot : Slot) (files : option (list File))
    (s : Panel) : Panel :=
  match files with
  | Some (selectedFile :: _) =>
      if (file_size selectedFile >? MAX_FILE_SIZE_BYTES)%Z
      then onError "素材图文件大小不能超过 12MB。请选择一个较小的文件。" s
      else setFile slot (Some selectedFile) (onError "" s)
  | _ => s
  end.

Definition handleClearImage (slot : Slot) (s : Panel) : Panel :=
  setFile slot None s.

Section Trim.

(** [String.prototype.trim] *)
Variable trim : string -> string.

(** [handleApply]: the arguments of [onApplyFusion] when it is called. *)
Definition handleApply (s : Panel) : option (list File * string * Z) :=
  let sourceFiles :=
    omap id [sourceImageFile1 s; sourceImageFile2 s; sourceImageFile3 s] in
  if (0 <? length sourceFiles)%nat && Service.truthy (Some (trim (prompt s)))
  then Some (sourceFiles, prompt s, batchCount s)
  else None.

End Trim.

(** What the user can do to the panel. *)
Inductive PanelEvent : Type :=
  | SelectFiles (slot : Slot) (files : option (list File))
  | ClearImage (slot : Slot)
  | TypePrompt (v : string)
  | PickCount (v : Z).

Definition panel_step (s : Panel) (ev : PanelEvent) : Panel :=
  match ev with
  | SelectFiles slot files => handleFileSelect slot files s
  | ClearImage slot => handleClearImage slot s
  | TypePrompt v => setPrompt v s
  | PickCount v => setBatchCount v s
  end.

Definition panel_run (events : list PanelEvent) (s : Panel) : Panel :=
  foldl panel_step s events.

(** Every source slot holds a file within the cap, or nothing. *)
Definition within_cap (file : option File) : Prop :=
  match file with
  | Some f => (file_size f <= MAX_FILE_SIZE_BYTES)%Z
  | None => True
  end.

Definition slots_ok (s : Panel) : Prop :=
  within_cap (sourceImageFile1 s) /\ within_cap (sourceImageFile2 s)
  /\ within_cap (sourceImageFile3 s).

End FusionPanel.

(** ** geminiService.ts: the cached client *)

Module Client.

(** A value of [baseUrl] or [lastUsedBaseUrl]: a string, [undefined] or
    [null]. *)
Inductive BaseUrl : Type :=
  | url_undefined
  | url_null
  | url_string (s : string).

#[global] Instance BaseUrl_eq_dec : EqDecision BaseUrl.
Proof. solve_decision. Defined.

(** The [config] object handed to the SDK: [apiKey], and
    [httpOptions.baseUrl] when it was set. *)
Record Config : Type := mkConfig {
  apiKey : string;
  httpOptions_baseUrl : option string
}.

(** A [GoogleGenAI] object: which construction made it, and from what. *)
Record GoogleGenAI : Type := mkGoogleGenAI {
  serial : nat;
  config : Config
}.

(** The variables of the module, and the number of clients constructed. *)
Record ModuleState : Type := mkModuleState {
  aiInstance : option GoogleGenAI;
  lastUsedApiKey : option string;
  lastUsedBaseUrl : BaseUrl;
  constructed : nat
}.

Definition initialState : ModuleState := mkModuleState None None url_null 0.

(** The browser at the time of a call: [localStorage.getItem], which can
    throw, and [new GoogleGenAI(config)], with the value it throws if it
    does. *)
Record Env : Type := mkEnv {
  getItem : string -> Thrown + option string;
  construct : Config -> option Thrown
}.

(** [url.endsWith('/')] and [url.slice(0, -1)] *)
Fixpoint endsWithSlash (url : string) : bool :=
  match url with
  | EmptyString => false
  | String c EmptyString => Ascii.eqb c "/"
  | String _ rest => endsWithSlash rest
  end.

Fixpoint dropLast (url : string) : string :=
  match url with
  | EmptyString => EmptyString
  | String _ EmptyString => EmptyString
  | String c rest => String c (dropLast rest)
  end.

Definition toBaseUrl (baseUrl : option string) : BaseUrl :=
  match baseUrl with
  | Some s => url_string s
  | None => url_undefined
  end.

Section Strings.

(** [String.prototype.trim], and [String(e)] for a thrown value that is
    not an [Error]. *)
Variable trim : string -> string.
Variable describe : Thrown -> string.

Definition getApiKey (env : Env) : option string :=
  match getItem env "gemini-api-key" with
  | inr (Some userApiKey) =>
      if Service.truthy (Some userApiKey)
         && negb (String.eqb (trim userApiKey) "")
      then Some userApiKey
      else None
  | _ => None
  end.

(** [getBaseUrl()]: [None] is [undefined]. *)
Definition getBaseUrl (env : Env) : option string :=
  match getItem env "gemini-base-url" with
  | inr (Some userBaseUrl) =>
      if Service.truthy (Some userBaseUrl)
         && negb (String.eqb (trim userBaseUrl) "")
      then
        let url := trim userBaseUrl in
        Some (if endsWithSlash url then dropLast url else url)
      else None
  | _ => None
  end.

Definition configOf (apiKey : string) (baseUrl : option string) : Config :=
  mkConfig apiKey (if Service.truthy baseUrl then baseUrl else None).

(** The re-initialisation inside [getGoogleAI]. *)
Definition initialise (env : Env) (apiKey : string) (baseUrl : option string)
    (st : ModuleState) : (Thrown + GoogleGenAI) * ModuleState :=
  let config := configOf apiKey baseUrl in
  match construct env config with
  | None =>
      let instance := mkGoogleGenAI (constructed st) config in
      (inr instance,
       mkModuleState (Some instance) (Some apiKey) (toBaseUrl baseUrl)
         (S (constructed st)))
  | Some e =>
      (inl (newError ("初始化 AI 服务失败: "
                      +:+ (if isError e then message e else describe e))),
       mkModuleState None None url_null (constructed st))
  end.

Definition getGoogleAI (env : Env) (st : ModuleState)
  : (Thrown + GoogleGenAI) * ModuleState :=
  let apiKey := getApiKey env in
  match apiKey with
  | Some (String c key) =>
      let apiKey := String c key in
      let baseUrl := getBaseUrl env in
      match aiInstance st with
      | Some instance =>
          if negb (bool_decide (Some apiKey = lastUsedApiKey st))
             || negb (bool_decide (toBaseUrl baseUrl = lastUsedBaseUrl st))
          then initialise env apiKey baseUrl st
          else (inr instance, st)
      | None => initialise env apiKey baseUrl st
      end
  | _ =>
      (inl (newError "找不到 API 密钥。请通过 URL 参数（?server=xxx&key=xxx）配置您的 API 设置。"),
       st)
  end.

(** The module after a series of calls, each in the browser of its time. *)
Definition after_calls (envs : list Env) (st : ModuleState) : ModuleState :=
  foldl (fun st env => (getGoogleAI env st).2) st envs.

(** The cached client was built from the key and the URL last used. *)
Definition cache_ok (st : ModuleState) : Prop :=
  match aiInstance st with
  | Some instance =>
      exists apiKey baseUrl,
        lastUsedApiKey st = Some apiKey
        /\ lastUsedBaseUrl st = toBaseUrl baseUrl
        /\ config instance = configOf apiKey baseUrl
        /\ serial instance < constructed st
  | None => True
  end.

End Strings.

End Client.

(** * Properties *)

(** ** History of the editor *)

Section EditorHistory.

Import Editor.
Local Open Scope Z_scope.

Lemma js_slice0_take {A : Type} (arr : list A) (e : Z) :
  0 <= e -> js_slice0 arr e = take (Z.to_nat e) arr.
Proof.
  intros He. unfold js_slice0.
  destruct (e <? 0) eqn:Hneg; [lia|].
  destruct (Z.min_spec e (Z.of_nat (length arr))) as [[Hlt ->]|[Hge ->]].
  - reflexivity.
  - rewrite Nat2Z.id. rewrite firstn_all.
    symmetry. apply take_ge. lia.
Qed.

Lemma js_get_lookup {A : Type} (arr : list A) (i : Z) :
  0 <= i -> js_get arr i = arr !! Z.to_nat i.
Proof.
  intros Hi. unfold js_get. destruct (i <? 0) eqn:Hneg; [lia|reflexivity].
Qed.

Lemma js_get_last {A : Type} (arr : list A) (x : A) :
  js_get (arr ++ [x]) (Z.of_nat (length (arr ++ [x])) - 1) = Some x.
Proof.
  rewrite length_app. simpl. rewrite js_get_lookup by lia.
  replace (Z.to_nat (Z.of_nat (length arr + 1) - 1)) with (length arr + 0)%nat
    by lia.
  rewrite lookup_app_r by lia.
  replace (length arr + 0 - length arr)%nat with 0%nat by lia. reflexivity.
Qed.

(** The entry pushed is the current one, whatever render the closure of
    [updateHistory] belongs to. *)
Lemma updateHistory_current (r s : EditorState) (e : File) :
  currentImageFile (updateHistory r e s) = Some e.
Proof. unfold currentImageFile, updateHistory. simpl. apply js_get_last. Qed.

Lemma updateHistory_ok (r s : EditorState) (e : File) :
  history_ok (updateHistory r e s).
Proof.
  unfold history_ok, updateHistory. simpl.
  destruct (js_slice0 (history r) (historyIndex r + 1) ++ [e]) as [|x l] eqn:E.
  - destruct (js_slice0 (history r) (historyIndex r + 1)); discriminate.
  - simpl. lia.
Qed.

Lemma history_ok_spec (s : EditorState) :
  history_ok s <->
  (length (history s) = 0%nat /\ historyIndex s = -1)
  \/ 0 <= historyIndex s < Z.of_nat (length (history s)).
Proof.
  unfold history_ok. destruct (history s) as [|f l]; cbn [length].
  - split; [intros ->; left; split; reflexivity|intros [[_ H]|H]; lia].
  - split; [intros H; right; exact H|intros [[H _]|H]; [discriminate|exact H]].
Qed.

Lemma handleUndo_ok (s : EditorState) : history_ok s -> history_ok (handleUndo s s).
Proof.
  unfold handleUndo. intros H.
  destruct (Z.gtb_spec (historyIndex s) 0) as [Hgt|Hle]; [|exact H].
  apply history_ok_spec in H. apply history_ok_spec. simpl. lia.
Qed.

Lemma handleRedo_ok (s : EditorState) : history_ok s -> history_ok (handleRedo s s).
Proof.
  unfold handleRedo. intros H.
  destruct (Z.ltb_spec (historyIndex s) (Z.of_nat (length (history s)) - 1))
    as [Hlt|Hge]; [|exact H].
  apply history_ok_spec in H. apply history_ok_spec. simpl. lia.
Qed.

Lemma apply_op_ok (s : EditorState) (op : HistoryOp) :
  history_ok s -> history_ok (apply_op s op).
Proof.
  intros H. destruct op; simpl.
  - apply updateHistory_ok.
  - apply handleUndo_ok, H.
  - apply handleRedo_ok, H.
  - reflexivity.
Qed.

Lemma run_ops_ok (ops : list HistoryOp) (s : EditorState) :
  history_ok s -> history_ok (run_ops ops s).
Proof.
  revert s. induction ops as [|op ops IH]; intros s H; simpl.
  - exact H.
  - apply IH, apply_op_ok, H.
Qed.

(** C3. After any finite sequence of push, undo, redo and reset from the
    empty history, [historyIndex] is [-1] when [history] is empty and lies
    in [0, length history) otherwise; and [history[historyIndex]] right
    after pushing [e] is [e]. *)
Theorem history_invariant (ops : list HistoryOp) :
  let s := run_ops ops initialRender in
  history_ok s /\
  forall e : File, currentImageFile (apply_op s (Push e)) = Some e.
Proof.
  simpl. split.
  - apply run_ops_ok. reflexivity.
  - intros e. apply updateHistory_current.
Qed.

(** What [updateHistory] writes, for a render whose cursor is in range. *)
Lemma updateHistory_writes (r s : EditorState) (e : File) :
  -1 <= historyIndex r < Z.of_nat (length (history r)) ->
  history (updateHistory r e s)
  = take (Z.to_nat (historyIndex r + 1)) (history r) ++ [e]
  /\ historyIndex (updateHistory r e s) = historyIndex r + 1.
Proof.
  intros Hi.
  assert (Hh : history (updateHistory r e s)
               = take (Z.to_nat (historyIndex r + 1)) (history r) ++ [e]).
  { unfold updateHistory. simpl. rewrite js_slice0_take by lia. reflexivity. }
  split; [exact Hh|].
  change (historyIndex (updateHistory r e s))
    with (Z.of_nat (length (history (updateHistory r e s))) - 1).
  rewrite Hh, length_app, length_take. simpl. lia.
Qed.

(** C4. [updateHistory] keeps exactly the entries up to the cursor of the
    history it reads, appends the new entry and moves the cursor to the new
    last index; pushing after two undos from a history of five entries
    gives four entries, the first three preserved and the new one at
    index 3. *)
Theorem updateHistory_truncates (r s : EditorState) (e : File) :
  history_ok r ->
  let s' := updateHistory r e s in
  history s' = take (Z.to_nat (historyIndex r + 1)) (history r) ++ [e]
  /\ Z.of_nat (length (history s')) = historyIndex r + 2
  /\ historyIndex s' = historyIndex r + 1
  /\ historyIndex s' = Z.of_nat (length (history s')) - 1
  /\ (forall j, 0 <= j <= historyIndex r ->
        js_get (history s') j = js_get (history r) j)
  /\ js_get (history s') (historyIndex r + 1) = Some e
  /\ (forall f0 f1 f2 f3 f4 : File,
        history r = [f0; f1; f2; f3; f4] -> historyIndex r = 4 ->
        let u := run_ops [Undo; Undo; Push e] r in
        history u = [f0; f1; f2; e] /\ historyIndex u = 3).
Proof.
  intros Hok s'.
  assert (Hi : -1 <= historyIndex r < Z.of_nat (length (history r))).
  { apply history_ok_spec in Hok. lia. }
  destruct (updateHistory_writes r s e Hi) as [Hh _]. fold s' in Hh.
  assert (Hlen : Z.of_nat (length (history s')) = historyIndex r + 2).
  { rewrite Hh, length_app, length_take. simpl. lia. }
  assert (Hidx : historyIndex s' = Z.of_nat (length (history s')) - 1).
  { reflexivity. }
  split; [exact Hh|]. split; [exact Hlen|]. split; [lia|].
  split; [exact Hidx|]. split; [|split].
  - intros j Hj. rewrite !js_get_lookup by lia. rewrite Hh.
    rewrite lookup_app_l by (rewrite length_take; lia).
    apply lookup_take_lt. lia.
  - replace (historyIndex r + 1) with (Z.of_nat (length (history s')) - 1)
      by lia.
    unfold s', updateHistory. simpl. apply js_get_last.
  - intros f0 f1 f2 f3 f4 Hr Hix. destruct r. simpl in *. subst.
    split; reflexivity.
Qed.

Lemma updateHistory_truncates_witness :
  let r := setHistoryIndex 1
             (setHistory [mkFile "a.png" 10 "image/png";
                          mkFile "b.png" 20 "image/png";
                          mkFile "c.png" 30 "image/png"] initialRender) in
  let e := mkFile "d.png" 40 "image/png" in
  history_ok r /\
  history (updateHistory r e r)
  = [mkFile "a.png" 10 "image/png"; mkFile "b.png" 20 "image/png"; e].
Proof.
  intros r e.
  assert (H : history_ok r) by (unfold history_ok; simpl; lia).
  split; [exact H|].
  exact (proj1 (updateHistory_truncates r r e H)).
Defined.

End EditorHistory.

(** ** Regenerate *)

Section Regenerate.

Import Editor.
Local Open Scope Z_scope.

Variable dataURLtoFile : string -> string -> Thrown + File.
Variable now : string.

Lemma regenerateTask_none (r : EditorState) :
  lastAction r = None \/ historyIndex r < 1 \/ isLoading r = true ->
  regenerateTask r = None.
Proof.
  unfold regenerateTask. intros H.
  destruct (lastAction r) as [la|]; [|reflexivity].
  destruct (Z.ltb_spec (historyIndex r) 1) as [Hlt|Hge]; [reflexivity|].
  destruct H as [H|[H|H]]; [discriminate|lia|].
  rewrite H. reflexivity.
Qed.

(** Without a recorded action, or with the cursor below 1, regenerate
    leaves the store as it is and issues no call. *)
Lemma regenerate_noop (remote : GenCall -> Thrown + string)
    (r s : EditorState) :
  lastAction r = None \/ historyIndex r < 1 ->
  handleRegenerate r s = (None, s)
  /\ regenerate dataURLtoFile now remote r s = s.
Proof.
  intros H. unfold regenerate, handleRegenerate.
  rewrite regenerateTask_none by tauto. split; reflexivity.
Qed.

(** Otherwise a call is issued, and the image it edits is the entry before
    the cursor. *)
Lemma regenerateTask_some (r : EditorState) (la : LastAction) :
  lastAction r = Some la -> 1 <= historyIndex r -> isLoading r = false ->
  exists task, regenerateTask r = Some task
               /\ callInput task = js_get (history r) (historyIndex r - 1).
Proof.
  intros Hla Hi Hload. unfold regenerateTask. rewrite Hla, Hload.
  destruct (Z.ltb_spec (historyIndex r) 1) as [Hlt|_]; [lia|]. simpl.
  eexists. split; [reflexivity|]. destruct la; reflexivity.
Qed.

(** When the call and the conversion succeed, the new entry is appended
    after the entry that was current at the click: [updateHistory] belongs
    to the render of the click and reads its [historyIndex], not the
    decremented one. *)
Lemma regenerate_success (remote : GenCall -> Thrown + string)
    (s : EditorState) (task : GenCall) (resultDataUrl : string)
    (newFile : File) :
  history_ok s -> 1 <= historyIndex s ->
  regenerateTask s = Some task ->
  remote task = inr resultDataUrl ->
  dataURLtoFile resultDataUrl ("edit-" +:+ now +:+ ".png") = inr newFile ->
  let s' := regenerate dataURLtoFile now remote s s in
  history s' = take (Z.to_nat (historyIndex s + 1)) (history s) ++ [newFile]
  /\ historyIndex s' = historyIndex s + 1.
Proof.
  intros Hok Hi Htask Hremote Hconv s'.
  unfold s', regenerate, handleRegenerate. rewrite Htask.
  unfold runGenerativeTask_settle. rewrite Hremote, Hconv.
  apply history_ok_spec in Hok.
  apply (updateHistory_writes s
    (runGenerativeTask_start (setHistoryIndex (historyIndex s - 1) s))
    newFile).
  lia.
Qed.

(** C10. When the call issued by regenerate fails, [history] is unchanged
    and [historyIndex] stays decremented by one: the current entry is then
    the one before the entry that was current at the click. *)
Theorem regenerate_failure_moves_cursor
    (remote : GenCall -> Thrown + string) (s : EditorState)
    (la : LastAction) (e : Thrown) :
  history_ok s ->
  lastAction s = Some la -> 1 <= historyIndex s -> isLoading s = false ->
  (forall task, regenerateTask s = Some task -> remote task = inl e) ->
  let s' := regenerate dataURLtoFile now remote s s in
  history s' = history s
  /\ historyIndex s' = historyIndex s - 1
  /\ currentImageFile s' = js_get (history s) (historyIndex s - 1)
  /\ is_Some (currentImageFile s')
  /\ error s' = Some (if isError e then message e else unknownErrorMessage).
Proof.
  intros Hok Hla Hi Hload Hfail s'.
  destruct (regenerateTask_some s la Hla Hi Hload) as (task & Htask & _).
  assert (Hs' : s' = setIsLoading false
                  (setError (Some (if isError e then message e
                                   else unknownErrorMessage))
                     (runGenerativeTask_start
                        (setHistoryIndex (historyIndex s - 1) s)))).
  { unfold s', regenerate, handleRegenerate. rewrite Htask.
    unfold runGenerativeTask_settle. rewrite (Hfail task Htask).
    reflexivity. }
  rewrite Hs'. simpl.
  split; [reflexivity|]. split; [reflexivity|].
  split; [reflexivity|]. split; [|reflexivity].
  unfold currentImageFile. simpl.
  apply history_ok_spec in Hok.
  rewrite js_get_lookup by lia. apply lookup_lt_is_Some_2. lia.
Qed.

End Regenerate.

Lemma regenerate_failure_moves_cursor_witness :
  let f0 := mkFile "a.png" 10 "image/png" in
  let f1 := mkFile "edit-1.png" 20 "image/png" in
  let s := Editor.setLastAction (Some (Editor.la_adjust "brighter"))
             (Editor.setHistoryIndex 1
                (Editor.setHistory [f0; f1] Editor.initialRender)) in
  let s' := Editor.regenerate (fun _ _ => inl (newError "unused")) "0"
              (fun _ => inl (newError "quota exceeded")) s s in
  Editor.history s' = [f0; f1] /\ Editor.historyIndex s' = 0%Z
  /\ Editor.currentImageFile s' = Some f0.
Proof.
  intros f0 f1 s s'.
  assert (Hok : Editor.history_ok s) by (unfold Editor.history_ok; simpl; lia).
  pose proof (regenerate_failure_moves_cursor
                (fun _ _ => inl (newError "unused")) "0"
                (fun _ => inl (newError "quota exceeded")) s
                (Editor.la_adjust "brighter") (newError "quota exceeded")
                Hok eq_refl ltac:(simpl; lia) eq_refl
                (fun _ _ => eq_refl)) as (H1 & H2 & H3 & _).
  split; [exact H1|]. split; [exact H2|exact H3].
Defined.

(** C5. Regenerate on a history of two entries with the cursor on the
    second and a recorded filter: the call edits the first entry, and on
    success the store holds three entries with the cursor on the third,
    whereas moving the cursor back and pushing would hold two. *)
Theorem regenerate_does_not_overwrite :
  let f0 := mkFile "a.png" 10 "image/png" in
  let f1 := mkFile "edit-1.png" 20 "image/png" in
  let f2 := mkFile "edit-2.png" 30 "image/png" in
  let s := Editor.setLastAction (Some (Editor.la_filters "warm"))
             (Editor.setHistoryIndex 1
                (Editor.setHistory [f0; f1] Editor.initialRender)) in
  let s' := Editor.regenerate (fun _ _ => inr f2) "2"
              (fun _ => inr "data:image/png;base64,AAAA") s s in
  let back := Editor.setHistoryIndex (Editor.historyIndex s - 1) s in
  fst (Editor.handleRegenerate s s)
  = Some (Editor.call_generateFilteredImage (Some f0) "warm")
  /\ Editor.history s' = [f0; f1; f2]
  /\ Editor.historyIndex s' = 2%Z
  /\ Editor.history (Editor.updateHistory back f2 back) = [f0; f2]
  /\ Editor.historyIndex (Editor.updateHistory back f2 back) = 1%Z.
Proof. repeat split. Qed.

(** ** Uploads *)

Section Uploads.

Import Editor.
Local Open Scope Z_scope.

(** The start screen's upload rejects a file above the cap: it only sets
    the error. *)
Lemma handleLocalFileSelect_rejects_oversized
    (file : File) (others : list File) (s : EditorState) :
  file_size file > MAX_FILE_SIZE_BYTES ->
  handleLocalFileSelect (Some (file :: others)) s
  = setError (Some oversizeMessage) s.
Proof.
  intros Hbig. unfold handleLocalFileSelect.
  destruct (Z.gtb_spec (file_size file) MAX_FILE_SIZE_BYTES) as [_|Hle];
    [reflexivity|lia].
Qed.

(** C8. The "replace image" input takes an image of 12 MB and one byte:
    the file becomes the history and no error is set. *)
Theorem handleFileInputChange_accepts_oversized (s : EditorState) :
  let big := mkFile "big.png" (12 * 1024 * 1024 + 1) "image/png" in
  let s' := handleFileInputChange (Some [big]) s in
  file_size big > MAX_FILE_SIZE_BYTES
  /\ history s' = [big]
  /\ historyIndex s' = 0
  /\ error s' = error s
  /\ handleLocalFileSelect (Some [big]) s = setError (Some oversizeMessage) s.
Proof. repeat split. Qed.

End Uploads.

(** ** Service layer: fallback prompt and retry *)

Section ServiceLayer.

Import Service.

Variable sdk : list Event -> list Part -> SdkResult.
Variable readFile : File -> Thrown + InlineData.
Variable apiErrorMessage : Thrown -> string -> string.

Local Abbreviation callModel := (callImageEditingModel sdk apiErrorMessage).

Lemma modelCalls_app (l1 l2 : list Event) :
  modelCalls (l1 ++ l2) = modelCalls l1 ++ modelCalls l2.
Proof. unfold modelCalls. apply omap_app. Qed.

Lemma reads_app (l1 l2 : list Event) : reads (l1 ++ l2) = reads l1 ++ reads l2.
Proof. unfold reads. apply omap_app. Qed.

Lemma sleeps_app (l1 l2 : list Event) :
  sleeps (l1 ++ l2) = sleeps l1 ++ sleeps l2.
Proof. unfold sleeps. apply omap_app. Qed.

(** A call to the model leaves exactly one entry in the log. *)
Lemma callImageEditingModel_log (parts : list Part) (action : string)
    (log : list Event) :
  (callModel parts action log).2 = log ++ [EvModel parts action].
Proof.
  unfold callImageEditingModel, mbind, Async_bind, bind, emit. simpl.
  repeat case_match; reflexivity.
Qed.

(** The shape shared by the fallback handlers: a first call under [try], and
    a handler that makes the fallback call when [guard] holds. *)
Lemma tryCatch_fallbackPolicy (log : list Event)
    (primary fallback : list Part * string) (canFallBack : bool)
    (handler : Thrown -> Async string) :
  (forall e l, respondedWithText e && canFallBack = true ->
     handler e l = callModel fallback.1 fallback.2 l) ->
  (forall e l, respondedWithText e && canFallBack = false ->
     handler e l = (inl e, l)) ->
  fallbackPolicy sdk apiErrorMessage
    (tryCatch (callModel primary.1 primary.2) handler log)
    log primary fallback canFallBack.
Proof.
  intros Hyes Hno. unfold fallbackPolicy, tryCatch.
  pose proof (callImageEditingModel_log primary.1 primary.2 log) as Hlog.
  destruct (callModel primary.1 primary.2 log) as [[e|u] log1] eqn:Hfirst;
    simpl in *; subst log1.
  - destruct (respondedWithText e && canFallBack) eqn:Hg.
    + rewrite Hyes by exact Hg. split; [reflexivity|].
      rewrite callImageEditingModel_log, !modelCalls_app. simpl.
      destruct primary, fallback. rewrite <- app_assoc. reflexivity.
    + rewrite Hno by exact Hg. split; [reflexivity|]. simpl.
      rewrite modelCalls_app. destruct primary. reflexivity.
  - split; [reflexivity|]. simpl. rewrite modelCalls_app.
    destruct primary. reflexivity.
Qed.

Lemma fallback_handler_yes (fallback : list Part * string) (e : Thrown)
    (l : list Event) :
  respondedWithText e && true = true ->
  (if respondedWithText e then callModel fallback.1 fallback.2
   else throw e) l = callModel fallback.1 fallback.2 l.
Proof. rewrite andb_true_r. intros ->. reflexivity. Qed.

Lemma fallback_handler_no (fallback : Async string) (e : Thrown)
    (l : list Event) :
  respondedWithText e && true = false ->
  (if respondedWithText e then fallback else throw e) l = (inl e, l).
Proof. rewrite andb_true_r. intros ->. reflexivity. Qed.

(** The four generations that take a [File] and a prompt. *)
Lemma file_generation_policy (imageFile : File) (prompt : string)
    (log : list Event) (d : InlineData) (prefix action : string) :
  readFile imageFile = inr d ->
  fallbackPolicy sdk apiErrorMessage
    ((imagePart ← fileToGenerativePart readFile imageFile;
      tryCatch
        (callModel [imagePart; textPart (prefix +:+ prompt)] action)
        (fun error =>
           if respondedWithText error
           then callModel [imagePart; textPart prompt] (action +:+ " (fallback)")
           else throw error)) log)
    (log ++ [EvRead imageFile])
    ([imagePartOf d; textPart (prefix +:+ prompt)], action)
    ([imagePartOf d; textPart prompt], action +:+ " (fallback)")
    true.
Proof.
  intros Hread.
  unfold fileToGenerativePart, mbind, Async_bind, bind, emit. simpl.
  rewrite Hread. simpl.
  apply (tryCatch_fallbackPolicy (log ++ [EvRead imageFile])
           ([imagePartOf d; textPart (prefix +:+ prompt)], action)
           ([imagePartOf d; textPart prompt], action +:+ " (fallback)") true).
  - intros e l. apply (fallback_handler_yes
                         ([imagePartOf d; textPart prompt], _)).
  - intros e l. apply fallback_handler_no.
Qed.

(** C9 (amended). Each of the five generations with a fallback prompt calls
    the model once with its primary prompt; it calls it a second time, with
    the fallback prompt, exactly when the first call threw an [Error] whose
    message includes the text-instead-of-image sentence and, for
    [generateDecadeImage], the prompt holds a decade; the result is then
    that of the second call.  In every other case the result of the first
    call, a thrown value included, is the result, and no second call is
    made. *)
Theorem fallback_prompt_policy :
  (forall (imageFile : File) (prompt : string) (log : list Event)
          (d : InlineData),
     readFile imageFile = inr d ->
     let image := imagePartOf d in
     let log0 := log ++ [EvRead imageFile] in
     fallbackPolicy sdk apiErrorMessage
       (generateFilteredImage sdk readFile apiErrorMessage imageFile prompt log)
       log0
       ([image; textPart ("Apply this filter: " +:+ prompt)], "滤镜")
       ([image; textPart prompt], "滤镜 (fallback)") true
     /\ fallbackPolicy sdk apiErrorMessage
       (generateStyledImage sdk readFile apiErrorMessage imageFile prompt log)
       log0
       ([image; textPart ("Apply this artistic style: " +:+ prompt)], "应用风格")
       ([image; textPart prompt], "应用风格 (fallback)") true
     /\ fallbackPolicy sdk apiErrorMessage
       (generateAdjustedImage sdk readFile apiErrorMessage imageFile prompt log)
       log0
       ([image; textPart ("Apply this adjustment: " +:+ prompt)], "调整")
       ([image; textPart prompt], "调整 (fallback)") true
     /\ fallbackPolicy sdk apiErrorMessage
       (generateTexturedImage sdk readFile apiErrorMessage imageFile prompt log)
       log0
       ([image; textPart ("Apply this texture: " +:+ prompt)], "纹理")
       ([image; textPart prompt], "纹理 (fallback)") true)
  /\ (forall (imageDataUrl prompt : string) (log : list Event)
             (mime base64Data : string),
        matchDataUrl imageDataUrl = Some (mime, base64Data) ->
        let image := imagePartOf (mkInline mime base64Data) in
        let decade := default "" (extractDecade prompt) in
        fallbackPolicy sdk apiErrorMessage
          (generateDecadeImage sdk apiErrorMessage imageDataUrl prompt log)
          log
          ([image; textPart prompt],
           "生成 " +:+ default "null" (extractDecade prompt) +:+ " 图像")
          ([image; textPart (getFallbackPrompt decade)],
           "生成 " +:+ decade +:+ " 图像 (fallback)")
          (bool_decide (is_Some (extractDecade prompt)))).
Proof.
  split.
  - intros imageFile prompt log d Hread image log0.
    split; [|split; [|split]].
    + exact (file_generation_policy imageFile prompt log d
               "Apply this filter: " "滤镜" Hread).
    + exact (file_generation_policy imageFile prompt log d
               "Apply this artistic style: " "应用风格" Hread).
    + exact (file_generation_policy imageFile prompt log d
               "Apply this adjustment: " "调整" Hread).
    + exact (file_generation_policy imageFile prompt log d
               "Apply this texture: " "纹理" Hread).
  - intros imageDataUrl prompt log mime base64Data Hmatch image decade.
    unfold generateDecadeImage. rewrite Hmatch.
    apply (tryCatch_fallbackPolicy log
             ([image; textPart prompt],
              "生成 " +:+ default "null" (extractDecade prompt) +:+ " 图像")
             ([image; textPart (getFallbackPrompt decade)],
              "生成 " +:+ decade +:+ " 图像 (fallback)")
             (bool_decide (is_Some (extractDecade prompt)))).
    + intros e l Hg. apply andb_true_iff in Hg as [-> Hdec].
      apply bool_decide_eq_true in Hdec as [dec Hdec].
      unfold decade. rewrite Hdec. reflexivity.
    + intros e l Hg. destruct (respondedWithText e); [|reflexivity].
      simpl in Hg. apply bool_decide_eq_false in Hg.
      destruct (extractDecade prompt) as [dec|]; [|reflexivity].
      exfalso. apply Hg. eexists. reflexivity.
Qed.

(** A call to the model that returns, returns a data URL: a string that is
    not empty. *)
Lemma callImageEditingModel_url (parts : list Part) (action : string)
    (log : list Event) (u : string) :
  (callModel parts action log).1 = inr u -> truthy (Some u) = true.
Proof.
  unfold callImageEditingModel, mbind, Async_bind, bind, emit. simpl.
  repeat case_match; simpl; intros [= <-]; reflexivity.
Qed.

Local Abbreviation styled := (generateStyledImage sdk readFile apiErrorMessage).
Local Abbreviation withRetry := (generateWithRetry sdk readFile apiErrorMessage).

(** One run of [generateStyledImage] reads the file once and never sleeps. *)
Lemma generateStyledImage_log (file : File) (prompt : string)
    (log : list Event) :
  reads (styled file prompt log).2 = reads log ++ [file]
  /\ sleeps (styled file prompt log).2 = sleeps log.
Proof.
  unfold generateStyledImage, fileToGenerativePart, mbind, Async_bind, bind,
    emit, tryCatch, throw, ret.
  simpl. destruct (readFile file) as [e|d]; simpl.
  - rewrite reads_app, sleeps_app. simpl. rewrite app_nil_r. split; reflexivity.
  - match goal with
    | |- context [callImageEditingModel sdk apiErrorMessage ?ps ?a ?l] =>
        pose proof (callImageEditingModel_log ps a l) as Hlog;
        destruct (callImageEditingModel sdk apiErrorMessage ps a l)
          as [[e|u] l1]
    end; simpl in Hlog; subst l1.
    + destruct (respondedWithText e); simpl;
        rewrite ?callImageEditingModel_log, !reads_app, !sleeps_app; simpl;
        rewrite !app_nil_r; split; reflexivity.
    + simpl. rewrite !reads_app, !sleeps_app. simpl. rewrite !app_nil_r.
      split; reflexivity.
Qed.

Lemma generateStyledImage_url (file : File) (prompt : string)
    (log : list Event) (u : string) :
  (styled file prompt log).1 = inr u -> truthy (Some u) = true.
Proof.
  unfold generateStyledImage, fileToGenerativePart, mbind, Async_bind, bind,
    emit, tryCatch, throw, ret.
  simpl. destruct (readFile file) as [e|d]; simpl; [discriminate|].
  match goal with
  | |- context [callImageEditingModel sdk apiErrorMessage ?ps ?a ?l] =>
      pose proof (callImageEditingModel_url ps a l) as Hfirst;
      destruct (callImageEditingModel sdk apiErrorMessage ps a l)
        as [[e|u1] l1]
  end; simpl in *.
  - destruct (respondedWithText e); simpl; [|discriminate].
    apply callImageEditingModel_url.
  - intros [= <-]. apply Hfirst. reflexivity.
Qed.

Lemma generateWithRetry_0 (file : File) (prompt : string) (log : list Event) :
  withRetry file prompt 0 log = styled file prompt log.
Proof.
  simpl. unfold tryCatch, throw.
  destruct (styled file prompt log) as [[e|u] l]; reflexivity.
Qed.

Lemma generateWithRetry_S (file : File) (prompt : string) (n : nat)
    (log : list Event) :
  withRetry file prompt (S n) log
  = match styled file prompt log with
    | (inr u, l) => (inr u, l)
    | (inl _, l) => withRetry file prompt n (l ++ [EvSleep 1000])
    end.
Proof.
  simpl. unfold tryCatch at 1.
  destruct (styled file prompt log) as [[e|u] l]; reflexivity.
Qed.

(** What [processQueue] writes for a generation that went through
    [generateWithRetry] is an error entry or a done entry with a URL. *)
Lemma generateWithRetry_settledEntry (file : File) (prompt : string)
    (retries : nat) (log : list Event) :
  BeatSync.settledEntry (settledImage (withRetry file prompt retries log).1).
Proof.
  revert log. induction retries as [|n IH]; intros log.
  - rewrite generateWithRetry_0.
    destruct (styled file prompt log) as [[e|u] l] eqn:Hs; simpl.
    + left. reflexivity.
    + right. split; [reflexivity|].
      apply (generateStyledImage_url file prompt log). rewrite Hs. reflexivity.
  - rewrite generateWithRetry_S.
    destruct (styled file prompt log) as [[e|u] l] eqn:Hs; simpl.
    + apply IH.
    + right. split; [reflexivity|].
      apply (generateStyledImage_url file prompt log). rewrite Hs. reflexivity.
Qed.

(** C7. With [retries = 1]: a first failure of [generateStyledImage] is
    followed by a sleep of one second and one more run, whose result is the
    result; the task is then marked done with the URL of the second run when
    it succeeds and marked error when it fails too.  A first success is
    not retried.  The generation runs at most twice. *)
Theorem generateWithRetry_retries_once (file : File) (prompt : string)
    (log : list Event) :
  let first := styled file prompt log in
  let second := styled file prompt (first.2 ++ [EvSleep 1000]) in
  let out := withRetry file prompt 1 log in
  (forall u, first.1 = inr u ->
     out = first /\ sleeps out.2 = sleeps log
     /\ reads out.2 = reads log ++ [file])
  /\ (forall e, first.1 = inl e ->
        out = second /\ sleeps out.2 = sleeps log ++ [1000%Z]
        /\ reads out.2 = reads log ++ [file; file])
  /\ (forall e u, first.1 = inl e -> second.1 = inr u ->
        settledImage out.1 = doneImage u)
  /\ (forall e1 e2, first.1 = inl e1 -> second.1 = inl e2 ->
        settledImage out.1
        = errorImage (if isError e2 then message e2
                      else "An unknown error occurred."))
  /\ length (reads out.2) <= length (reads log) + 2
  /\ length (sleeps out.2) <= length (sleeps log) + 1.
Proof.
  intros first second out.
  assert (Hout : out = match first with
                       | (inr u, l) => (inr u, l)
                       | (inl _, l) => second
                       end).
  { unfold out, second, first. rewrite generateWithRetry_S.
    destruct (styled file prompt log) as [[e|u] l]; [|reflexivity].
    apply generateWithRetry_0. }
  destruct (generateStyledImage_log file prompt log) as [Hr1 Hs1].
  destruct (generateStyledImage_log file prompt (first.2 ++ [EvSleep 1000]))
    as [Hr2 Hs2].
  fold first in Hr1, Hs1. fold second in Hr2, Hs2.
  rewrite reads_app, Hr1 in Hr2. rewrite sleeps_app, Hs1 in Hs2.
  simpl in Hr2, Hs2. rewrite app_nil_r, <- app_assoc in Hr2. simpl in Hr2.
  clearbody out first. subst out.
  destruct first as [[e|u] l]; simpl in *.
  - split; [intros u Hu; discriminate|].
    split; [intros e' _; repeat split; assumption|].
    split; [intros e' u _ Hu; rewrite Hu; reflexivity|].
    split; [intros e1 e2 _ He2; rewrite He2; reflexivity|].
    rewrite Hr2, Hs2, !length_app. simpl. lia.
  - split; [intros u' _; repeat split; assumption|].
    split; [intros e He; discriminate|].
    split; [intros e u' He; discriminate|].
    split; [intros e1 e2 He; discriminate|].
    rewrite Hr1, Hs1, !length_app. simpl. lia.
Qed.

End ServiceLayer.

Lemma fallback_prompt_policy_witness :
  Samples.pngReader Samples.photo = inr (Service.mkInline "image/png" "AAAA")
  /\ Service.modelCalls
       (Service.generateFilteredImage Samples.textOnlySdk Samples.pngReader
          Samples.plainMessage Samples.photo "sepia" []).2
     = [([Service.imagePartOf (Service.mkInline "image/png" "AAAA");
          Service.textPart "Apply this filter: sepia"], "滤镜");
        ([Service.imagePartOf (Service.mkInline "image/png" "AAAA");
          Service.textPart "sepia"], "滤镜 (fallback)")].
Proof.
  split; [reflexivity|].
  pose proof (proj1 (fallback_prompt_policy Samples.textOnlySdk
                       Samples.pngReader Samples.plainMessage)
                Samples.photo "sepia" []
                (Service.mkInline "image/png" "AAAA") eq_refl) as [H _].
  destruct H as [_ H]. exact H.
Defined.

(** C9 as stated fails for [generateDecadeImage]: with a prompt that holds
    no decade, a first call that fails with the text-instead-of-image
    condition is not followed by a second call; the error is thrown on. *)
Lemma generateDecadeImage_no_fallback_without_decade :
  let imageDataUrl := "data:image/png;base64,QUJD" in
  let prompt := "Make the person look older." in
  let image := Service.imagePartOf (Service.mkInline "image/png" "QUJD") in
  let first := Service.callImageEditingModel Samples.textOnlySdk
                 Samples.plainMessage [image; Service.textPart prompt]
                 "生成 null 图像" [] in
  let out := Service.generateDecadeImage Samples.textOnlySdk
               Samples.plainMessage imageDataUrl prompt [] in
  (exists e, first.1 = inl e /\ Service.respondedWithText e = true
             /\ out.1 = inl e)
  /\ Service.modelCalls out.2 = [([image; Service.textPart prompt], "生成 null 图像")]
  /\ forall fallback : list Service.Part * string,
       ~ Service.fallbackPolicy Samples.textOnlySdk Samples.plainMessage out []
           ([image; Service.textPart prompt], "生成 null 图像") fallback true.
Proof.
  intros imageDataUrl prompt image first out.
  split; [|split].
  - eexists. split; [vm_compute; reflexivity|]. split; vm_compute; reflexivity.
  - vm_compute. reflexivity.
  - intros fallback [_ Hcalls].
    apply (f_equal length) in Hcalls. vm_compute in Hcalls. discriminate.
Qed.

Lemma generateWithRetry_retries_once_witness :
  let first := Service.generateStyledImage Samples.flakySdk Samples.pngReader
                 Samples.plainMessage Samples.photo "anime" [] in
  let out := Service.generateWithRetry Samples.flakySdk Samples.pngReader
               Samples.plainMessage Samples.photo "anime" 1 [] in
  first.1 = inl (newError (Samples.plainMessage (newError "failed to fetch")
                             "应用风格"))
  /\ settledImage out.1 = doneImage "data:image/png;base64,QUJD".
Proof.
  intros first out. split; [vm_compute; reflexivity|].
  pose proof (generateWithRetry_retries_once Samples.flakySdk
                Samples.pngReader Samples.plainMessage Samples.photo "anime" [])
    as (_ & _ & H & _).
  eapply H; vm_compute; reflexivity.
Defined.

(** With a remote side that is down, both runs fail: two reads of the file,
    one sleep, and the task is marked error with the message of the second
    failure. *)
Example generateWithRetry_both_fail :
  let out := Service.generateWithRetry Samples.downSdk Samples.pngReader
               Samples.plainMessage Samples.photo "anime" 1 [] in
  settledImage out.1
  = errorImage (Samples.plainMessage (newError "failed to fetch") "应用风格")
  /\ Service.reads out.2 = [Samples.photo; Samples.photo]
  /\ Service.sleeps out.2 = [1000%Z]
  /\ length (Service.modelCalls out.2) = 2.
Proof. vm_compute. repeat split. Qed.

(** ** The worker pool of PastForwardPage *)

Section PastForwardPool.

Import PastForward.

Local Abbreviation photo := Samples.photoUrl.
Local Abbreviation ok := Samples.answered.

(** C1. Right after the click, with [concurrencyLimit = 2], four
    generations are in flight: the two issued by
    [Array(2).fill(null).map(processQueue)] and the two issued by the
    worker loops. *)
Theorem handleGenerateClick_four_in_flight :
  let p := handleGenerateClick photo uploadedPage in
  concurrencyLimit = 2
  /\ inFlight p = [("1950s", false); ("1960s", false);
                   ("1970s", true); ("1980s", true)]
  /\ length (inFlight p) = 4
  /\ decadesQueue p = ["1990s"; "2000s"]
  /\ appState p = generating.
Proof. vm_compute. repeat split. Qed.

(** C2. When the four generations awaited by the worker loops have settled,
    the handler sets [results-shown] although the first two decades, which
    no loop awaits, are still pending. *)
Theorem handleGenerateClick_finishes_with_pending :
  let answers := [ok "1970s"; ok "1980s"; ok "1990s"; ok "2000s"] in
  exists p,
    settle_all photo answers (handleGenerateClick photo uploadedPage) = Some p
    /\ appState p = results_shown
    /\ isLoading p = false
    /\ generatedImages p !! "1950s" = Some pendingImage
    /\ generatedImages p !! "1960s" = Some pendingImage
    /\ inFlight p = [("1950s", false); ("1960s", false)]
    /\ dispatched p = DECADES
    /\ isGenerationComplete p = false.
Proof. eexists. vm_compute. repeat split. Qed.

End PastForwardPool.

(** ** BeatSyncPage: the effect on a finished batch *)

Section BeatSyncBatch.

Import BeatSync.

Lemma filter_successful (values : list GeneratedImage) :
  Forall settledEntry values ->
  List.filter successful values = List.filter isDone values.
Proof.
  induction 1 as [|img l Himg _ IH]; [reflexivity|].
  simpl. rewrite IH. unfold successful, isDone.
  destruct Himg as [He|[Hd Hu]].
  - rewrite !bool_decide_eq_false_2 by (rewrite He; discriminate). reflexivity.
  - rewrite Hu, andb_true_r. reflexivity.
Qed.

Lemma forallb_not_pending (values : list GeneratedImage) :
  Forall settledEntry values ->
  forallb (fun img => negb (bool_decide (status img = status_pending))) values
  = true.
Proof.
  induction 1 as [|img l Himg _ IH]; [reflexivity|].
  simpl. rewrite IH, andb_true_r.
  destruct Himg as [He|[Hd _]];
    rewrite bool_decide_eq_false_2; try reflexivity;
    [rewrite He|rewrite Hd]; discriminate.
Qed.

Lemma filter_isDone_none (values : list GeneratedImage) :
  Forall (fun img => status img = status_error) values ->
  List.filter isDone values = [].
Proof.
  induction 1 as [|img l Himg _ IH]; [reflexivity|].
  simpl. unfold isDone at 1.
  rewrite bool_decide_eq_false_2 by (rewrite Himg; discriminate). exact IH.
Qed.

Lemma filter_isDone_some (values : list GeneratedImage) :
  Exists (fun img => status img = status_done) values ->
  0 < length (List.filter isDone values).
Proof.
  induction 1 as [img l Himg|img l _ IH]; simpl.
  - unfold isDone at 1. rewrite bool_decide_eq_true_2 by exact Himg.
    simpl. lia.
  - destruct (isDone img); simpl; lia.
Qed.

Lemma filter_length_forallb {A : Type} (f : A -> bool) (l : list A) :
  (length (List.filter f l) <? length l)%nat = negb (forallb f l).
Proof.
  induction l as [|a l IH]; [reflexivity|].
  pose proof (List.filter_length_le f l) as Hle.
  simpl. destruct (f a); simpl.
  - exact IH.
  - apply Nat.ltb_lt. lia.
Qed.

Lemma omap_url_length (values : list GeneratedImage) :
  Forall settledEntry values ->
  length (omap url (List.filter isDone values))
  = length (List.filter isDone values).
Proof.
  induction 1 as [|img l Himg _ IH]; [reflexivity|].
  simpl. destruct (isDone img) eqn:Hdone; simpl; [|exact IH].
  apply bool_decide_eq_true in Hdone.
  destruct Himg as [He|[_ Hu]]; [congruence|].
  destruct (url img) as [u|]; [|discriminate]. simpl. f_equal. exact IH.
Qed.

Lemma Run_eta (p : Run) :
  p = mkRun (appState p) (error p) (notification p) (videoUrl p)
        (generatedImages p) (promptsQueue p) (inFlight p) (dispatched p)
        (workersReturned p).
Proof. destruct p; reflexivity. Qed.

(** The effect on a finished batch, in terms of the setters it calls. *)
Lemma batchEffect_finished (imageCount : nat) (p : Run) :
  appState p = generating_images ->
  let values := Object_values (generatedImages p) in
  length values = imageCount -> 0 < imageCount ->
  Forall settledEntry values ->
  batchEffect imageCount p
  = let successfulImages := List.filter isDone values in
    if (length successfulImages =? 0)%nat
    then (setAppState app_error
            (BeatSync.setError (Some "所有图片生成失败，请重试。") p), None)
    else (if forallb isDone values then p
          else setNotification
                 (Some "部分图片生成失败，但我们将用成功的图片创建视频。") p,
          Some (omap url successfulImages)).
Proof.
  intros Hstate values Hlen Hpos Hsettled.
  unfold batchEffect. fold values.
  rewrite (bool_decide_eq_true_2 _ Hstate). simpl.
  destruct (Nat.eqb_spec (length values) 0) as [H0|_]; [lia|].
  rewrite (proj2 (Nat.eqb_eq _ _) Hlen). simpl.
  rewrite forallb_not_pending by exact Hsettled.
  rewrite filter_successful by exact Hsettled.
  destruct (length (List.filter isDone values) =? 0)%nat; [reflexivity|].
  rewrite <- Hlen, filter_length_forallb.
  destruct (forallb isDone values); reflexivity.
Qed.

(** C6. On a finished batch (every entry of [generatedImages] terminal):
    when every entry is an error the effect leaves the error state, with
    [appState] set to error and [error] to the total-failure message, calls
    no [createVideo], and does nothing when it runs again on that state;
    when some entry is done it calls [createVideo] with the URLs of exactly
    the done entries, in the order of their indices, having set
    [notification] to the partial-failure notice exactly when some entry is
    not done, and [createVideo] sets [appState] to generating-video before
    the effect returns.  In both cases every other cell of the store is
    as before. *)
Theorem batchEffect_aggregates (imageCount : nat) (p : Run) :
  appState p = generating_images ->
  let values := Object_values (generatedImages p) in
  length values = imageCount -> 0 < imageCount ->
  Forall settledEntry values ->
  (Forall (fun img => status img = status_error) values ->
     let failed :=
       mkRun app_error (Some "所有图片生成失败，请重试。") (notification p)
         (videoUrl p) (generatedImages p) (promptsQueue p) (inFlight p)
         (dispatched p) (workersReturned p) in
     batchEffect imageCount p = (failed, None)
     /\ BeatSyncVideo.batchEffect_pass imageCount p = failed
     /\ batchEffect imageCount failed = (failed, None))
  /\ (Exists (fun img => status img = status_done) values ->
        let urls := omap url (List.filter isDone values) in
        let notice :=
          if forallb isDone values then notification p
          else Some "部分图片生成失败，但我们将用成功的图片创建视频。" in
        batchEffect imageCount p
        = (mkRun (appState p) (error p) notice (videoUrl p)
             (generatedImages p) (promptsQueue p) (inFlight p)
             (dispatched p) (workersReturned p),
           Some urls)
        /\ BeatSyncVideo.batchEffect_pass imageCount p
           = mkRun generating_video (error p) notice (videoUrl p)
               (generatedImages p) (promptsQueue p) (inFlight p)
               (dispatched p) (workersReturned p)
        /\ length urls = length (List.filter isDone values)
        /\ 0 < length urls).
Proof.
  intros Hstate values Hlen Hpos Hsettled.
  pose proof (batchEffect_finished imageCount p Hstate Hlen Hpos Hsettled)
    as Hstep.
  fold values in Hstep. cbv zeta in Hstep.
  split.
  - intros Hall failed.
    rewrite (filter_isDone_none values Hall) in Hstep. simpl in Hstep.
    assert (Heq : batchEffect imageCount p = (failed, None)).
    { rewrite Hstep. reflexivity. }
    split; [exact Heq|]. split.
    + unfold BeatSyncVideo.batchEffect_pass. rewrite Heq. reflexivity.
    + reflexivity.
  - intros Hsome urls notice.
    pose proof (filter_isDone_some values Hsome) as Hn.
    pose proof (omap_url_length values Hsettled) as Hu. fold urls in Hu.
    destruct (Nat.eqb_spec (length (List.filter isDone values)) 0) as [H0|_];
      [lia|].
    assert (Heq : batchEffect imageCount p
                  = (mkRun (appState p) (error p) notice (videoUrl p)
                       (generatedImages p) (promptsQueue p) (inFlight p)
                       (dispatched p) (workersReturned p), Some urls)).
    { rewrite Hstep. unfold notice.
      destruct (forallb isDone values); [|reflexivity].
      f_equal. apply Run_eta. }
    split; [exact Heq|]. split; [|split; [exact Hu|lia]].
    unfold BeatSyncVideo.batchEffect_pass. rewrite Heq.
    unfold BeatSyncVideo.createVideo_start.
    destruct (Nat.eqb_spec (length urls) 0) as [E|_]; [lia|reflexivity].
Qed.

End BeatSyncBatch.

Lemma batchEffect_aggregates_witness :
  let images : gmap nat GeneratedImage :=
    <[0 := doneImage "data:image/png;base64,QQ=="]>
      (<[1 := errorImage "quota exceeded"]>
         (<[2 := doneImage "data:image/png;base64,Qg=="]>
            (<[3 := doneImage "data:image/png;base64,Qw=="]>
               (<[4 := doneImage "data:image/png;base64,RA=="]> ∅)))) in
  let p := BeatSync.mkRun BeatSync.generating_images None None None images
             [] [] [] 3 in
  BeatSync.batchEffect 5 p
  = (BeatSync.mkRun BeatSync.generating_images None
       (Some "部分图片生成失败，但我们将用成功的图片创建视频。") None images
       [] [] [] 3,
     Some ["data:image/png;base64,QQ=="; "data:image/png;base64,Qg==";
           "data:image/png;base64,Qw=="; "data:image/png;base64,RA=="])
  /\ BeatSyncVideo.batchEffect_pass 5 p
     = BeatSync.mkRun BeatSync.generating_video None
         (Some "部分图片生成失败，但我们将用成功的图片创建视频。") None images
         [] [] [] 3.
Proof.
  intros images p.
  assert (Hsettled : Forall BeatSync.settledEntry
                       (BeatSync.Object_values (BeatSync.generatedImages p))).
  { vm_compute.
    repeat (apply List.Forall_cons;
            [first [left; reflexivity|right; split; reflexivity]|]).
    apply List.Forall_nil. }
  pose proof (batchEffect_aggregates 5 p eq_refl eq_refl ltac:(lia) Hsettled)
    as [_ H].
  assert (Hsome : Exists (fun img => status img = status_done)
                    (BeatSync.Object_values (BeatSync.generatedImages p))).
  { vm_compute. apply Exists_cons_hd. reflexivity. }
  split; [exact (proj1 (H Hsome))|exact (proj1 (proj2 (H Hsome)))].
Defined.

(** ** BeatSyncPage: the worker pool *)

Section BeatSyncPool.

Import BeatSync.

Lemma terminal_settledImage (awaited : Thrown + string) :
  terminal (settledImage awaited) = true.
Proof. destruct awaited; reflexivity. Qed.

Lemma filter_index_absent (l : list (nat * string)) (i : nat) :
  i ∉ l.*1 -> filter (fun task => task.1 ≠ i) l = l.
Proof.
  induction l as [|a l IH]; intros Hi; [reflexivity|].
  rewrite fmap_cons, not_elem_of_cons in Hi. destruct Hi as [Hne Hi].
  rewrite filter_cons_True by (intros E; apply Hne; symmetry; exact E).
  rewrite IH by exact Hi. reflexivity.
Qed.

Lemma filter_index_length (l : list (nat * string)) (i : nat) :
  NoDup l.*1 -> i ∈ l.*1 ->
  S (length (filter (fun task => task.1 ≠ i) l)) = length l.
Proof.
  induction l as [|a l IH]; intros Hnd Hi.
  - apply elem_of_nil in Hi. destruct Hi.
  - rewrite fmap_cons in Hnd, Hi. apply NoDup_cons in Hnd as [Ha Hnd].
    apply elem_of_cons in Hi as [Hi|Hi].
    + rewrite filter_cons_False by (intros E; apply E; symmetry; exact Hi).
      rewrite filter_index_absent by (rewrite Hi; exact Ha). reflexivity.
    + rewrite filter_cons_True by (intros E; apply Ha; rewrite E; exact Hi).
      simpl. rewrite IH by assumption. reflexivity.
Qed.

Lemma elem_of_filter_index (l : list (nat * string)) (i j : nat) :
  j ≠ i -> j ∈ l.*1 -> j ∈ (filter (fun task => task.1 ≠ i) l).*1.
Proof.
  intros Hne Hj. apply list_elem_of_fmap in Hj as (t & -> & Ht).
  apply list_elem_of_fmap. exists t. split; [reflexivity|].
  apply list_elem_of_filter. split; [exact Hne|exact Ht].
Qed.

Lemma NoDup_filter_index (q l : list (nat * string)) (i : nat) :
  NoDup (q ++ l).*1 -> NoDup (q ++ filter (fun task => task.1 ≠ i) l).*1.
Proof.
  intros H. eapply sublist_NoDup; [exact H|].
  apply fmap_sublist, sublist_app; [reflexivity|apply sublist_filter].
Qed.

(** Starting one more worker, or letting a worker go round its loop. *)
Lemma worker_loop_inv (started : nat) (tasks : list (nat * string)) (p : Run) :
  pool_inv started tasks p -> pool_inv (S started) tasks (worker_loop p).
Proof.
  intros [Ht Hw Hd Hn Hs]. unfold worker_loop, processQueue_start.
  destruct (promptsQueue p) as [|task rest] eqn:Hq; simpl.
  - constructor; simpl; rewrite ?Hq; try assumption; try lia.
    intros _. reflexivity.
  - constructor; simpl.
    + rewrite <- app_assoc. exact Ht.
    + rewrite length_app. simpl. lia.
    + intros Hpos. specialize (Hd Hpos). discriminate.
    + eapply NoDup_Permutation_proper; [|exact Hn].
      apply fmap_Permutation.
      rewrite app_assoc, <- Permutation_cons_append. reflexivity.
    + intros i img Hi. destruct (Hs i img Hi) as [Hterm|Hin]; [left; exact Hterm|].
      right. rewrite fmap_app, elem_of_app in Hin.
      rewrite !fmap_app, !elem_of_app. rewrite fmap_cons, elem_of_cons in Hin.
      simpl. rewrite list_elem_of_singleton. tauto.
Qed.

(** A settlement keeps the invariant. *)
Lemma settle_inv (started : nat) (tasks : list (nat * string)) (p p' : Run)
    (index : nat) (awaited : Thrown + string) :
  pool_inv started tasks p -> settle index awaited p = Some p' ->
  pool_inv started tasks p'.
Proof.
  intros [Ht Hw Hd Hn Hs] Hsettle. unfold settle in Hsettle.
  destruct (bool_decide (index ∈ (inFlight p).*1)) eqn:Hin; [|discriminate].
  apply bool_decide_eq_true in Hin. injection Hsettle as <-.
  assert (Hnf : NoDup (inFlight p).*1).
  { rewrite fmap_app in Hn. apply NoDup_app in Hn. tauto. }
  pose proof (filter_index_length (inFlight p) index Hnf Hin) as Hlen.
  destruct started as [|started]; [lia|].
  apply worker_loop_inv. constructor; simpl.
  - exact Ht.
  - lia.
  - exact Hd.
  - apply NoDup_filter_index, Hn.
  - intros i img. destruct (decide (i = index)) as [->|Hne].
    + rewrite lookup_insert_eq. intros [= <-]. left.
      apply terminal_settledImage.
    + rewrite lookup_insert_ne by congruence. intros Hi.
      destruct (Hs i img Hi) as [Hterm|Hq]; [left; exact Hterm|]. right.
      rewrite fmap_app, elem_of_app in Hq. rewrite fmap_app, elem_of_app.
      destruct Hq as [Hq|Hq]; [left; exact Hq|right].
      apply elem_of_filter_index; assumption.
Qed.

Lemma settle_all_inv (started : nat) (tasks : list (nat * string))
    (answers : list (nat * (Thrown + string))) (p p' : Run) :
  pool_inv started tasks p -> settle_all answers p = Some p' ->
  pool_inv started tasks p'.
Proof.
  revert p. induction answers as [|[index awaited] answers IH];
    intros p Hinv Hrun; simpl in Hrun.
  - injection Hrun as <-. exact Hinv.
  - destruct (settle index awaited p) as [p1|] eqn:Hsettle; [|discriminate].
    apply (IH p1); [|exact Hrun].
    eapply settle_inv; [exact Hinv|exact Hsettle].
Qed.

Lemma imap_index_keys (prompts : list string) (k : nat) :
  (imap (fun index prompt => (k + index, prompt)) prompts).*1
  = seq k (length prompts).
Proof.
  revert k. induction prompts as [|a l IH]; intros k; [reflexivity|].
  simpl. rewrite Nat.add_0_r. f_equal.
  rewrite <- (IH (S k)). f_equal. apply imap_ext. intros i x _. simpl.
  f_equal. lia.
Qed.

Lemma initialImages_lookup (n i : nat) (img : GeneratedImage)
    (m : gmap nat GeneratedImage) :
  foldl (fun m i => <[i := pendingImage]> m) m (seq 0 n) !! i = Some img ->
  m !! i = Some img \/ i < n.
Proof.
  induction n as [|n IH] in m |- *.
  - simpl. intros H. left. exact H.
  - rewrite seq_S, foldl_app. simpl.
    destruct (decide (n = i)) as [->|Hne].
    + intros _. right. lia.
    + rewrite lookup_insert_ne by exact Hne. intros H.
      destruct (IH m H) as [Hm|Hlt]; [left; exact Hm|right; lia].
Qed.

(** The invariant holds when [handleGenerate] reaches its [await]. *)
Lemma handleGenerate_inv (file : File) (imageCount : nat)
    (stylePrompts : list string) (p0 : Run) :
  imageCount <= length stylePrompts ->
  pool_inv concurrencyLimit
    (imap (fun index prompt => (index, prompt)) stylePrompts)
    (handleGenerate (Some file) imageCount stylePrompts p0).
Proof.
  intros Hcount. unfold handleGenerate, concurrencyLimit. simpl.
  do 3 apply worker_loop_inv.
  pose proof (imap_index_keys stylePrompts 0) as Hkeys. simpl in Hkeys.
  constructor; simpl.
  - reflexivity.
  - reflexivity.
  - lia.
  - rewrite app_nil_r, Hkeys. apply NoDup_seq.
  - intros i img Hi. right. rewrite app_nil_r, Hkeys.
    apply initialImages_lookup in Hi as [Hi|Hi].
    + rewrite lookup_empty in Hi. discriminate.
    + apply elem_of_seq. lia.
Qed.

(** The pool of BeatSyncPage keeps to its limit: at most three generations
    are in flight, whatever the order in which they settle. *)
Lemma handleGenerate_within_limit (file : File) (imageCount : nat)
    (stylePrompts : list string) (p0 p : Run)
    (answers : list (nat * (Thrown + string))) :
  imageCount <= length stylePrompts ->
  settle_all answers (handleGenerate (Some file) imageCount stylePrompts p0)
  = Some p ->
  length (inFlight p) <= concurrencyLimit.
Proof.
  intros Hcount Hrun.
  pose proof (settle_all_inv _ _ _ _ _
                (handleGenerate_inv file imageCount stylePrompts p0 Hcount)
                Hrun) as [_ Hw _ _ _].
  lia.
Qed.

(** When [handleGenerate] returns, nothing is queued or in flight, every
    prompt was taken off the queue once, in order, and every entry of
    [generatedImages] is terminal. *)
Lemma handleGenerate_returned (file : File) (imageCount : nat)
    (stylePrompts : list string) (p0 p : Run)
    (answers : list (nat * (Thrown + string))) :
  imageCount <= length stylePrompts ->
  settle_all answers (handleGenerate (Some file) imageCount stylePrompts p0)
  = Some p ->
  returned p = true ->
  promptsQueue p = [] /\ inFlight p = []
  /\ dispatched p = imap (fun index prompt => (index, prompt)) stylePrompts
  /\ forall i img, generatedImages p !! i = Some img -> terminal img = true.
Proof.
  intros Hcount Hrun Hret.
  pose proof (settle_all_inv _ _ _ _ _
                (handleGenerate_inv file imageCount stylePrompts p0 Hcount)
                Hrun) as [Ht Hw Hd _ Hs].
  unfold returned in Hret. apply Nat.eqb_eq in Hret.
  assert (Hq : promptsQueue p = []).
  { apply Hd. rewrite Hret. unfold concurrencyLimit. lia. }
  assert (Hf : inFlight p = []).
  { apply length_zero_iff_nil. lia. }
  split; [exact Hq|]. split; [exact Hf|]. split.
  - rewrite Hq, app_nil_r in Ht. exact Ht.
  - intros i img Hi. destruct (Hs i img Hi) as [Hterm|Hin]; [exact Hterm|].
    rewrite Hq, Hf in Hin. simpl in Hin. apply elem_of_nil in Hin.
    destruct Hin.
Qed.

End BeatSyncPool.

(** ** BeatSyncPage: a run hands the effect a finished batch *)

Section BeatSyncRun.

Import BeatSync.

Lemma queue_keys (stylePrompts : list string) :
  (imap (fun index prompt => (index, prompt)) stylePrompts).*1
  = seq 0 (length stylePrompts).
Proof. exact (imap_index_keys stylePrompts 0). Qed.

Lemma worker_loop_batch_inv (imageCount started : nat)
    (tasks : list (nat * string)) (p : Run) :
  pool_inv started tasks p -> batch_inv imageCount tasks p ->
  batch_inv imageCount tasks (worker_loop p).
Proof.
  intros [Ht _ _ _ _] [Hst Hfl Hk He]. unfold worker_loop, processQueue_start.
  destruct (promptsQueue p) as [|task rest] eqn:Hq; simpl.
  - constructor; simpl; assumption.
  - constructor; simpl; try assumption.
    intros t Hin. apply elem_of_app in Hin as [Hin|Hin]; [apply Hfl, Hin|].
    apply list_elem_of_singleton in Hin as ->.
    rewrite <- Ht. apply elem_of_app. right. apply elem_of_cons. left.
    reflexivity.
Qed.

Lemma settledImage_entry (index : nat) (awaited : Thrown + string) :
  deliverable (index, awaited) -> settledEntry (settledImage awaited).
Proof.
  intros Hurl. destruct awaited as [e|u]; simpl.
  - left. reflexivity.
  - right. split; [reflexivity|]. apply Hurl. reflexivity.
Qed.

Lemma settle_batch_inv (started : nat) (stylePrompts : list string)
    (p p' : Run) (index : nat) (awaited : Thrown + string) :
  let tasks := imap (fun index prompt => (index, prompt)) stylePrompts in
  pool_inv started tasks p -> batch_inv (length stylePrompts) tasks p ->
  deliverable (index, awaited) ->
  settle index awaited p = Some p' ->
  batch_inv (length stylePrompts) tasks p'.
Proof.
  intros tasks Hpool Hbatch Hurl Hsettle.
  pose proof Hpool as [Ht Hw Hd Hn Hs]. pose proof Hbatch as [Hst Hfl Hk He].
  unfold settle in Hsettle.
  destruct (bool_decide (index ∈ (inFlight p).*1)) eqn:Hin; [|discriminate].
  apply bool_decide_eq_true in Hin.
  assert (Hindex : index < length stylePrompts).
  { apply list_elem_of_fmap in Hin as (t & -> & Hin). apply Hfl in Hin.
    apply (list_elem_of_fmap_2 fst) in Hin. unfold tasks in Hin.
    rewrite queue_keys in Hin.
    apply elem_of_seq in Hin. lia. }
  assert (Hnf : NoDup (inFlight p).*1).
  { rewrite fmap_app in Hn. apply NoDup_app in Hn. tauto. }
  pose proof (filter_index_length (inFlight p) index Hnf Hin) as Hlen.
  destruct started as [|started]; [lia|].
  injection Hsettle as <-.
  eapply (worker_loop_batch_inv _ started).
  - constructor; simpl.
    + exact Ht.
    + lia.
    + exact Hd.
    + apply NoDup_filter_index, Hn.
    + intros i img. destruct (decide (i = index)) as [->|Hne].
      * rewrite lookup_insert_eq. intros [= <-]. left.
        apply terminal_settledImage.
      * rewrite lookup_insert_ne by congruence. intros Hi.
        destruct (Hs i img Hi) as [Hterm|Hq]; [left; exact Hterm|]. right.
        rewrite fmap_app, elem_of_app in Hq. rewrite fmap_app, elem_of_app.
        destruct Hq as [Hq|Hq]; [left; exact Hq|right].
        apply elem_of_filter_index; assumption.
  - constructor; simpl.
    + exact Hst.
    + intros t Ht'. apply list_elem_of_filter in Ht' as [_ Ht'].
      apply Hfl, Ht'.
    + intros i. destruct (decide (i = index)) as [->|Hne].
      * rewrite lookup_insert_eq. split; [intros _; exact Hindex|eauto].
      * rewrite lookup_insert_ne by congruence. apply Hk.
    + intros i img. destruct (decide (i = index)) as [->|Hne].
      * rewrite lookup_insert_eq. intros [= <-]. right.
        apply (settledImage_entry index), Hurl.
      * rewrite lookup_insert_ne by congruence. apply He.
Qed.

Lemma settle_all_batch_inv (started : nat) (stylePrompts : list string)
    (answers : list (nat * (Thrown + string))) (p p' : Run) :
  let tasks := imap (fun index prompt => (index, prompt)) stylePrompts in
  pool_inv started tasks p -> batch_inv (length stylePrompts) tasks p ->
  Forall deliverable answers ->
  settle_all answers p = Some p' ->
  batch_inv (length stylePrompts) tasks p'.
Proof.
  intros tasks. revert p.
  induction answers as [|[index awaited] answers IH];
    intros p Hpool Hbatch Hurls Hrun; simpl in Hrun.
  - injection Hrun as <-. exact Hbatch.
  - destruct (settle index awaited p) as [p1|] eqn:Hsettle; [|discriminate].
    apply Forall_cons in Hurls as [Hurl Hurls].
    apply (IH p1); [| |exact Hurls|exact Hrun].
    + eapply settle_inv; [exact Hpool|exact Hsettle].
    + eapply settle_batch_inv; eassumption.
Qed.

Lemma initialImages_keys (n i : nat) :
  foldl (fun m i => <[i := pendingImage]> m) (∅ : gmap nat GeneratedImage)
    (seq 0 n) !! i
  = if decide (i < n) then Some pendingImage else None.
Proof.
  induction n as [|n IH].
  - simpl. rewrite lookup_empty. destruct (decide (i < 0)); [lia|reflexivity].
  - rewrite seq_S, foldl_app. simpl.
    destruct (decide (n = i)) as [->|Hne].
    + rewrite lookup_insert_eq. destruct (decide (i < S i)); [reflexivity|lia].
    + rewrite lookup_insert_ne by exact Hne. rewrite IH.
      destruct (decide (i < n)), (decide (i < S n)); try reflexivity; lia.
Qed.

Lemma handleGenerate_batch_inv (file : File) (stylePrompts : list string)
    (p0 : Run) :
  batch_inv (length stylePrompts)
    (imap (fun index prompt => (index, prompt)) stylePrompts)
    (handleGenerate (Some file) (length stylePrompts) stylePrompts p0).
Proof.
  pose proof (handleGenerate_inv file (length stylePrompts) stylePrompts p0
                (Nat.le_refl _)) as Hpool.
  unfold handleGenerate, concurrencyLimit in *. simpl in *.
  set (tasks := imap (fun index prompt => (index, prompt)) stylePrompts) in *.
  set (start := mkRun generating_images None None None _ tasks [] [] 0) in *.
  assert (Hp0 : pool_inv 0 tasks start).
  { pose proof (queue_keys stylePrompts) as Hkeys.
    constructor; simpl; try reflexivity; try lia.
    - rewrite app_nil_r. unfold tasks. rewrite Hkeys. apply NoDup_seq.
    - intros i img Hi. right. rewrite app_nil_r. unfold tasks. rewrite Hkeys.
      rewrite initialImages_keys in Hi.
      destruct (decide (i < length stylePrompts)); [|discriminate].
      apply elem_of_seq. lia. }
  assert (Hb0 : batch_inv (length stylePrompts) tasks start).
  { constructor; simpl.
    - reflexivity.
    - intros t Ht. apply elem_of_nil in Ht. destruct Ht.
    - intros i. rewrite initialImages_keys.
      destruct (decide (i < length stylePrompts)).
      + split; [intros _; assumption|eauto].
      + split; [intros [x Hx]; discriminate|intros; lia].
    - intros i img. rewrite initialImages_keys.
      destruct (decide (i < length stylePrompts)); [|discriminate].
      intros [= <-]. left. reflexivity. }
  pose proof (worker_loop_inv _ _ _ Hp0) as Hp1.
  pose proof (worker_loop_batch_inv _ _ _ _ Hp0 Hb0) as Hb1.
  pose proof (worker_loop_inv _ _ _ Hp1) as Hp2.
  pose proof (worker_loop_batch_inv _ _ _ _ Hp1 Hb1) as Hb2.
  exact (worker_loop_batch_inv _ _ _ _ Hp2 Hb2).
Qed.

Lemma Object_values_length (m : gmap nat GeneratedImage) :
  length (Object_values m) = size m.
Proof.
  unfold Object_values. rewrite length_fmap.
  rewrite (Permutation_length (merge_sort_Permutation key_le (map_to_list m))).
  apply length_map_to_list.
Qed.

Lemma Object_values_lookup (m : gmap nat GeneratedImage)
    (img : GeneratedImage) :
  img ∈ Object_values m -> exists i, m !! i = Some img.
Proof.
  unfold Object_values. intros Hin.
  apply list_elem_of_fmap in Hin as ([i x] & -> & Hin).
  rewrite (merge_sort_Permutation key_le (map_to_list m)) in Hin.
  apply elem_of_map_to_list in Hin. exists i. exact Hin.
Qed.

(** When [handleGenerate] has returned, the effect finds a finished batch:
    [imageCount] entries, each an error or done with a URL. *)
Lemma handleGenerate_finished_batch (file : File)
    (stylePrompts : list string) (p0 p : Run)
    (answers : list (nat * (Thrown + string))) :
  Forall deliverable answers ->
  settle_all answers
    (handleGenerate (Some file) (length stylePrompts) stylePrompts p0)
  = Some p ->
  returned p = true ->
  appState p = generating_images
  /\ length (Object_values (generatedImages p)) = length stylePrompts
  /\ Forall settledEntry (Object_values (generatedImages p)).
Proof.
  intros Hurls Hrun Hret.
  pose proof (handleGenerate_inv file (length stylePrompts) stylePrompts p0
                (Nat.le_refl _)) as Hpool.
  pose proof (settle_all_batch_inv _ _ _ _ _ Hpool
                (handleGenerate_batch_inv file stylePrompts p0) Hurls Hrun)
    as [Hst Hfl Hk He].
  destruct (handleGenerate_returned file _ stylePrompts p0 p answers
              (Nat.le_refl _) Hrun Hret) as (_ & _ & _ & Hterm).
  split; [exact Hst|]. split.
  - rewrite Object_values_length, <- size_dom.
    replace (dom (generatedImages p))
      with (set_seq 0 (length stylePrompts) : gset nat).
    + apply size_set_seq.
    + apply set_eq. intros i. rewrite elem_of_set_seq, elem_of_dom, Hk. lia.
  - apply Forall_forall. intros img Hin.
    apply Object_values_lookup in Hin as [i Hi].
    destruct (He i img Hi) as [->|Hentry]; [|exact Hentry].
    specialize (Hterm i _ Hi). discriminate.
Qed.

End BeatSyncRun.

(** ** BeatSyncPage: the run comes to an end *)

Section BeatSyncProgress.

Import BeatSync.

Lemma worker_loop_work (p : Run) :
  pending_work (worker_loop p) = pending_work p.
Proof.
  unfold pending_work, worker_loop, processQueue_start.
  destruct (promptsQueue p) as [|task rest] eqn:Hq; simpl.
  - reflexivity.
  - rewrite length_app. simpl. lia.
Qed.

(** A settlement takes one unit of work away. *)
Lemma settle_work (started : nat) (tasks : list (nat * string)) (p p' : Run)
    (index : nat) (awaited : Thrown + string) :
  pool_inv started tasks p -> settle index awaited p = Some p' ->
  S (pending_work p') = pending_work p.
Proof.
  intros [_ _ _ Hn _] Hsettle. unfold settle in Hsettle.
  destruct (bool_decide (index ∈ (inFlight p).*1)) eqn:Hin; [|discriminate].
  apply bool_decide_eq_true in Hin. injection Hsettle as <-.
  assert (Hnf : NoDup (inFlight p).*1).
  { rewrite fmap_app in Hn. apply NoDup_app in Hn. tauto. }
  pose proof (filter_index_length (inFlight p) index Hnf Hin) as Hlen.
  rewrite worker_loop_work. unfold pending_work. simpl. lia.
Qed.

(** Whatever each generation settles with, the settlements can be played
    until [handleGenerate] returns. *)
Lemma pool_runs_to_return (outcome : nat -> Thrown + string)
    (tasks : list (nat * string)) (p : Run) :
  pool_inv concurrencyLimit tasks p ->
  exists answers p',
    settle_all answers p = Some p' /\ returned p' = true
    /\ Forall (fun answer => answer.2 = outcome answer.1) answers.
Proof.
  remember (pending_work p) as n eqn:Hn.
  revert p Hn. induction n as [n IH] using lt_wf_ind. intros p Hn Hinv.
  destruct (returned p) eqn:Hret.
  - exists [], p. split; [reflexivity|]. split; [exact Hret|constructor].
  - pose proof Hinv as [_ Hw _ _ _].
    unfold returned in Hret. apply Nat.eqb_neq in Hret.
    destruct (inFlight p) as [|[index prompt] rest] eqn:Hfl;
      [simpl in Hw; lia|].
    destruct (settle index (outcome index) p) as [p1|] eqn:Hsettle.
    + pose proof (settle_work _ _ _ _ _ _ Hinv Hsettle) as Hwork.
      destruct (IH (pending_work p1) ltac:(lia) p1 eq_refl
                  (settle_inv _ _ _ _ _ _ Hinv Hsettle))
        as (answers & p' & Hrun & Hret' & Hans).
      exists ((index, outcome index) :: answers), p'.
      split; [simpl; rewrite Hsettle; exact Hrun|].
      split; [exact Hret'|]. constructor; [reflexivity|exact Hans].
    + exfalso. unfold settle in Hsettle. rewrite Hfl in Hsettle.
      rewrite bool_decide_eq_true_2 in Hsettle; [discriminate|].
      simpl. apply elem_of_cons. left. reflexivity.
Qed.

End BeatSyncProgress.

(** * Further properties *)

(** ** Undo, redo and push *)

Section UndoRedo.

Import Editor EditorActions.
Local Open Scope Z_scope.

Lemma setHistoryIndex_same (s : EditorState) (i : Z) :
  i = historyIndex s -> setHistoryIndex i s = s.
Proof. intros ->. destruct s. reflexivity. Qed.

Lemma setHistoryIndex_twice (s : EditorState) (i j : Z) :
  setHistoryIndex j (setHistoryIndex i s) = setHistoryIndex j s.
Proof. reflexivity. Qed.

(** X1. Undo and redo are inverse to each other wherever they act: redo
    after an undo that moved the cursor gives the store back, and so does
    undo after a redo that moved it. *)
Theorem undo_redo_inverse (s : EditorState) :
  history_ok s ->
  (0 < historyIndex s ->
     let u := handleUndo s s in u <> s /\ handleRedo u u = s)
  /\ (historyIndex s < Z.of_nat (length (history s)) - 1 ->
        let d := handleRedo s s in d <> s /\ handleUndo d d = s).
Proof.
  intros Hok. apply history_ok_spec in Hok. split.
  - intros Hpos. unfold handleUndo.
    destruct (Z.gtb_spec (historyIndex s) 0) as [_|Hle]; [|lia].
    split.
    + intros E. apply (f_equal historyIndex) in E. simpl in E. lia.
    + unfold handleRedo. simpl.
      destruct (Z.ltb_spec (historyIndex s - 1)
                  (Z.of_nat (length (history s)) - 1)) as [_|Hge]; [|lia].
      rewrite setHistoryIndex_twice. apply setHistoryIndex_same. lia.
  - intros Hlt. unfold handleRedo.
    destruct (Z.ltb_spec (historyIndex s) (Z.of_nat (length (history s)) - 1))
      as [_|Hge]; [|lia].
    split.
    + intros E. apply (f_equal historyIndex) in E. simpl in E. lia.
    + unfold handleUndo. simpl.
      destruct (Z.gtb_spec (historyIndex s + 1) 0) as [_|Hle]; [|lia].
      rewrite setHistoryIndex_twice. apply setHistoryIndex_same. lia.
Qed.

Lemma undo_redo_inverse_witness :
  let s := setHistoryIndex 1
             (setHistory [mkFile "a.png" 10 "image/png";
                          mkFile "b.png" 20 "image/png";
                          mkFile "c.png" 30 "image/png"] initialRender) in
  handleRedo (handleUndo s s) (handleUndo s s) = s
  /\ handleUndo (handleRedo s s) (handleRedo s s) = s.
Proof.
  intros s.
  assert (Hok : history_ok s) by (unfold history_ok; simpl; lia).
  destruct (undo_redo_inverse s Hok) as [Hu Hr].
  split.
  - apply Hu. simpl. lia.
  - apply Hr. simpl. lia.
Defined.

(** X2. A push leaves nothing to redo, from whatever render its closure
    comes; and undoing a push made on an up-to-date render of a non-empty
    history shows the entry that was current before the push. *)
Theorem push_invalidates_redo (r s : EditorState) (e : File) :
  (let p := updateHistory r e s in handleRedo p p = p)
  /\ (history_ok s -> history s <> [] ->
        let p := updateHistory s e s in
        currentImageFile (handleUndo p p) = currentImageFile s
        /\ history (handleUndo p p) = history p).
Proof.
  split.
  - intros p. unfold handleRedo.
    destruct (Z.ltb_spec (historyIndex p) (Z.of_nat (length (history p)) - 1))
      as [Hlt|_]; [|reflexivity].
    unfold p, updateHistory in Hlt. simpl in Hlt. lia.
  - intros Hok Hne. cbv zeta.
    apply history_ok_spec in Hok.
    assert (Hi : 0 <= historyIndex s < Z.of_nat (length (history s))).
    { destruct Hok as [[Hlen _]|H]; [|exact H].
      destruct (history s); [congruence|discriminate]. }
    destruct (updateHistory_writes s s e ltac:(lia)) as [Hh Hx].
    unfold handleUndo.
    destruct (Z.gtb_spec (historyIndex (updateHistory s e s)) 0) as [_|Hle];
      [|lia].
    split; [|reflexivity].
    unfold currentImageFile. cbn [setHistoryIndex history historyIndex].
    rewrite Hx, Hh.
    replace (historyIndex s + 1 - 1) with (historyIndex s) by lia.
    rewrite !js_get_lookup by lia.
    rewrite lookup_app_l by (rewrite length_take; lia).
    apply lookup_take_lt. lia.
Qed.

Lemma push_invalidates_redo_witness :
  let a := mkFile "a.png" 10 "image/png" in
  let b := mkFile "b.png" 20 "image/png" in
  let s := setHistoryIndex 0 (setHistory [a] initialRender) in
  let p := updateHistory s b s in
  currentImageFile (handleUndo p p) = Some a.
Proof.
  intros a b s p.
  assert (Hok : history_ok s) by (unfold history_ok; simpl; lia).
  exact (proj1 (proj2 (push_invalidates_redo s s b) Hok
                  ltac:(discriminate))).
Defined.

Lemma apply_op_first (s : EditorState) (op : HistoryOp) :
  history_ok s -> history s <> [] -> keeps_entries op = true ->
  history (apply_op s op) <> []
  /\ js_get (history (apply_op s op)) 0 = js_get (history s) 0.
Proof.
  intros Hok Hne Hop. apply history_ok_spec in Hok.
  assert (Hi : 0 <= historyIndex s < Z.of_nat (length (history s))).
  { destruct Hok as [[Hlen _]|H]; [|exact H].
    destruct (history s); [congruence|discriminate]. }
  destruct op; cbn [apply_op]; try discriminate.
  - destruct (updateHistory_writes s s entry ltac:(lia)) as [Hh _].
    rewrite Hh. split.
    + intros E. apply (f_equal length) in E. rewrite length_app in E.
      simpl in E. lia.
    + rewrite !js_get_lookup by lia.
      rewrite lookup_app_l by (rewrite length_take; lia).
      apply lookup_take_lt. lia.
  - unfold handleUndo. destruct (historyIndex s >? 0); split; auto.
  - unfold handleRedo.
    destruct (historyIndex s <? Z.of_nat (length (history s)) - 1);
      split; auto.
Qed.

(** X3. The original image, [history[0]], survives every sequence of
    undos, redos and pushes made on an up-to-date render of a non-empty
    history.  A push whose closure belongs to another render is not
    covered: it keeps the first entry of that render's history, and from a
    render with an empty history, as the closure of [handleFileInputChange]
    has, the pushed file becomes [history[0]]. *)
Theorem original_image_kept (ops : list HistoryOp) (s : EditorState) :
  history_ok s -> history s <> [] ->
  forallb keeps_entries ops = true ->
  let s' := run_ops ops s in
  js_get (history s') 0 = js_get (history s) 0
  /\ history s' <> []
  /\ (forall r e, history_ok r -> history r <> [] ->
        js_get (history (updateHistory r e s')) 0 = js_get (history r) 0)
  /\ (forall r e, history r = [] -> history (updateHistory r e s') = [e])
  /\ (forall file rest,
        String.prefix "image/" (file_type file) = true ->
        history (handleFileInputChange (Some (file :: rest)) s') = [file]).
Proof.
  intros Hok Hne Hops s'.
  assert (Hkept : js_get (history s') 0 = js_get (history s) 0
                  /\ history s' <> []).
  { unfold s'. clear s'. revert s Hok Hne Hops.
    induction ops as [|op ops IH]; intros s Hok Hne Hops.
    - split; [reflexivity|exact Hne].
    - simpl in Hops. apply andb_true_iff in Hops as [Hop Hops].
      destruct (apply_op_first s op Hok Hne Hop) as [Hne' Hfirst].
      destruct (IH (apply_op s op) (apply_op_ok s op Hok) Hne' Hops)
        as [H0 Hn].
      change (run_ops (op :: ops) s) with (run_ops ops (apply_op s op)).
      split; [rewrite H0; exact Hfirst|exact Hn]. }
  destruct Hkept as [H0 Hn].
  assert (Hempty : forall r e, history r = [] ->
                     history (updateHistory r e s') = [e]).
  { intros r e Hr. unfold updateHistory. simpl. rewrite Hr.
    unfold js_slice0. simpl. rewrite take_nil. reflexivity. }
  split; [exact H0|]. split; [exact Hn|]. split; [|split].
  - intros r e Hr Hrne. apply history_ok_spec in Hr.
    assert (Hi : 0 <= historyIndex r < Z.of_nat (length (history r))).
    { destruct Hr as [[Hlen _]|H]; [|exact H].
      destruct (history r); [congruence|discriminate]. }
    destruct (updateHistory_writes r s' e ltac:(lia)) as [Hh _].
    rewrite Hh. rewrite !js_get_lookup by lia.
    rewrite lookup_app_l by (rewrite length_take; lia).
    apply lookup_take_lt. lia.
  - exact Hempty.
  - intros file rest Htype. unfold handleFileInputChange. rewrite Htype.
    exact (Hempty initialRender file eq_refl).
Qed.

Lemma original_image_kept_witness :
  let a := mkFile "a.png" 10 "image/png" in
  let b := mkFile "b.png" 20 "image/png" in
  let c := mkFile "c.png" 30 "image/png" in
  let s := setHistoryIndex 0 (setHistory [a] initialRender) in
  let s' := run_ops [Push b; Undo; Push c; Redo; Undo; Undo] s in
  js_get (history s') 0 = Some a
  /\ history (handleFileInputChange (Some [c]) s') = [c].
Proof.
  intros a b c s s'.
  assert (Hok : history_ok s) by (unfold history_ok; simpl; lia).
  pose proof (original_image_kept
                [Push b; Undo; Push c; Redo; Undo; Undo] s Hok
                ltac:(discriminate) eq_refl) as (H0 & _ & _ & _ & Hreplace).
  split; [exact H0|exact (Hreplace c [] eq_refl)].
Defined.

End UndoRedo.

(** ** Generative edits, crop and generated images *)

Section EditorEdits.

Import Editor EditorActions.
Local Open Scope Z_scope.

Variable dataURLtoFile : string -> string -> Thrown + File.
Variable now : string.

Lemma history_ok_cursor (s : EditorState) :
  history_ok s -> history s <> [] ->
  0 <= historyIndex s < Z.of_nat (length (history s)).
Proof.
  intros Hok Hne. apply history_ok_spec in Hok.
  destruct Hok as [[Hlen _]|H]; [|exact H].
  destruct (history s); [congruence|discriminate].
Qed.

(** After a push made by the render [s] onto a store that records [la],
    regenerate re-issues the call of [la] on the entry that was current in
    [s]. *)
Lemma regenerateTask_after_push (s s1 : EditorState) (newFile : File)
    (la : LastAction) :
  history_ok s -> history s <> [] -> lastAction s1 = Some la ->
  regenerateTask (setIsLoading false (updateHistory s newFile s1))
  = Some match la with
         | la_retouch prompt hotspot =>
             call_generateEditedImage (currentImageFile s) prompt hotspot
         | la_adjust prompt =>
             call_generateAdjustedImage (currentImageFile s) prompt
         | la_filters prompt =>
             call_generateFilteredImage (currentImageFile s) prompt
         | la_texture prompt =>
             call_generateTexturedImage (currentImageFile s) prompt
         | la_erase => call_removeBackgroundImage (currentImageFile s)
         | la_fusion prompt sourceImages =>
             call_generateFusedImage (currentImageFile s) sourceImages prompt
         end.
Proof.
  intros Hok Hne Hla.
  pose proof (history_ok_cursor s Hok Hne) as Hi.
  destruct (updateHistory_writes s s1 newFile ltac:(lia)) as [Hh Hx].
  unfold regenerateTask.
  cbn [setIsLoading lastAction historyIndex history isLoading].
  replace (lastAction (updateHistory s newFile s1)) with (Some la)
    by (rewrite <- Hla; reflexivity).
  rewrite Hx, Hh.
  destruct (Z.ltb_spec (historyIndex s + 1) 1) as [Hlt|_]; [lia|].
  cbn [orb].
  replace (historyIndex s + 1 - 1) with (historyIndex s) by lia.
  assert (Hget : js_get (take (Z.to_nat (historyIndex s + 1)) (history s)
                         ++ [newFile]) (historyIndex s)
                 = currentImageFile s).
  { unfold currentImageFile. rewrite !js_get_lookup by lia.
    rewrite lookup_app_l by (rewrite length_take; lia).
    apply lookup_take_lt. lia. }
  rewrite Hget. destruct la; reflexivity.
Qed.

(** X4. After a generative edit has been applied on an up-to-date render
    and its single result pushed, regenerate issues the very call the edit
    made: the same service function, on the image the edit was applied to,
    with the same prompt and auxiliary inputs. *)
Theorem apply_then_regenerate (s : EditorState) (resultDataUrl : string)
    (newFile : File) :
  history_ok s -> history s <> [] ->
  dataURLtoFile resultDataUrl ("edit-" +:+ now +:+ ".png") = inr newFile ->
  let settled (s1 : EditorState) :=
    runGenerativeTask_settle dataURLtoFile now s (inr resultDataUrl) s1 in
  (forall prompt,
     let out := handleApplyFilter s prompt s in
     regenerateTask (settled out.2) = Some out.1)
  /\ (forall prompt,
        let out := handleApplyAdjustment s prompt s in
        regenerateTask (settled out.2) = Some out.1)
  /\ (forall prompt,
        let out := handleApplyTexture s prompt s in
        regenerateTask (settled out.2) = Some out.1)
  /\ (forall sourceImages prompt,
        let out := handleApplyFusion s sourceImages prompt s in
        regenerateTask (settled out.2) = Some out.1)
  /\ (let out := handleRemoveBackground s s in
      regenerateTask (settled out.2) = Some out.1)
  /\ (forall call s1,
        handleApplyRetouch s s = (Some call, s1) ->
        regenerateTask (settled s1) = Some call).
Proof.
  intros Hok Hne Hconv settled.
  assert (Hsettled : forall s1,
            regenerateTask (settled s1)
            = regenerateTask (setIsLoading false (updateHistory s newFile s1))).
  { intros s1. unfold settled, runGenerativeTask_settle.
    rewrite Hconv. reflexivity. }
  repeat split.
  - intros prompt out.
    rewrite Hsettled.
    apply (regenerateTask_after_push s _ newFile (la_filters prompt) Hok Hne).
    reflexivity.
  - intros prompt out.
    rewrite Hsettled.
    apply (regenerateTask_after_push s _ newFile (la_adjust prompt) Hok Hne).
    reflexivity.
  - intros prompt out.
    rewrite Hsettled.
    apply (regenerateTask_after_push s _ newFile (la_texture prompt) Hok Hne).
    reflexivity.
  - intros sourceImages prompt out.
    rewrite Hsettled.
    apply (regenerateTask_after_push s _ newFile
             (la_fusion prompt sourceImages) Hok Hne).
    reflexivity.
  - cbv zeta. rewrite Hsettled.
    apply (regenerateTask_after_push s _ newFile la_erase Hok Hne).
    reflexivity.
  - intros call s1 Hretouch. unfold handleApplyRetouch in Hretouch.
    destruct (retouchPrompt s) as [|c prompt] eqn:Hp; [discriminate|].
    destruct (retouchHotspot s) as [hotspot|] eqn:Hh; [|discriminate].
    injection Hretouch as <- <-.
    rewrite Hsettled.
    apply (regenerateTask_after_push s _ newFile
             (la_retouch (String c prompt) hotspot) Hok Hne).
    reflexivity.
Qed.

(** X5. A crop that succeeds pushes the cropped file and forgets the last
    action, so that regenerate then does nothing, while undo gives the
    uncropped image back; a crop that fails changes neither the history nor
    the cursor. *)
Theorem crop_is_not_regenerable (s : EditorState) :
  history_ok s -> history s <> [] ->
  (forall croppedImageFile,
     let c := handleApplyCrop_settle s (inr croppedImageFile) s in
     currentImageFile c = Some croppedImageFile
     /\ regenerateTask c = None
     /\ currentImageFile (handleUndo c c) = currentImageFile s)
  /\ (forall e,
        let c := handleApplyCrop_settle s (inl e) s in
        history c = history s /\ historyIndex c = historyIndex s
        /\ lastAction c = lastAction s).
Proof.
  intros Hok Hne. split.
  - intros f c.
    pose proof (history_ok_cursor s Hok Hne) as Hi.
    destruct (updateHistory_writes s s f ltac:(lia)) as [Hh Hx].
    split; [apply (updateHistory_current s s f)|].
    split; [reflexivity|].
    unfold handleUndo.
    replace (historyIndex c) with (historyIndex s + 1) by (rewrite <- Hx; reflexivity).
    destruct (Z.gtb_spec (historyIndex s + 1) 0) as [_|Hle]; [|lia].
    unfold currentImageFile. cbn [setHistoryIndex history historyIndex].
    replace (history c) with (history (updateHistory s f s)) by reflexivity.
    rewrite Hh. replace (historyIndex s + 1 - 1) with (historyIndex s) by lia.
    rewrite !js_get_lookup by lia.
    rewrite lookup_app_l by (rewrite length_take; lia).
    apply lookup_take_lt. lia.
  - intros e c. repeat split.
Qed.

Lemma crop_is_not_regenerable_witness :
  let a := mkFile "a.png" 10 "image/png" in
  let b := mkFile "crop-1.png" 5 "image/png" in
  let s := setLastAction (Some (la_adjust "brighter"))
             (setHistoryIndex 0 (setHistory [a] initialRender)) in
  regenerateTask (handleApplyCrop_settle s (inr b) s) = None.
Proof.
  intros a b s.
  assert (Hok : history_ok s) by (unfold history_ok; simpl; lia).
  exact (proj1 (proj2 (proj1 (crop_is_not_regenerable s Hok
                                ltac:(discriminate)) b))).
Defined.

(** X6. Taking a generated image into the editor (from the start screen or
    from the batch modal) discards the history: when the conversion
    succeeds the history is that one image, with nothing to undo, redo or
    regenerate; when it throws, history, cursor and last action are as
    before and the error is shown.  Either way the spinner is off. *)
Theorem generated_image_replaces_history (dataUrl : string)
    (s : EditorState) :
  let s' := handleLocalImageGenerated dataURLtoFile now dataUrl s in
  isLoading s' = false
  /\ (forall newFile,
        dataURLtoFile dataUrl ("generated-" +:+ now +:+ ".png") = inr newFile ->
        history s' = [newFile] /\ currentImageFile s' = Some newFile
        /\ history_ok s'
        /\ handleUndo s' s' = s' /\ handleRedo s' s' = s'
        /\ regenerateTask s' = None /\ error s' = None)
  /\ (forall e,
        dataURLtoFile dataUrl ("generated-" +:+ now +:+ ".png") = inl e ->
        history s' = history s /\ historyIndex s' = historyIndex s
        /\ lastAction s' = lastAction s
        /\ error s' = Some (if isError e then message e
                            else "处理生成图像时出错")).
Proof.
  intros s'. unfold s', handleLocalImageGenerated.
  split; [reflexivity|]. split.
  - intros newFile ->. repeat split. unfold history_ok. simpl. lia.
  - intros e ->. repeat split.
Qed.

End EditorEdits.

Lemma apply_then_regenerate_witness :
  let a := mkFile "a.png" 10 "image/png" in
  let b := mkFile "edit-7.png" 20 "image/png" in
  let s := Editor.setHistoryIndex 0
             (Editor.setHistory [a] Editor.initialRender) in
  let out := EditorActions.handleApplyFilter s "sepia" s in
  Editor.regenerateTask
    (Editor.runGenerativeTask_settle (fun _ _ => inr b) "7" s
       (inr "data:image/png;base64,QUJD") out.2)
  = Some (Editor.call_generateFilteredImage (Some a) "sepia").
Proof.
  intros a b s out.
  assert (Hok : Editor.history_ok s)
    by (unfold Editor.history_ok; simpl; lia).
  exact (proj1 (apply_then_regenerate (fun _ _ => inr b) "7" s
                  "data:image/png;base64,QUJD" b Hok ltac:(discriminate)
                  eq_refl) "sepia").
Defined.

Lemma generated_image_replaces_history_witness :
  let a := mkFile "a.png" 10 "image/png" in
  let g := mkFile "generated-7.png" 20 "image/png" in
  let s := Editor.setHistoryIndex 0
             (Editor.setHistory [a] Editor.initialRender) in
  Editor.history
    (EditorActions.handleLocalImageGenerated (fun _ _ => inr g) "7"
       "data:image/png;base64,QUJD" s) = [g].
Proof.
  intros a g s.
  exact (proj1 (proj1 (proj2 (generated_image_replaces_history
                                (fun _ _ => inr g) "7"
                                "data:image/png;base64,QUJD" s))
                  g eq_refl)).
Defined.

(** ** Data URLs *)

Section DataUrls.

Import Editor EditorActions.


Lemma split_on_cons (sep : ascii) (s : string) :
  exists piece pieces, split_on sep s = piece :: pieces.
Proof.
  induction s as [|c s IH]; simpl; [eauto|].
  destruct (Ascii.eqb c sep); [eauto|].
  destruct IH as (piece & pieces & ->). eauto.
Qed.

Lemma split_on_absent (sep : ascii) (s : string) :
  contains_char sep s = false -> split_on sep s = [s].
Proof.
  induction s as [|c s IH]; simpl; [reflexivity|].
  destruct (Ascii.eqb c sep); simpl; [discriminate|].
  intros H. rewrite IH by exact H. reflexivity.
Qed.



Lemma append_cons (x : ascii) (a b : string) :
  String x a +:+ b = String x (a +:+ b).
Proof. reflexivity. Qed.


Variable atob : string -> option string.
Variable atobError : Thrown.



(** A string without a comma is refused as an invalid data URL. *)
Lemma dataURLtoFile_no_comma (dataurl filename : string) :
  contains_char "," dataurl = false ->
  dataURLtoFile atob atobError dataurl filename
  = inl (newError "Invalid data URL").
Proof.
  intros H. unfold dataURLtoFile. rewrite split_on_absent by exact H.
  reflexivity.
Qed.

End DataUrls.


(** ** Service layer: generations without a fallback *)

Section ServiceCalls.

Import Service ServiceMore.

Variable sdk : list Event -> list Part -> SdkResult.
Variable readFile : File -> Thrown + InlineData.
Variable apiErrorMessage : Thrown -> string -> string.
Variable showNumber : Z -> string.
Variable firstRejection : list Thrown -> Thrown.

Local Abbreviation callModel := (callImageEditingModel sdk apiErrorMessage).
Local Abbreviation wrap := (handleApiError apiErrorMessage).

(** Whatever [callImageEditingModel] throws is an [Error]. *)
Lemma callImageEditingModel_throws_error (parts : list Part)
    (action : string) (log : list Event) (e : Thrown) :
  (callModel parts action log).1 = inl e -> isError e = true.
Proof.
  assert (Hre : forall e0, isError (rethrow apiErrorMessage e0 action) = true).
  { intros e0. unfold rethrow.
    destruct (isError e0) eqn:He; simpl; [|reflexivity].
    destruct (_ || _); [exact He|reflexivity]. }
  unfold callImageEditingModel, mbind, Async_bind, bind, emit. simpl.
  repeat case_match; simpl; intros [= <-]; apply Hre.
Qed.

Lemma fileToGenerativePart_run (file : File) (log : list Event) :
  fileToGenerativePart readFile file log
  = (match readFile file with
     | inl e => inl e
     | inr d => inr (imagePartOf d)
     end, log ++ [EvRead file]).
Proof.
  unfold fileToGenerativePart, mbind, Async_bind, bind, emit. simpl.
  destruct (readFile file); reflexivity.
Qed.

Lemma bind_fileToGenerativePart {B : Type} (file : File)
    (k : Part -> Async B) (log : list Event) :
  (fileToGenerativePart readFile file ≫= k) log
  = match readFile file with
    | inl e => (inl e, log ++ [EvRead file])
    | inr d => k (imagePartOf d) (log ++ [EvRead file])
    end.
Proof.
  unfold mbind, Async_bind, bind. rewrite fileToGenerativePart_run.
  destruct (readFile file); reflexivity.
Qed.

(** X8. [generateEditedImage] and [removeBackgroundImage] read the file
    once and call the model at most once: when the read fails its rejection
    is the result and the model is not called; otherwise the result of the
    one call is the result, also when it is the text-instead-of-image
    error, which the generations with a fallback would retry. *)
Theorem single_call_generations (imageFile : File) (prompt : string)
    (hotspot : Z * Z) (log : list Event) :
  let log0 := log ++ [EvRead imageFile] in
  let edited := generateEditedImage sdk readFile apiErrorMessage showNumber
                  imageFile prompt hotspot log in
  let erased := removeBackgroundImage sdk readFile apiErrorMessage
                  imageFile log in
  (forall e, readFile imageFile = inl e ->
     edited = (inl e, log0) /\ erased = (inl e, log0))
  /\ (forall d, readFile imageFile = inr d ->
        (exists text, edited = callModel [imagePartOf d; textPart text]
                                 "修饰" log0)
        /\ (exists text, erased = callModel [imagePartOf d; textPart text]
                                    "抠图" log0)
        /\ length (modelCalls edited.2) = S (length (modelCalls log))
        /\ length (modelCalls erased.2) = S (length (modelCalls log)))
  /\ reads edited.2 = reads log ++ [imageFile]
  /\ reads erased.2 = reads log ++ [imageFile].
Proof.
  intros log0 edited erased.
  unfold edited, erased, generateEditedImage, removeBackgroundImage.
  rewrite !bind_fileToGenerativePart.
  destruct (readFile imageFile) as [e|d].
  - split; [intros e' [= <-]; split; reflexivity|].
    split; [intros d [=]|].
    simpl. rewrite reads_app. simpl. split; reflexivity.
  - split; [intros e [=]|].
    split.
    + intros d' [= <-]. split; [eexists; reflexivity|].
      split; [eexists; reflexivity|].
      rewrite !callImageEditingModel_log, !modelCalls_app, !length_app.
      simpl. split; lia.
    + rewrite !callImageEditingModel_log, !reads_app. simpl.
      rewrite !app_nil_r. split; reflexivity.
Qed.

Lemma startAll_reads (files : list File) (log : list Event) :
  startAll (map (fileToGenerativePart readFile) files) log
  = (map (fun file => match readFile file with
                      | inl e => inl e
                      | inr d => inr (imagePartOf d)
                      end) files,
     log ++ map EvRead files).
Proof.
  revert log. induction files as [|f files IH]; intros log; simpl.
  - rewrite app_nil_r. reflexivity.
  - rewrite fileToGenerativePart_run, IH, <- app_assoc. reflexivity.
Qed.

Lemma reads_map_EvRead (files : list File) : reads (map EvRead files) = files.
Proof. induction files as [|f files IH]; simpl; [reflexivity|]. f_equal. exact IH. Qed.

Lemma modelCalls_map_EvRead (files : list File) :
  modelCalls (map EvRead files) = [].
Proof. induction files as [|f files IH]; simpl; [reflexivity|exact IH]. Qed.

Lemma promiseAll_reads (files : list File) (log : list Event) :
  let outs := map (fun file => match readFile file with
                               | inl e => inl e
                               | inr d => inr (imagePartOf d)
                               end) files in
  promiseAll firstRejection (map (fileToGenerativePart readFile) files) log
  = (match rejections outs with
     | [] => inr (fulfilments outs)
     | e :: es => inl (firstRejection (e :: es))
     end, log ++ map EvRead files).
Proof.
  intros outs. unfold promiseAll. rewrite startAll_reads. fold outs.
  destruct (rejections outs); reflexivity.
Qed.

Lemma generateFusedImage_run (mainImage : File) (sourceImages : list File)
    (prompt : string) (log : list Event) :
  let outs := map (fun file => match readFile file with
                               | inl e => inl e
                               | inr d => inr (imagePartOf d)
                               end) sourceImages in
  let log1 := (log ++ [EvRead mainImage]) ++ map EvRead sourceImages in
  generateFusedImage sdk readFile apiErrorMessage showNumber firstRejection
    mainImage sourceImages prompt log
  = match readFile mainImage with
    | inl e => (inl (wrap e "合成"), log ++ [EvRead mainImage])
    | inr d =>
        match rejections outs with
        | [] =>
            let parts := imagePartOf d :: fulfilments outs
                         ++ [textPart (fusedPrompt showNumber
                                         (length (fulfilments outs)) prompt)] in
            match callModel parts "合成" log1 with
            | (inl e, l) => (inl (wrap e "合成"), l)
            | (inr u, l) => (inr u, l)
            end
        | e :: es => (inl (wrap (firstRejection (e :: es)) "合成"), log1)
        end
    end.
Proof.
  intros outs log1. unfold generateFusedImage, tryCatch.
  rewrite bind_fileToGenerativePart.
  destruct (readFile mainImage) as [e|d]; [reflexivity|].
  unfold mbind, Async_bind, bind. rewrite promiseAll_reads.
  fold outs log1. destruct (rejections outs); reflexivity.
Qed.

Lemma fulfilments_all (files : list File) (ds : list InlineData) :
  map readFile files = map inr ds ->
  let outs := map (fun file => match readFile file with
                               | inl e => inl e
                               | inr d => inr (imagePartOf d)
                               end) files in
  fulfilments outs = map imagePartOf ds /\ rejections outs = [].
Proof.
  revert ds. induction files as [|f fs IH]; intros [|d0 ds] Hds;
    simpl in *; try discriminate; [split; reflexivity|].
  injection Hds as Hf Hds. rewrite Hf. simpl.
  destruct (IH ds Hds) as [H1 H2]. split; [f_equal; exact H1|exact H2].
Qed.

Lemma rejections_some (files : list File) (file : File) (e : Thrown) :
  file ∈ files -> readFile file = inl e ->
  rejections (map (fun file => match readFile file with
                               | inl e => inl e
                               | inr d => inr (imagePartOf d)
                               end) files) <> [].
Proof.
  intros Hin He Hnil.
  assert (Hin' : e ∈ rejections
            (map (fun file => match readFile file with
                              | inl e => inl e
                              | inr d => inr (imagePartOf d)
                              end) files)).
  { unfold rejections. apply list_elem_of_omap.
    exists (inl e). split; [|reflexivity].
    apply list_elem_of_fmap. exists file. rewrite He.
    split; [reflexivity|exact Hin]. }
  rewrite Hnil in Hin'. apply elem_of_nil in Hin'. exact Hin'.
Qed.

(** X9. [generateFusedImage] throws nothing but errors built by
    [handleApiError] for the action of fusion, whatever failed inside.  A
    main image that cannot be read stops it at once.  Otherwise every
    source image is read, in order, also when one of them fails; the model
    is called only when all were read, and then once, with the main image,
    the source images in order and one text part. *)
Theorem generateFusedImage_wraps (mainImage : File)
    (sourceImages : list File) (prompt : string) (log : list Event) :
  let out := generateFusedImage sdk readFile apiErrorMessage showNumber
               firstRejection mainImage sourceImages prompt log in
  (forall e, out.1 = inl e -> exists e0, e = wrap e0 "合成")
  /\ (forall e, readFile mainImage = inl e ->
        out = (inl (wrap e "合成"), log ++ [EvRead mainImage]))
  /\ (forall d, readFile mainImage = inr d ->
        reads out.2 = reads log ++ mainImage :: sourceImages
        /\ (forall ds, map readFile sourceImages = map inr ds ->
              modelCalls out.2
              = modelCalls log
                ++ [(imagePartOf d :: map imagePartOf ds
                       ++ [textPart (fusedPrompt showNumber (length ds) prompt)],
                     "合成")])
        /\ (forall file e, file ∈ sourceImages -> readFile file = inl e ->
              modelCalls out.2 = modelCalls log)).
Proof.
  intros out. unfold out. rewrite generateFusedImage_run. cbv zeta.
  set (outs := map _ sourceImages).
  set (log1 := (log ++ [EvRead mainImage]) ++ map EvRead sourceImages).
  assert (Hreads : reads log1 = reads log ++ mainImage :: sourceImages).
  { unfold log1. rewrite !reads_app, reads_map_EvRead, <- app_assoc.
    reflexivity. }
  assert (Hcalls : modelCalls log1 = modelCalls log).
  { unfold log1. rewrite !modelCalls_app, modelCalls_map_EvRead. simpl.
    rewrite !app_nil_r. reflexivity. }
  destruct (readFile mainImage) as [e|d] eqn:Hmain.
  { split; [intros e' [= <-]; eauto|].
    split; [intros e' [= <-]; reflexivity|intros d [=]]. }
  split; [|split; [intros e [=]|]].
  - destruct (rejections outs) as [|e es]; [|intros e' [= <-]; eauto].
    destruct (callModel _ _ log1) as [[e|u] l]; intros e' [= <-]. eauto.
  - intros d' [= <-].
    destruct (rejections outs) as [|e es] eqn:Hrej.
    + match goal with
      | |- context [callImageEditingModel sdk apiErrorMessage ?ps ?a ?l] =>
          pose proof (callImageEditingModel_log sdk apiErrorMessage ps a l)
            as Hlog;
          destruct (callImageEditingModel sdk apiErrorMessage ps a l)
            as [[e|u] l1]
      end; simpl in Hlog; subst l1; cbn [fst snd].
      all: split;
        [rewrite reads_app, Hreads; simpl; rewrite app_nil_r; reflexivity|].
      all: split;
        [intros ds Hds;
         destruct (fulfilments_all sourceImages ds Hds) as [Hf _];
         fold outs in Hf; rewrite modelCalls_app, Hcalls, Hf, length_map;
         reflexivity
        |intros file e' Hin He'; exfalso;
         exact (rejections_some sourceImages file e' Hin He' Hrej)].
    + cbn [fst snd]. split; [exact Hreads|]. split.
      * intros ds Hds.
        destruct (fulfilments_all sourceImages ds Hds) as [_ Hnone].
        fold outs in Hnone. congruence.
      * intros file e' _ _. exact Hcalls.
Qed.

End ServiceCalls.

Lemma single_call_generations_witness :
  let out := ServiceMore.removeBackgroundImage Samples.textOnlySdk
               Samples.pngReader Samples.plainMessage Samples.photo [] in
  length (Service.modelCalls out.2) = 1.
Proof.
  intros out.
  exact (proj2 (proj2 (proj2
    (proj1 (proj2 (single_call_generations Samples.textOnlySdk
                     Samples.pngReader Samples.plainMessage (fun _ => "0")
                     Samples.photo "" (0, 0)%Z []))
       (Service.mkInline "image/png" "AAAA") eq_refl)))).
Defined.

Lemma generateFusedImage_wraps_witness :
  let out := ServiceMore.generateFusedImage Samples.textOnlySdk
               Samples.pngReader Samples.plainMessage (fun _ => "1")
               (fun es => default (newError "") (head es))
               Samples.photo [Samples.photo] "blend" [] in
  Service.reads out.2 = [Samples.photo; Samples.photo]
  /\ length (Service.modelCalls out.2) = 1.
Proof.
  intros out.
  destruct (proj2 (proj2 (generateFusedImage_wraps Samples.textOnlySdk
              Samples.pngReader Samples.plainMessage (fun _ => "1")
              (fun es => default (newError "") (head es))
              Samples.photo [Samples.photo] "blend" []))
              (Service.mkInline "image/png" "AAAA") eq_refl)
    as (Hr & Hc & _).
  split; [exact Hr|].
  pose proof (Hc [Service.mkInline "image/png" "AAAA"] eq_refl) as H.
  exact (f_equal length H).
Defined.

(** ** Service layer: images from text *)

Section TextToImage.

Import Service ServiceMore.

Variable apiErrorMessage : Thrown -> string -> string.
Variable sdkText : list string -> string -> SdkResult.
Variable clientError : option Thrown.

Local Abbreviation wrap := (handleApiError apiErrorMessage).

Lemma generateLoop_spec (text : string) (remaining : nat)
    (results requests : list string) :
  let out := generateLoop sdkText text remaining results requests in
  exists rounds,
    rounds <= remaining
    /\ out.2 = requests ++ replicate rounds text
    /\ (forall urls, out.1 = inr urls ->
          rounds = remaining
          /\ exists new, urls = results ++ new /\ length new <= remaining).
Proof.
  revert results requests.
  induction remaining as [|n IH]; intros results requests; simpl.
  - exists 0. split; [lia|]. split; [rewrite app_nil_r; reflexivity|].
    intros urls [= <-]. split; [reflexivity|].
    exists []. rewrite app_nil_r. split; [reflexivity|simpl; lia].
  - destruct (sdkText requests text) as [e|candidates].
    { exists 1. split; [lia|]. split; [reflexivity|]. intros urls [=]. }
    destruct (head candidates ≫= content_parts) as [parts|].
    2:{ exists 1. split; [lia|]. split; [reflexivity|]. intros urls [=]. }
    match goal with
    | |- context [generateLoop sdkText text n ?rs ?rq] =>
        destruct (IH rs rq) as (k & Hk & Hreq & Hok)
    end.
    exists (S k). split; [lia|]. split.
    + rewrite Hreq, <- app_assoc. reflexivity.
    + intros urls Hurls. destruct (Hok urls Hurls) as (-> & new & -> & Hnew).
      split; [reflexivity|].
      destruct (firstInlineData parts) as [d|].
      * eexists (_ :: new). rewrite <- app_assoc. split; [reflexivity|].
        simpl. lia.
      * exists new. split; [reflexivity|lia].
Qed.

(** X10. [generateImageFromText] asks for one image per round with one and
    the same text.  When it returns, it made exactly [imageCount] requests
    and returns between one and [imageCount] images: a response without an
    image is passed over in silence, and no image at all is an error.
    Every value it throws, from a failed request down to a missing client,
    is an error built by [handleApiError]; the images of earlier rounds are
    then lost. *)
Theorem generateImageFromText_bounds (prompt aspectRatio : string)
    (imageCount : nat) :
  let out := generateImageFromText apiErrorMessage sdkText clientError
               prompt aspectRatio imageCount in
  let text := "Generate an image with aspect ratio " +:+ aspectRatio
              +:+ ": " +:+ prompt in
  (exists rounds, rounds <= imageCount /\ out.2 = replicate rounds text)
  /\ (forall urls, out.1 = inr urls ->
        out.2 = replicate imageCount text
        /\ 1 <= length urls <= imageCount)
  /\ (forall e, out.1 = inl e -> exists e0, e = wrap e0 "生成图片").
Proof.
  intros out text. unfold out, generateImageFromText. fold text.
  destruct clientError as [e0|].
  { split; [exists 0; split; [lia|reflexivity]|].
    split; [intros urls [=]|intros e [= <-]; eauto]. }
  destruct (generateLoop_spec text imageCount [] [])
    as (k & Hk & Hreq & Hok).
  destruct (generateLoop sdkText text imageCount [] []) as [[e|urls] requests];
    simpl in *; subst requests.
  - split; [eauto|]. split; [intros urls [=]|intros e' [= <-]; eauto].
  - destruct (Hok urls eq_refl) as (-> & new & -> & Hnew).
    destruct new as [|u new]; simpl.
    + split; [eauto|]. split; [intros urls [=]|intros e' [= <-]; eauto].
    + split; [eauto|]. split; [|intros e' [=]].
      intros urls [= <-]. split; [reflexivity|]. simpl in *. lia.
Qed.

End TextToImage.

Lemma generateImageFromText_bounds_witness :
  let out := ServiceMore.generateImageFromText Samples.plainMessage
               Samples2.imageSdkText None "a cat" "1:1" 2 in
  length out.2 = 2
  /\ out.1 = inr ["data:image/png;base64,QUJD"; "data:image/png;base64,QUJD"].
Proof.
  intros out.
  assert (H : out.1 = inr ["data:image/png;base64,QUJD";
                            "data:image/png;base64,QUJD"]) by reflexivity.
  split; [|exact H].
  exact (f_equal length
           (proj1 (proj1 (proj2 (generateImageFromText_bounds
              Samples.plainMessage Samples2.imageSdkText None
              "a cat" "1:1" 2)) _ H))).
Defined.

(** ** Service layer: decades and data URLs *)

Section Decades.

Import Service ServiceMore.

Lemma string_length_app (a b : string) :
  String.length (a +:+ b) = String.length a + String.length b.
Proof.
  induction a as [|x a IH]; [reflexivity|].
  rewrite append_cons. simpl. rewrite IH. reflexivity.
Qed.

Lemma string_at_least_4 (s : string) :
  4 <= String.length s ->
  exists b c d e t, s = String b (String c (String d (String e t))).
Proof.
  destruct s as [|b [|c [|d [|e t]]]]; simpl; intros H; try lia. eauto 6.
Qed.

Lemma is_decade_length (d : string) :
  is_decade d = true -> String.length d = 5.
Proof.
  destruct d as [|a [|b [|c [|d' [|e [|x t]]]]]]; simpl; intros H;
    try discriminate; reflexivity.
Qed.

Lemma extractDecade_here (d post : string) :
  is_decade d = true -> extractDecade (d +:+ post) = Some d.
Proof.
  destruct d as [|a [|b [|c [|d' [|e [|x t]]]]]]; simpl; intros H;
    try discriminate.
  rewrite ?append_cons. cbn. cbn in H. rewrite H. reflexivity.
Qed.

(** The first decade of a prompt is found behind any text without digits. *)
Lemma extractDecade_first (pre d post : string) :
  forallb (fun c => negb (is_digit c)) (list_ascii_of_string pre) = true ->
  is_decade d = true ->
  extractDecade (pre +:+ d +:+ post) = Some d.
Proof.
  intros Hpre Hd. induction pre as [|x pre IH].
  - exact (extractDecade_here d post Hd).
  - simpl in Hpre. apply andb_true_iff in Hpre as [Hx Hpre].
    rewrite append_cons.
    destruct (string_at_least_4 (pre +:+ d +:+ post)) as (b & c & d0 & e & t & Hrest).
    { rewrite !string_length_app, (is_decade_length d Hd). lia. }
    rewrite <- (IH Hpre). rewrite Hrest. simpl.
    apply negb_true_iff in Hx. rewrite Hx. reflexivity.
Qed.

(** X11. The pattern of [extractDecade] is sound and complete: what it
    returns is four digits followed by [s] and occurs in the prompt, and it
    returns something whenever such a text occurs. *)
Theorem extractDecade_spec (prompt : string) :
  (forall d, extractDecade prompt = Some d ->
     is_decade d = true /\ exists pre post, prompt = pre +:+ d +:+ post)
  /\ (forall pre d post,
        prompt = pre +:+ d +:+ post -> is_decade d = true ->
        is_Some (extractDecade prompt)).
Proof.
  split.
  - induction prompt as [|a rest IH]; intros d; simpl; [discriminate|].
    destruct rest as [|b [|c [|d0 [|e t]]]]; try discriminate.
    destruct (is_digit a && is_digit b && is_digit c && is_digit d0
              && Ascii.eqb e "s") eqn:Hcond.
    + intros [= <-]. split; [exact Hcond|]. exists "", t. reflexivity.
    + intros Hd. destruct (IH d Hd) as (Hdec & pre & post & Hrest).
      split; [exact Hdec|]. exists (String a pre), post.
      rewrite append_cons, <- Hrest. reflexivity.
  - intros pre d post -> Hd. induction pre as [|x pre IH].
    + change ("" +:+ d +:+ post) with (d +:+ post).
      rewrite (extractDecade_here d post Hd). eauto.
    + rewrite append_cons.
      destruct (string_at_least_4 (pre +:+ d +:+ post))
        as (b & c & d0 & e & t & Hrest).
      { rewrite !string_length_app, (is_decade_length d Hd). lia. }
      rewrite Hrest in *. simpl.
      destruct (is_digit x && is_digit b && is_digit c && is_digit d0
                && Ascii.eqb e "s"); [eauto|exact IH].
Qed.

Lemma extractDecade_spec_witness :
  is_Some (extractDecade "a portrait from the 1920s, sepia").
Proof.
  exact (proj2 (extractDecade_spec "a portrait from the 1920s, sepia")
           "a portrait from the " "1920s" ", sepia" eq_refl eq_refl).
Defined.

(** X12. The prompt PastForwardPage builds for a decade always yields that
    decade back, so [generateDecadeImage] can always fall back for it; the
    six decades of the page are of that form. *)
Theorem primaryPrompt_has_decade :
  (forall decade, is_decade decade = true ->
     extractDecade (PastForward.primaryPrompt decade) = Some decade)
  /\ Forall (fun decade => is_decade decade = true) PastForward.DECADES.
Proof.
  split.
  - intros decade Hd. unfold PastForward.primaryPrompt.
    apply extractDecade_first; [reflexivity|exact Hd].
  - repeat (apply List.Forall_cons; [reflexivity|]). apply List.Forall_nil.
Qed.

Lemma primaryPrompt_has_decade_witness :
  extractDecade (PastForward.primaryPrompt "1970s") = Some "1970s".
Proof. exact (proj1 primaryPrompt_has_decade "1970s" eq_refl). Defined.

Lemma strip_prefix_app (pre s : string) :
  strip_prefix pre (pre +:+ s) = Some s.
Proof.
  induction pre as [|a pre IH]; [destruct s; reflexivity|].
  rewrite append_cons. simpl. rewrite Ascii.eqb_refl. exact IH.
Qed.

Lemma strip_prefix_Some (pre s rest : string) :
  strip_prefix pre s = Some rest -> s = pre +:+ rest.
Proof.
  revert s. induction pre as [|a pre IH]; intros s; simpl.
  - destruct s; intros [= <-]; reflexivity.
  - destruct s as [|b s]; [discriminate|].
    destruct (Ascii.eqb_spec a b) as [<-|]; [|discriminate].
    intros H. rewrite append_cons, <- (IH s H). reflexivity.
Qed.

Lemma span_word_app (w rest : string) (c : ascii) :
  all_word w = true -> is_word c = false ->
  span_word (w +:+ String c rest) = (w, String c rest).
Proof.
  intros Hw Hc. induction w as [|a w IH].
  - change ("" +:+ String c rest) with (String c rest). simpl.
    rewrite Hc. reflexivity.
  - unfold all_word in Hw. simpl in Hw.
    apply andb_true_iff in Hw as [Ha Hw].
    rewrite append_cons. simpl. rewrite Ha, (IH Hw). reflexivity.
Qed.

Lemma span_word_split (s w rest : string) :
  span_word s = (w, rest) -> s = w +:+ rest /\ all_word w = true.
Proof.
  revert w rest. induction s as [|a s IH]; intros w rest; simpl.
  - intros [= <- <-]. split; reflexivity.
  - destruct (is_word a) eqn:Ha.
    + destruct (span_word s) as [w' rest'] eqn:Hs. intros [= <- <-].
      destruct (IH w' rest' eq_refl) as [-> Hw].
      split; [reflexivity|]. unfold all_word. simpl. rewrite Ha. exact Hw.
    + intros [= <- <-]. split; reflexivity.
Qed.

(** X13. The data-URL pattern of [generateDecadeImage] and the data URLs
    the service prints are inverse to each other: a URL printed from an
    [image/] type of word characters and data without line terminators is
    matched with these two groups, and a URL that is matched is the print
    of its groups. *)
Theorem matchDataUrl_round_trip :
  (forall w base64Data,
     w <> "" -> all_word w = true ->
     has_line_terminator base64Data = false ->
     matchDataUrl ("data:" +:+ ("image/" +:+ w) +:+ ";base64," +:+ base64Data)
     = Some ("image/" +:+ w, base64Data))
  /\ (forall imageDataUrl mime base64Data,
        matchDataUrl imageDataUrl = Some (mime, base64Data) ->
        imageDataUrl = "data:" +:+ mime +:+ ";base64," +:+ base64Data
        /\ has_line_terminator base64Data = false).
Proof.
  split.
  - intros w d Hne Hw Hlt. unfold matchDataUrl.
    replace ("data:" +:+ ("image/" +:+ w) +:+ ";base64," +:+ d)
      with ("data:image/" +:+ (w +:+ String ";" ("base64," +:+ d)))
      by (rewrite !append_cons; reflexivity).
    rewrite strip_prefix_app.
    rewrite span_word_app by (exact Hw || reflexivity).
    destruct w as [|a w]; [congruence|].
    change (String ";" ("base64," +:+ d)) with (";base64," +:+ d).
    rewrite strip_prefix_app, Hlt. reflexivity.
  - intros url mime d. unfold matchDataUrl.
    destruct (strip_prefix "data:image/" url) as [rest|] eqn:H1;
      [|discriminate].
    destruct (span_word rest) as [w rest'] eqn:H2.
    destruct w as [|a w]; [discriminate|].
    destruct (strip_prefix ";base64," rest') as [d'|] eqn:H3; [|discriminate].
    destruct (has_line_terminator d') eqn:H4; [discriminate|].
    intros [= <- <-]. split; [|exact H4].
    apply strip_prefix_Some in H1, H3. apply span_word_split in H2 as [H2 _].
    subst url rest rest'. rewrite !append_cons.
    change ("" +:+ String a w +:+ ";base64," +:+ d')
      with (String a w +:+ ";base64," +:+ d').
    change (("image/" +:+ String a w) +:+ ";base64," +:+ d')
      with (String "i" (String "m" (String "a" (String "g" (String "e"
             (String "/" ((String a w) +:+ ";base64," +:+ d'))))))).
    reflexivity.
Qed.

Lemma matchDataUrl_round_trip_witness :
  matchDataUrl "data:image/webp;base64,QUJD" = Some ("image/webp", "QUJD").
Proof.
  exact (proj1 matchDataUrl_round_trip "webp" "QUJD" ltac:(discriminate)
           eq_refl eq_refl).
Defined.

End Decades.

(** ** Service layer: failures and retries *)

Section ServiceFailures.

Import Service ServiceMore.

Variable sdk : list Event -> list Part -> SdkResult.
Variable readFile : File -> Thrown + InlineData.
Variable apiErrorMessage : Thrown -> string -> string.

Local Abbreviation callModel := (callImageEditingModel sdk apiErrorMessage).
Local Abbreviation styled := (generateStyledImage sdk readFile apiErrorMessage).
Local Abbreviation withRetry := (generateWithRetry sdk readFile apiErrorMessage).

Lemma callImageEditingModel_calls (parts : list Part) (action : string)
    (log : list Event) :
  length (modelCalls (callModel parts action log).2)
  = S (length (modelCalls log)).
Proof.
  rewrite callImageEditingModel_log, modelCalls_app, length_app. simpl. lia.
Qed.

(** X14. [generateDecadeImage] throws [Error] instances only, so the page
    that awaits it records the thrown message.  A URL the pattern refuses is
    rejected before [callImageEditingModel] is called at all; for another
    URL [callImageEditingModel] is called once or twice, so that at most
    two requests are made. *)
Theorem generateDecadeImage_failures (imageDataUrl prompt : string)
    (log : list Event) :
  let out := generateDecadeImage sdk apiErrorMessage imageDataUrl prompt log in
  (forall e, out.1 = inl e ->
     isError e = true /\ settledImage out.1 = errorImage (message e))
  /\ (matchDataUrl imageDataUrl = None ->
      out = (inl (newError "Invalid image data URL format."), log))
  /\ (is_Some (matchDataUrl imageDataUrl) ->
      exists n, 1 <= n <= 2
        /\ length (modelCalls out.2) = length (modelCalls log) + n).
Proof.
  cbv zeta.
  assert (Herr : forall e,
    (generateDecadeImage sdk apiErrorMessage imageDataUrl prompt log).1 = inl e
    -> isError e = true).
  { unfold generateDecadeImage.
    destruct (matchDataUrl imageDataUrl) as [[mime base64Data]|].
    - unfold tryCatch, throw.
      destruct (callModel _ _ log) as [[e1|u] l1] eqn:H1; [|discriminate].
      pose proof (callImageEditingModel_throws_error sdk apiErrorMessage
                    _ _ _ e1 (f_equal fst H1)) as He1.
      destruct (respondedWithText e1).
      + destruct (extractDecade prompt) as [decade|].
        * intros e He.
          exact (callImageEditingModel_throws_error sdk apiErrorMessage
                   _ _ _ e He).
        * intros e [= <-]. exact He1.
      + intros e [= <-]. exact He1.
    - intros e [= <-]. reflexivity. }
  split; [|split].
  - intros e He. split; [exact (Herr e He)|].
    rewrite He. simpl. rewrite (Herr e He). reflexivity.
  - intros Hno. unfold generateDecadeImage. rewrite Hno. reflexivity.
  - intros [[mime base64Data] Hm]. unfold generateDecadeImage. rewrite Hm.
    unfold tryCatch, throw.
    match goal with
    | |- context [callImageEditingModel sdk apiErrorMessage ?ps ?a log] =>
        pose proof (callImageEditingModel_calls ps a log) as Hn;
        destruct (callImageEditingModel sdk apiErrorMessage ps a log)
          as [[e1|u] l1]
    end; simpl in Hn.
    + destruct (respondedWithText e1);
        [destruct (extractDecade prompt) as [decade|]|].
      * exists 2. split; [lia|].
        rewrite callImageEditingModel_calls, Hn. lia.
      * exists 1. split; [lia|]. simpl. lia.
      * exists 1. split; [lia|]. simpl. lia.
    + exists 1. split; [lia|]. simpl. lia.
Qed.

Lemma generateStyledImage_calls (file : File) (prompt : string)
    (log : list Event) :
  length (modelCalls (styled file prompt log).2)
  <= length (modelCalls log) + 2.
Proof.
  unfold generateStyledImage. rewrite bind_fileToGenerativePart.
  destruct (readFile file) as [e|d]; simpl.
  - rewrite modelCalls_app. simpl. rewrite app_nil_r. lia.
  - unfold tryCatch, throw.
    match goal with
    | |- context [callImageEditingModel sdk apiErrorMessage ?ps ?a ?l] =>
        pose proof (callImageEditingModel_calls ps a l) as Hn;
        destruct (callImageEditingModel sdk apiErrorMessage ps a l)
          as [[e1|u] l1]
    end; simpl in Hn; rewrite modelCalls_app in Hn; simpl in Hn;
      rewrite app_nil_r in Hn.
    + destruct (respondedWithText e1); simpl.
      * rewrite callImageEditingModel_calls. lia.
      * lia.
    + simpl. lia.
Qed.

(** X15. [generateWithRetry] for any [retries]: the generation runs at least
    once and at most [retries + 1] times, with a sleep of one second between
    two runs and none after the last; it throws only when every one of the
    [retries + 1] runs threw; and it costs at most two requests per run. *)
Theorem generateWithRetry_runs (file : File) (prompt : string)
    (retries : nat) (log : list Event) :
  let out := withRetry file prompt retries log in
  exists runs,
    1 <= runs <= S retries
    /\ reads out.2 = reads log ++ replicate runs file
    /\ sleeps out.2 = sleeps log ++ replicate (runs - 1) 1000%Z
    /\ (forall e, out.1 = inl e -> runs = S retries)
    /\ length (modelCalls out.2) <= length (modelCalls log) + 2 * runs.
Proof.
  cbv zeta. revert log. induction retries as [|n IH]; intros log.
  - rewrite generateWithRetry_0. exists 1.
    destruct (generateStyledImage_log sdk readFile apiErrorMessage
                file prompt log) as [Hr Hs].
    pose proof (generateStyledImage_calls file prompt log) as Hc.
    repeat split; try lia; try assumption.
    simpl. rewrite app_nil_r. exact Hs.
  - rewrite generateWithRetry_S.
    destruct (generateStyledImage_log sdk readFile apiErrorMessage
                file prompt log) as [Hr Hs].
    pose proof (generateStyledImage_calls file prompt log) as Hc.
    destruct (styled file prompt log) as [[e|u] l]; simpl in Hr, Hs, Hc.
    + destruct (IH (l ++ [EvSleep 1000%Z]))
        as (runs & Hb & Hreads & Hsleeps & Hthrow & Hcalls).
      exists (S runs).
      rewrite reads_app, sleeps_app, modelCalls_app in *.
      simpl in Hreads, Hsleeps, Hcalls. rewrite app_nil_r in *.
      split; [lia|]. split; [|split; [|split]].
      * rewrite Hreads, Hr. simpl. rewrite <- app_assoc. reflexivity.
      * rewrite Hsleeps, Hs. rewrite <- app_assoc.
        replace (S runs - 1) with (S (runs - 1)) by lia. reflexivity.
      * intros e0 He0. rewrite (Hthrow e0 He0). reflexivity.
      * lia.
    + exists 1. simpl. rewrite app_nil_r.
      repeat split; try lia; try assumption. discriminate.
Qed.

End ServiceFailures.

Lemma generateDecadeImage_failures_witness :
  Service.generateDecadeImage Samples.downSdk Samples.plainMessage
    "not a data URL" "a 1950s portrait" []
  = (inl (newError "Invalid image data URL format."), []).
Proof.
  exact (proj1 (proj2 (generateDecadeImage_failures Samples.downSdk
                         Samples.plainMessage "not a data URL"
                         "a 1950s portrait" [])) eq_refl).
Defined.

Lemma generateWithRetry_runs_witness :
  exists runs,
    1 <= runs <= 3
    /\ Service.reads
         (Service.generateWithRetry Samples.downSdk Samples.pngReader
            Samples.plainMessage Samples.photo "noir" 2 []).2
       = replicate runs Samples.photo.
Proof.
  destruct (generateWithRetry_runs Samples.downSdk Samples.pngReader
              Samples.plainMessage Samples.photo "noir" 2 [])
    as (runs & Hb & Hr & _).
  exists runs. split; [exact Hb|exact Hr].
Defined.

(** ** BeatSyncPage: the pool in every reachable state *)

Section BeatSyncRuns.

Import BeatSync BeatSyncVideo.

Lemma settle_all_work (started : nat) (tasks : list (nat * string))
    (answers : list (nat * (Thrown + string))) (p p' : Run) :
  pool_inv started tasks p -> settle_all answers p = Some p' ->
  length answers + pending_work p' = pending_work p.
Proof.
  revert p. induction answers as [|[index awaited] answers IH];
    intros p Hinv Hrun; simpl in Hrun.
  - injection Hrun as <-. reflexivity.
  - destruct (settle index awaited p) as [p1|] eqn:Hsettle; [|discriminate].
    pose proof (settle_work _ _ _ _ _ _ Hinv Hsettle) as Hwork.
    pose proof (IH p1 (settle_inv _ _ _ _ _ _ Hinv Hsettle) Hrun) as Hrest.
    simpl. lia.
Qed.

Lemma handleGenerate_work (file : File) (imageCount : nat)
    (stylePrompts : list string) (p0 : Run) :
  pending_work (handleGenerate (Some file) imageCount stylePrompts p0)
  = length stylePrompts.
Proof.
  unfold handleGenerate, concurrencyLimit. simpl.
  rewrite !worker_loop_work. unfold pending_work. simpl.
  rewrite length_imap. lia.
Qed.

Lemma returned_no_work (tasks : list (nat * string)) (p : Run) :
  pool_inv concurrencyLimit tasks p ->
  returned p = true <-> pending_work p = 0.
Proof.
  intros [_ Hw Hd _ _]. unfold returned, pending_work, concurrencyLimit in *.
  rewrite Nat.eqb_eq. split.
  - intros Hret. rewrite Hd by lia. simpl. lia.
  - intros Hwork. lia.
Qed.

(** X16. The pool of BeatSyncPage in every state a run can reach, whatever
    the order and the outcomes of the settlements: at most three generations
    are in flight, the prompts leave the queue in their order, and no index
    is in flight twice or in flight while still queued. *)
Theorem handleGenerate_pool_discipline (file : File) (imageCount : nat)
    (stylePrompts : list string) (p0 p : Run)
    (answers : list (nat * (Thrown + string))) :
  imageCount <= length stylePrompts ->
  settle_all answers (handleGenerate (Some file) imageCount stylePrompts p0)
  = Some p ->
  length (inFlight p) <= concurrencyLimit
  /\ dispatched p ++ promptsQueue p
     = imap (fun index prompt => (index, prompt)) stylePrompts
  /\ NoDup (promptsQueue p ++ inFlight p).*1
  /\ length (inFlight p) + workersReturned p = concurrencyLimit.
Proof.
  intros Hcount Hrun.
  pose proof (settle_all_inv _ _ _ _ _
                (handleGenerate_inv file imageCount stylePrompts p0 Hcount)
                Hrun) as [Ht Hw _ Hn _].
  split; [lia|]. split; [exact Ht|]. split; [exact Hn|exact Hw].
Qed.

(** X17. [handleGenerate] returns after exactly one settlement per prompt:
    a run that has seen [k] settlements has [length stylePrompts - k]
    generations queued or in flight, [Promise.all(workers)] has resolved
    exactly when that number is zero, and from every state a run can reach
    the remaining settlements, whatever their outcomes, lead to the
    return. *)
Theorem handleGenerate_returns_when_settled (file : File) (imageCount : nat)
    (stylePrompts : list string) (p0 p : Run)
    (answers : list (nat * (Thrown + string)))
    (outcome : nat -> Thrown + string) :
  imageCount <= length stylePrompts ->
  settle_all answers (handleGenerate (Some file) imageCount stylePrompts p0)
  = Some p ->
  length answers + pending_work p = length stylePrompts
  /\ (returned p = true <-> length answers = length stylePrompts)
  /\ exists more p',
       settle_all more p = Some p' /\ returned p' = true
       /\ length answers + length more = length stylePrompts
       /\ Forall (fun answer => answer.2 = outcome answer.1) more.
Proof.
  intros Hcount Hrun.
  pose proof (handleGenerate_inv file imageCount stylePrompts p0 Hcount)
    as Hinv0.
  pose proof (settle_all_inv _ _ _ _ _ Hinv0 Hrun) as Hinv.
  pose proof (settle_all_work _ _ _ _ _ Hinv0 Hrun) as Hwork.
  rewrite handleGenerate_work in Hwork.
  split; [exact Hwork|]. split.
  - rewrite (returned_no_work _ p Hinv). lia.
  - destruct (pool_runs_to_return outcome _ p Hinv)
      as (more & p' & Hmore & Hret & Hout).
    exists more, p'. split; [exact Hmore|]. split; [exact Hret|].
    split; [|exact Hout].
    pose proof (settle_all_work _ _ _ _ _ Hinv Hmore) as Hwork'.
    apply (returned_no_work _ p' (settle_all_inv _ _ _ _ _ Hinv Hmore))
      in Hret. lia.
Qed.





Lemma successful_urls (values : list GeneratedImage) :
  length (omap url (List.filter successful values))
  = length (List.filter successful values).
Proof.
  induction values as [|img values IH]; [reflexivity|]. simpl.
  destruct (successful img) eqn:Hs; [|exact IH].
  unfold successful in Hs. apply andb_true_iff in Hs as [_ Hu].
  change (omap url (img :: List.filter successful values))
    with (match url img with
          | Some u => u :: omap url (List.filter successful values)
          | None => omap url (List.filter successful values)
          end).
  destruct (url img); [simpl; f_equal; exact IH|discriminate].
Qed.

(** X19. The effect acts on a batch once: a pass that changed the store or
    called [createVideo] leaves a state other than generating-images, in
    which the next pass changes nothing and calls nothing. *)
Theorem batchEffect_acts_once (imageCount : nat) (p : Run) :
  batchEffect imageCount p <> (p, None) ->
  let p' := batchEffect_pass imageCount p in
  appState p' <> generating_images
  /\ batchEffect imageCount p' = (p', None).
Proof.
  intros Hact.
  assert (Hstate : appState (batchEffect_pass imageCount p)
                   <> generating_images).
  { unfold batchEffect_pass. revert Hact. unfold batchEffect.
    destruct (negb (bool_decide (appState p = generating_images))
              || (length (Object_values (generatedImages p)) =? 0)%nat);
      [congruence|].
    destruct ((length (Object_values (generatedImages p)) =? imageCount)%nat
              && forallb _ (Object_values (generatedImages p)));
      [|congruence].
    destruct (length (List.filter successful
                        (Object_values (generatedImages p))) =? 0)%nat;
      [intros _; simpl; discriminate|].
    intros _. unfold createVideo_start.
    destruct (length (omap url _) =? 0)%nat; simpl; discriminate. }
  cbv zeta. split; [exact Hstate|].
  unfold batchEffect at 1.
  rewrite (bool_decide_eq_false_2 _ Hstate). reflexivity.
Qed.

(** X20. The guard of [createVideo] against an empty list is never taken by
    its callers: the list the effect passes and the list
    [handleRegenerateVideo] passes are not empty, so [createVideo] goes on
    to render. *)
Theorem createVideo_callers_pass_urls (imageCount : nat) (p q : Run)
    (urls : list string) :
  (batchEffect imageCount p).2 = Some urls
  \/ (handleRegenerateVideo p).2 = Some urls ->
  0 < length urls
  /\ createVideo_start urls q = (setAppState generating_video q, true).
Proof.
  intros Hcall.
  assert (Hpos : 0 < length urls).
  { destruct Hcall as [Hcall|Hcall].
    - revert Hcall. unfold batchEffect.
      destruct (negb _ || _); [discriminate|].
      destruct (_ && _); [|discriminate].
      destruct (length (List.filter successful
                          (Object_values (generatedImages p))) =? 0)%nat
        eqn:Hlen; [discriminate|].
      cbv zeta. cbn [snd]. intros [= <-]. rewrite successful_urls.
      apply Nat.eqb_neq in Hlen. lia.
    - revert Hcall. unfold handleRegenerateVideo.
      destruct (0 <? length _)%nat eqn:Hlen; [|discriminate].
      cbn [snd]. intros [= <-]. apply Nat.ltb_lt in Hlen. exact Hlen. }
  split; [exact Hpos|]. unfold createVideo_start.
  destruct (Nat.eqb_spec (length urls) 0) as [E|_]; [lia|reflexivity].
Qed.

(** X21. On a store whose entries are pending or were written by
    [processQueue], the button of [handleRegenerateVideo] is enabled exactly
    when the handler calls [createVideo], and it passes the URLs of the done
    entries in the order of their indices.  When it returns after that call
    [appState] is generating-video, set by the first statement of
    [createVideo]; otherwise [appState] is error and [error] holds its
    message.  Every other cell of the store is as before. *)
Theorem handleRegenerateVideo_enabled (p : Run) :
  (forall img, img ∈ Object_values (generatedImages p) ->
     img = pendingImage \/ settledEntry img) ->
  (handleRegenerateVideo p).2
  = (if hasSuccessfulImages p
     then Some (omap url (List.filter isDone
                            (Object_values (generatedImages p))))
     else None)
  /\ (handleRegenerateVideo p).1
     = (if hasSuccessfulImages p
        then mkRun generating_video (error p) (notification p) (videoUrl p)
               (generatedImages p) (promptsQueue p) (inFlight p)
               (dispatched p) (workersReturned p)
        else mkRun app_error (Some "没有可用的图片来重新生成视频。")
               (notification p) (videoUrl p) (generatedImages p)
               (promptsQueue p) (inFlight p) (dispatched p)
               (workersReturned p)).
Proof.
  intros Hentries.
  assert (Hsame : List.filter successful (Object_values (generatedImages p))
                  = List.filter isDone (Object_values (generatedImages p))).
  { revert Hentries.
    generalize (Object_values (generatedImages p)) as values.
    induction values as [|img values IH]; intros Hentries; [reflexivity|].
    simpl. rewrite IH
      by (intros x Hx; apply Hentries, elem_of_cons; right; exact Hx).
    replace (successful img) with (isDone img); [reflexivity|].
    unfold successful, isDone.
    destruct (Hentries img ltac:(apply elem_of_cons; left; reflexivity))
      as [->|[Herr|[Hdone Hurl]]].
    - reflexivity.
    - rewrite !bool_decide_eq_false_2 by (rewrite Herr; discriminate).
      reflexivity.
    - rewrite Hurl, andb_true_r. reflexivity. }
  assert (Hsome : hasSuccessfulImages p
                  = (0 <? length (omap url (List.filter successful
                        (Object_values (generatedImages p)))))%nat).
  { rewrite successful_urls, Hsame. unfold hasSuccessfulImages.
    generalize (Object_values (generatedImages p)) as values.
    induction values as [|img values IH]; [reflexivity|].
    simpl. destruct (isDone img); [reflexivity|exact IH]. }
  unfold handleRegenerateVideo. rewrite Hsome.
  destruct (0 <? length _)%nat eqn:Hlen; cbn [fst snd].
  - rewrite Hsame. split; [reflexivity|].
    unfold createVideo_start. rewrite <- Hsame.
    apply Nat.ltb_lt in Hlen.
    destruct (Nat.eqb_spec (length (omap url (List.filter successful
                (Object_values (generatedImages p))))) 0) as [E|_];
      [lia|reflexivity].
  - split; reflexivity.
Qed.

End BeatSyncRuns.

Lemma handleGenerate_pool_discipline_witness :
  exists p,
    BeatSync.settle_all [(1, inr "data:image/png;base64,QQ==")]
      (BeatSync.handleGenerate (Some Samples.photo) 4
         ["noir"; "pop art"; "sketch"; "oil"] BeatSync.idlePage) = Some p
    /\ length (BeatSync.inFlight p) <= BeatSync.concurrencyLimit.
Proof.
  destruct (BeatSync.settle_all [(1, inr "data:image/png;base64,QQ==")]
              (BeatSync.handleGenerate (Some Samples.photo) 4
                 ["noir"; "pop art"; "sketch"; "oil"] BeatSync.idlePage))
    as [p|] eqn:Hrun.
  - exists p. split; [reflexivity|].
    exact (proj1 (handleGenerate_pool_discipline Samples.photo 4
                    ["noir"; "pop art"; "sketch"; "oil"] BeatSync.idlePage p
                    [(1, inr "data:image/png;base64,QQ==")]
                    (Nat.le_refl 4) Hrun)).
  - exfalso. vm_compute in Hrun. discriminate.
Defined.

Lemma handleGenerate_returns_when_settled_witness :
  exists p,
    BeatSync.settle_all [(1, inr "data:image/png;base64,QQ==")]
      (BeatSync.handleGenerate (Some Samples.photo) 4
         ["noir"; "pop art"; "sketch"; "oil"] BeatSync.idlePage) = Some p
    /\ 1 + BeatSync.pending_work p = 4.
Proof.
  destruct (BeatSync.settle_all [(1, inr "data:image/png;base64,QQ==")]
              (BeatSync.handleGenerate (Some Samples.photo) 4
                 ["noir"; "pop art"; "sketch"; "oil"] BeatSync.idlePage))
    as [p|] eqn:Hrun.
  - exists p. split; [reflexivity|].
    exact (proj1 (handleGenerate_returns_when_settled Samples.photo 4
                    ["noir"; "pop art"; "sketch"; "oil"] BeatSync.idlePage p
                    [(1, inr "data:image/png;base64,QQ==")]
                    (fun _ => inl (newError "quota exceeded"))
                    (Nat.le_refl 4) Hrun)).
  - exfalso. vm_compute in Hrun. discriminate.
Defined.


Lemma batchEffect_acts_once_witness :
  let images : gmap nat GeneratedImage :=
    <[0 := doneImage "data:image/png;base64,QQ=="]>
      (<[1 := errorImage "quota exceeded"]> ∅) in
  let p := BeatSync.mkRun BeatSync.generating_images None None None images
             [] [] [] 3 in
  let p' := BeatSyncVideo.batchEffect_pass 2 p in
  BeatSync.appState p' <> BeatSync.generating_images
  /\ BeatSync.batchEffect 2 p' = (p', None).
Proof.
  intros images p.
  apply (batchEffect_acts_once 2 p).
  intros E. apply (f_equal snd) in E. vm_compute in E. discriminate.
Defined.

Lemma createVideo_callers_pass_urls_witness :
  let images : gmap nat GeneratedImage :=
    <[0 := doneImage "data:image/png;base64,QQ=="]>
      (<[1 := errorImage "quota exceeded"]> ∅) in
  let p := BeatSync.mkRun BeatSync.results_shown None None
             (Some "blob:video") images [] [] [] 3 in
  BeatSyncVideo.createVideo_start ["data:image/png;base64,QQ=="] p
  = (BeatSync.setAppState BeatSync.generating_video p, true).
Proof.
  intros images p.
  exact (proj2 (createVideo_callers_pass_urls 2 p p
                  ["data:image/png;base64,QQ=="] (or_intror eq_refl))).
Defined.

Lemma handleRegenerateVideo_enabled_witness :
  let images : gmap nat GeneratedImage :=
    <[0 := doneImage "data:image/png;base64,QQ=="]>
      (<[1 := errorImage "quota exceeded"]> ∅) in
  let p := BeatSync.mkRun BeatSync.results_shown None None
             (Some "blob:video") images [] [] [] 3 in
  BeatSyncVideo.handleRegenerateVideo p
  = (BeatSync.mkRun BeatSync.generating_video None None
       (Some "blob:video") images [] [] [] 3,
     Some ["data:image/png;base64,QQ=="]).
Proof.
  intros images p.
  assert (Hentries : forall img,
            img ∈ BeatSync.Object_values (BeatSync.generatedImages p) ->
            img = pendingImage \/ BeatSync.settledEntry img).
  { apply Forall_forall. vm_compute.
    repeat (apply List.Forall_cons;
            [first [right; left; reflexivity
                   |right; right; split; reflexivity]|]).
    apply List.Forall_nil. }
  destruct (handleRegenerateVideo_enabled p Hentries) as [Hcall Hstore].
  rewrite (surjective_pairing (BeatSyncVideo.handleRegenerateVideo p)).
  rewrite Hcall, Hstore. reflexivity.
Defined.

(** ** PastForwardPage: every run of [handleGenerateClick] *)

Section PastForwardEveryRun.

Import PastForward PastForwardRuns.

Variable uploadedImage : option string.
Hypothesis Huploaded : Service.truthy uploadedImage = true.

Lemma NoDup_DECADES : NoDup DECADES.
Proof. apply (bool_decide_unpack _). vm_compute. exact I. Qed.

Lemma decade_truthy (decade : string) :
  decade ∈ DECADES -> Service.truthy (Some decade) = true.
Proof.
  unfold DECADES. intros H.
  repeat (apply elem_of_cons in H as [->|H]; [reflexivity|]).
  apply elem_of_nil in H. destruct H.
Qed.

Lemma queued_not_dispatched (started fired : nat) (p : Run)
    (decade : string) :
  run_inv started fired p -> decade ∈ decadesQueue p ->
  (decade ∉ dispatched p) /\ (decade ∉ (inFlight p).*1).
Proof.
  intros [Ht Hfl _ _ _ _ _ _ _] Hq.
  pose proof NoDup_DECADES as Hnd. rewrite <- Ht in Hnd.
  apply NoDup_app in Hnd as (_ & Hdisj & _).
  assert (Hnot : decade ∉ dispatched p).
  { intros Hd. exact (Hdisj decade Hd Hq). }
  split; [exact Hnot|]. intros Hin.
  apply list_elem_of_fmap in Hin as (task & -> & Hin).
  exact (Hnot (Hfl task Hin)).
Qed.


(** A generation is issued for the head of the queue, by a worker loop
    ([byLoop]) or by a call of [processQueue] nobody awaits. *)
Lemma dispatch_inv (started fired : nat) (p : Run) (decade : string)
    (rest : list string) (byLoop : bool) :
  run_inv started fired p -> decadesQueue p = decade :: rest ->
  run_inv (if byLoop then S started else started)
          (if byLoop then fired else S fired)
          (generateSingleDecade_start uploadedImage decade byLoop
             (setDecadesQueue rest p)).
Proof.
  intros Hinv Hq.
  destruct (queued_not_dispatched _ _ p decade Hinv) as [Hnd Hnf].
  { rewrite Hq. apply elem_of_cons. left. reflexivity. }
  destruct Hinv as [Ht Hfl Hn Hl Hu Hd Hp Hs Hk].
  unfold generateSingleDecade_start. rewrite Huploaded.
  constructor; simpl.
  - rewrite <- app_assoc. simpl. rewrite <- Hq. exact Ht.
  - intros task Hin. apply elem_of_app in Hin as [Hin|Hin].
    + apply elem_of_app. left. apply Hfl, Hin.
    + apply list_elem_of_singleton in Hin as ->. simpl.
      apply elem_of_app. right. apply list_elem_of_singleton. reflexivity.
  - rewrite fmap_app. apply NoDup_app. split; [exact Hn|]. split.
    + intros x Hx Hx'. simpl in Hx'.
      apply list_elem_of_singleton in Hx' as ->. exact (Hnf Hx).
    + simpl. apply NoDup_singleton.
  - unfold awaitedByLoop in *. simpl. rewrite filter_app, length_app.
    destruct byLoop.
    + rewrite filter_cons_True by reflexivity. simpl. lia.
    + rewrite filter_cons_False by discriminate. simpl. lia.
  - unfold unawaited in *. simpl. rewrite filter_app, length_app.
    destruct byLoop.
    + rewrite filter_cons_False by discriminate. simpl. lia.
    + rewrite filter_cons_True by reflexivity. simpl. lia.
  - intros Hpos. specialize (Hd Hpos). rewrite Hq in Hd. discriminate.
  - intros d Hin. destruct (decide (decade = d)) as [->|Hne].
    + apply lookup_insert_eq.
    + rewrite lookup_insert_ne by exact Hne. apply Hp.
      rewrite Hq. rewrite fmap_app, !elem_of_app in Hin. simpl in Hin.
      rewrite list_elem_of_singleton in Hin.
      rewrite elem_of_app, elem_of_cons.
      destruct Hin as [Hin|[Hin|Hin]]; [tauto|tauto|congruence].
  - intros d img Hi Hnot. destruct (decide (decade = d)) as [->|Hne].
    + exfalso. apply Hnot. rewrite fmap_app, !elem_of_app. simpl.
      right. right. apply list_elem_of_singleton. reflexivity.
    + rewrite lookup_insert_ne in Hi by exact Hne. apply (Hs d img Hi).
      intros Hin. apply Hnot. rewrite Hq in Hin.
      rewrite elem_of_app, elem_of_cons in Hin.
      rewrite fmap_app, !elem_of_app.
      destruct Hin as [[Hin|Hin]|Hin]; [congruence|tauto|tauto].
  - intros d Hin. destruct (decide (decade = d)) as [->|Hne].
    + rewrite lookup_insert_eq. eauto.
    + rewrite lookup_insert_ne by exact Hne. apply Hk, Hin.
Qed.

Lemma queue_head_decade (started fired : nat) (p : Run) (decade : string)
    (rest : list string) :
  run_inv started fired p -> decadesQueue p = decade :: rest ->
  decade ∈ DECADES.
Proof.
  intros [Ht _ _ _ _ _ _ _ _] Hq. rewrite <- Ht, Hq.
  apply elem_of_app. right. apply elem_of_cons. left. reflexivity.
Qed.

Lemma worker_loop_run (started fired : nat) (p : Run) :
  run_inv started fired p ->
  worker_loop uploadedImage (decadesQueue p) p
  = match decadesQueue p with
    | [] =>
        mkRun (appState p) (isLoading p) (error p) (generatedImages p)
          (decadesQueue p) (inFlight p) (dispatched p) (S (loopsReturned p))
    | decade :: rest =>
        generateSingleDecade_start uploadedImage decade true
          (setDecadesQueue rest p)
    end.
Proof.
  intros Hinv. destruct (decadesQueue p) as [|decade rest] eqn:Hq.
  - simpl. rewrite Hq. reflexivity.
  - cbn [worker_loop].
    rewrite (decade_truthy decade (queue_head_decade _ _ _ _ _ Hinv Hq)).
    rewrite Huploaded. reflexivity.
Qed.

(** Starting one more worker loop, or letting a loop go round. *)
Lemma worker_loop_run_inv (started fired : nat) (p : Run) :
  run_inv started fired p ->
  run_inv (S started) fired (worker_loop uploadedImage (decadesQueue p) p).
Proof.
  intros Hinv. rewrite (worker_loop_run _ _ _ Hinv).
  destruct (decadesQueue p) as [|decade rest] eqn:Hq.
  - destruct Hinv as [Ht Hfl Hn Hl Hu Hd Hp Hs Hk].
    constructor; simpl; rewrite ?Hq in *; try assumption.
    + unfold awaitedByLoop in *. simpl. lia.
    + intros _. reflexivity.
  - exact (dispatch_inv started fired p decade rest true Hinv Hq).
Qed.

(** A call of [processQueue] that nobody awaits. *)
Lemma processQueue_start_inv (started fired : nat) (p : Run) :
  run_inv started fired p ->
  run_inv started (S fired) (PastForward.processQueue_start uploadedImage p).
Proof.
  intros Hinv. unfold PastForward.processQueue_start.
  destruct (decadesQueue p) as [|decade rest] eqn:Hq.
  - destruct Hinv as [Ht Hfl Hn Hl Hu Hd Hp Hs Hk].
    constructor; try assumption. lia.
  - cbv zeta.
    rewrite (decade_truthy decade (queue_head_decade _ _ _ _ _ Hinv Hq)).
    exact (dispatch_inv started fired p decade rest false Hinv Hq).
Qed.

Lemma finish_inv (started fired : nat) (p : Run) :
  run_inv started fired p ->
  run_inv started fired (if allLoopsReturned p then finish p else p).
Proof.
  intros Hinv. destruct (allLoopsReturned p); [|exact Hinv].
  destruct Hinv as [Ht Hfl Hn Hl Hu Hd Hp Hs Hk].
  constructor; simpl; assumption.
Qed.

Lemma filter_decade_absent (l : list (string * bool)) (decade : string) :
  decade ∉ l.*1 -> filter (fun task => task.1 ≠ decade) l = l.
Proof.
  induction l as [|a l IH]; intros Hd; [reflexivity|].
  rewrite fmap_cons, not_elem_of_cons in Hd. destruct Hd as [Hne Hd].
  rewrite filter_cons_True by (intros E; apply Hne; symmetry; exact E).
  rewrite IH by exact Hd. reflexivity.
Qed.

(** What a settlement takes out of [inFlight]: the one generation of the
    decade, awaited or not as [list_find] reports. *)
Lemma settled_task (l : list (string * bool)) (decade d : string)
    (i : nat) (byLoop : bool) :
  NoDup l.*1 ->
  list_find (fun task => task.1 = decade) l = Some (i, (d, byLoop)) ->
  d = decade /\ decade ∈ l.*1
  /\ length (filter (fun task => task.2 = true)
               (filter (fun task => task.1 ≠ decade) l))
     + (if byLoop then 1 else 0)
     = length (filter (fun task => task.2 = true) l)
  /\ length (filter (fun task => task.2 = false)
               (filter (fun task => task.1 ≠ decade) l))
     + (if byLoop then 0 else 1)
     = length (filter (fun task => task.2 = false) l)
  /\ S (length (filter (fun task => task.1 ≠ decade) l)) = length l.
Proof.
  revert i. induction l as [|[d0 b0] l IH]; intros i Hnd Hfind;
    [discriminate|].
  rewrite fmap_cons in Hnd. apply NoDup_cons in Hnd as [Hd0 Hnd].
  simpl in Hfind. destruct (decide (d0 = decade)) as [->|Hne].
  - injection Hfind as <- <- <-.
    rewrite filter_cons_False by (intros E; apply E; reflexivity).
    rewrite (filter_decade_absent l decade Hd0).
    split; [reflexivity|]. split; [apply elem_of_cons; left; reflexivity|].
    destruct b0.
    + rewrite filter_cons_True by reflexivity.
      rewrite (filter_cons_False (fun task => task.2 = false))
        by discriminate.
      simpl. lia.
    + rewrite filter_cons_False by discriminate.
      rewrite (filter_cons_True (fun task => task.2 = false))
        by reflexivity.
      simpl. lia.
  - destruct (list_find (fun task => task.1 = decade) l)
      as [[j [d1 b1]]|] eqn:Hl; [|discriminate].
    simpl in Hfind. injection Hfind as <- <- <-.
    destruct (IH j Hnd eq_refl) as (-> & Hin & Ha & Hu & Hlen).
    split; [reflexivity|]. split; [apply elem_of_cons; right; exact Hin|].
    rewrite (filter_cons_True (fun task => task.1 ≠ decade)) by exact Hne.
    destruct b0.
    + rewrite !(filter_cons_True (fun task => task.2 = true))
        by reflexivity.
      rewrite !(filter_cons_False (fun task => task.2 = false))
        by discriminate.
      simpl. lia.
    + rewrite !(filter_cons_False (fun task => task.2 = true))
        by discriminate.
      rewrite !(filter_cons_True (fun task => task.2 = false))
        by reflexivity.
      simpl. lia.
Qed.

(** The rest of [generateSingleDecade] for a decade in flight. *)
Lemma remove_inv (started fired : nat) (p : Run) (decade d : string)
    (i : nat) (byLoop : bool) (awaited : Thrown + string) :
  run_inv started fired p ->
  list_find (fun task => task.1 = decade) (inFlight p)
  = Some (i, (d, byLoop)) ->
  run_inv (if byLoop then pred started else started) fired
    (mkRun (appState p) (isLoading p) (error p)
       (<[decade := settledImage awaited]> (generatedImages p))
       (decadesQueue p)
       (filter (fun task => task.1 ≠ decade) (inFlight p))
       (dispatched p) (loopsReturned p))
  /\ (byLoop = true -> 0 < started /\ loopsReturned p < started)
  /\ S (length (filter (fun task => task.1 ≠ decade) (inFlight p)))
     = length (inFlight p).
Proof.
  intros Hinv Hfind. pose proof Hinv as [Ht Hfl Hn Hl Hu Hd Hp Hs Hk].
  destruct (settled_task _ _ _ _ _ Hn Hfind) as (-> & Hin & Ha & Hua & Hlen).
  assert (Hnq : decade ∉ decadesQueue p).
  { intros Hq.
    destruct (queued_not_dispatched _ _ p decade Hinv Hq) as [_ Hnf].
    exact (Hnf Hin). }
  assert (Hgone : decade ∉ (filter (fun task => task.1 ≠ decade)
                              (inFlight p)).*1).
  { intros Hx. apply list_elem_of_fmap in Hx as (task & E & Hx).
    apply list_elem_of_filter in Hx as [Hne _]. apply Hne. symmetry. exact E. }
  assert (Hkeep : forall x, x <> decade ->
            x ∈ (filter (fun task => task.1 ≠ decade) (inFlight p)).*1
            <-> x ∈ (inFlight p).*1).
  { intros x Hx. rewrite !list_elem_of_fmap. split.
    - intros (task & E & Hf). apply list_elem_of_filter in Hf as [_ Hf].
      exists task. split; assumption.
    - intros (task & E & Hf). exists task. split; [exact E|].
      apply list_elem_of_filter. split; [|exact Hf]. rewrite <- E. exact Hx. }
  split; [|split; [|exact Hlen]].
  - constructor; simpl.
    + exact Ht.
    + intros task Hf. apply list_elem_of_filter in Hf as [_ Hf].
      apply Hfl, Hf.
    + eapply sublist_NoDup; [exact Hn|].
      apply fmap_sublist, sublist_filter.
    + unfold awaitedByLoop in *. simpl. destruct byLoop; lia.
    + unfold unawaited in *. simpl. destruct byLoop; lia.
    + exact Hd.
    + intros x Hx. apply elem_of_app in Hx as [Hx|Hx].
      * assert (Hne : decade <> x) by (intros ->; exact (Hnq Hx)).
        rewrite lookup_insert_ne by exact Hne.
        apply Hp, elem_of_app. left. exact Hx.
      * assert (Hne : x <> decade) by (intros ->; exact (Hgone Hx)).
        rewrite lookup_insert_ne by (intros E; apply Hne; symmetry; exact E).
        apply Hp, elem_of_app. right. apply (Hkeep x Hne), Hx.
    + intros x img Hi Hnot. destruct (decide (decade = x)) as [->|Hne].
      * rewrite lookup_insert_eq in Hi. injection Hi as <-.
        destruct awaited; reflexivity.
      * rewrite lookup_insert_ne in Hi by exact Hne. apply (Hs x img Hi).
        intros Hx. apply Hnot. apply elem_of_app in Hx as [Hx|Hx];
          apply elem_of_app; [left; exact Hx|right].
        apply Hkeep; [intros E; apply Hne; symmetry; exact E|exact Hx].
    + intros x Hx. destruct (decide (decade = x)) as [->|Hne].
      * rewrite lookup_insert_eq. eauto.
      * rewrite lookup_insert_ne by exact Hne. apply Hk, Hx.
  - intros ->. unfold awaitedByLoop in Hl. lia.
Qed.

(** A settlement keeps the invariant of a run with both loops started. *)
Lemma settle_run_inv (fired : nat) (p p' : Run) (decade : string)
    (awaited : Thrown + string) :
  run_inv concurrencyLimit fired p ->
  settle uploadedImage decade awaited p = Some p' ->
  run_inv concurrencyLimit fired p'.
Proof.
  intros Hinv Hsettle. unfold settle in Hsettle.
  destruct (list_find (fun task => task.1 = decade) (inFlight p))
    as [[i [d byLoop]]|] eqn:Hfind; [|discriminate].
  destruct (remove_inv _ _ p decade d i byLoop awaited Hinv Hfind)
    as (Hrem & Hloop & _).
  destruct byLoop; injection Hsettle as <-.
  - cbv zeta. apply finish_inv.
    destruct (Hloop eq_refl) as [Hpos _].
    replace concurrencyLimit with (S (pred concurrencyLimit)) at 1
      by (unfold concurrencyLimit; reflexivity).
    exact (worker_loop_run_inv _ _ _ Hrem).
  - exact Hrem.
Qed.

Lemma settle_all_run_inv (fired : nat)
    (answers : list (string * (Thrown + string))) (p p' : Run) :
  run_inv concurrencyLimit fired p ->
  settle_all uploadedImage answers p = Some p' ->
  run_inv concurrencyLimit fired p'.
Proof.
  revert p. induction answers as [|[decade awaited] answers IH];
    intros p Hinv Hrun; simpl in Hrun.
  - injection Hrun as <-. exact Hinv.
  - destruct (settle uploadedImage decade awaited p) as [p1|] eqn:Hsettle;
      [|discriminate].
    exact (IH p1 (settle_run_inv _ _ _ _ _ Hinv Hsettle) Hrun).
Qed.

Lemma initialDecades_lookup (l : list string) (decade : string)
    (img : GeneratedImage) (m : gmap string GeneratedImage) :
  foldl (fun m decade => <[decade := pendingImage]> m) m l !! decade
  = Some img ->
  (decade ∈ l /\ img = pendingImage) \/ m !! decade = Some img.
Proof.
  revert m. induction l as [|d l IH]; intros m; simpl.
  - intros H. right. exact H.
  - intros H. destruct (IH _ H) as [[Hin ->]|Hm].
    + left. split; [apply elem_of_cons; right; exact Hin|reflexivity].
    + destruct (decide (d = decade)) as [->|Hne].
      * rewrite lookup_insert_eq in Hm. injection Hm as <-.
        left. split; [apply elem_of_cons; left; reflexivity|reflexivity].
      * rewrite lookup_insert_ne in Hm by exact Hne. right. exact Hm.
Qed.

Lemma initialDecades_keys (l : list string) (decade : string)
    (m : gmap string GeneratedImage) :
  decade ∈ l ->
  is_Some (foldl (fun m decade => <[decade := pendingImage]> m) m l
           !! decade).
Proof.
  revert m. induction l as [|d l IH]; intros m Hin.
  - apply elem_of_nil in Hin. destruct Hin.
  - simpl. destruct (decide (decade ∈ l)) as [Hl|Hl]; [apply IH, Hl|].
    apply elem_of_cons in Hin as [->|Hin]; [|contradiction].
    clear IH. revert m. induction l as [|d' l IH]; intros m; simpl.
    + rewrite lookup_insert_eq. eauto.
    + rewrite not_elem_of_cons in Hl. destruct Hl as [Hne Hl].
      rewrite insert_insert_ne by congruence. apply IH, Hl.
Qed.

(** The invariant holds when [handleGenerateClick] reaches its [await]. *)
Lemma handleGenerateClick_run_inv (p0 : Run) :
  run_inv concurrencyLimit concurrencyLimit
    (handleGenerateClick uploadedImage p0).
Proof.
  unfold handleGenerateClick. rewrite Huploaded. cbv zeta.
  apply finish_inv. unfold concurrencyLimit.
  change (Nat.iter 2 ?f ?x) with (f (f x)).
  do 2 apply worker_loop_run_inv. do 2 apply processQueue_start_inv.
  constructor; simpl.
  - reflexivity.
  - intros task Hin. apply elem_of_nil in Hin. destruct Hin.
  - apply NoDup_nil_2.
  - reflexivity.
  - lia.
  - lia.
  - intros decade Hin. change (decade ∈ DECADES) in Hin.
    change (foldl (fun (m : gmap string GeneratedImage) decade =>
                     <[decade := pendingImage]> m) ∅ DECADES
            !! decade = Some pendingImage).
    destruct (initialDecades_keys DECADES decade ∅ Hin) as [img Himg].
    rewrite Himg.
    destruct (initialDecades_lookup _ _ _ _ Himg) as [[_ ->]|Hm];
      [reflexivity|].
    rewrite lookup_empty in Hm. discriminate.
  - intros decade img Hi Hnot. exfalso. apply Hnot.
    change (decade ∈ DECADES).
    change (foldl (fun (m : gmap string GeneratedImage) decade =>
                     <[decade := pendingImage]> m) ∅ DECADES
            !! decade = Some img) in Hi.
    destruct (initialDecades_lookup _ _ _ _ Hi) as [[Hin _]|Hm];
      [exact Hin|].
    rewrite lookup_empty in Hm. discriminate.
  - intros decade Hin. apply (initialDecades_keys DECADES decade ∅ Hin).
Qed.

Lemma worker_loop_shown (queue : list string) (p : Run) :
  appState (worker_loop uploadedImage queue p) = appState p
  /\ isLoading (worker_loop uploadedImage queue p) = isLoading p.
Proof.
  clear Huploaded.
  revert p. induction queue as [|decade rest IH]; intros p;
    cbn [worker_loop].
  - split; reflexivity.
  - destruct (Service.truthy (Some decade) && Service.truthy uploadedImage).
    + unfold generateSingleDecade_start.
      destruct (Service.truthy uploadedImage); split; reflexivity.
    + exact (IH (setDecadesQueue rest p)).
Qed.

Lemma processQueue_start_shown (p : Run) :
  appState (PastForward.processQueue_start uploadedImage p) = appState p
  /\ isLoading (PastForward.processQueue_start uploadedImage p) = isLoading p.
Proof.
  clear Huploaded. unfold PastForward.processQueue_start.
  destruct (decadesQueue p) as [|decade rest]; [split; reflexivity|].
  cbv zeta. destruct (Service.truthy (Some decade)); [|split; reflexivity].
  unfold generateSingleDecade_start.
  destruct (Service.truthy uploadedImage); split; reflexivity.
Qed.

Lemma finish_shown (p : Run) :
  appState p = generating -> isLoading p = true ->
  shown_ok (if allLoopsReturned p then finish p else p).
Proof.
  intros Hs Hl. unfold shown_ok.
  destruct (allLoopsReturned p) eqn:Hret.
  - change (allLoopsReturned (finish p)) with (allLoopsReturned p).
    rewrite Hret. split; reflexivity.
  - rewrite Hret. split; assumption.
Qed.

Lemma handleGenerateClick_shown (p0 : Run) :
  shown_ok (handleGenerateClick uploadedImage p0).
Proof.
  unfold handleGenerateClick. rewrite Huploaded. cbv zeta.
  unfold concurrencyLimit, Nat.iter. cbn [nat_rect].
  apply finish_shown.
  - rewrite !(proj1 (worker_loop_shown _ _)).
    rewrite !(proj1 (processQueue_start_shown _)). reflexivity.
  - rewrite !(proj2 (worker_loop_shown _ _)).
    rewrite !(proj2 (processQueue_start_shown _)). reflexivity.
Qed.

Lemma settle_shown (fired : nat) (p p' : Run) (decade : string)
    (awaited : Thrown + string) :
  run_inv concurrencyLimit fired p -> shown_ok p ->
  settle uploadedImage decade awaited p = Some p' -> shown_ok p'.
Proof.
  intros Hinv [Hs Hl] Hsettle. unfold settle in Hsettle.
  destruct (list_find (fun task => task.1 = decade) (inFlight p))
    as [[i [d byLoop]]|] eqn:Hfind; [|discriminate].
  destruct (remove_inv _ _ p decade d i byLoop awaited Hinv Hfind)
    as (_ & Hloop & _).
  destruct byLoop; injection Hsettle as <-.
  - cbv zeta. destruct (Hloop eq_refl) as [_ Hlt].
    assert (Hnot : allLoopsReturned p = false).
    { unfold allLoopsReturned. apply Nat.eqb_neq. lia. }
    rewrite Hnot in Hs, Hl.
    apply finish_shown.
    + rewrite (proj1 (worker_loop_shown _ _)). exact Hs.
    + rewrite (proj2 (worker_loop_shown _ _)). exact Hl.
  - split; [exact Hs|exact Hl].
Qed.

Lemma settle_all_shown (fired : nat)
    (answers : list (string * (Thrown + string))) (p p' : Run) :
  run_inv concurrencyLimit fired p -> shown_ok p ->
  settle_all uploadedImage answers p = Some p' -> shown_ok p'.
Proof.
  revert p. induction answers as [|[decade awaited] answers IH];
    intros p Hinv Hshown Hrun; simpl in Hrun.
  - injection Hrun as <-. exact Hshown.
  - destruct (settle uploadedImage decade awaited p) as [p1|] eqn:Hsettle;
      [|discriminate].
    exact (IH p1 (settle_run_inv _ _ _ _ _ Hinv Hsettle)
             (settle_shown _ _ _ _ _ Hinv Hshown Hsettle) Hrun).
Qed.

(** The album is complete exactly when nothing is queued or in flight. *)
Lemma isGenerationComplete_iff (started fired : nat) (p : Run) :
  run_inv started fired p ->
  isGenerationComplete p = true
  <-> decadesQueue p = [] /\ inFlight p = [].
Proof.
  intros [_ _ _ _ _ _ Hp Hs _]. unfold isGenerationComplete. split.
  - intros Hall. rewrite forallb_forall in Hall.
    destruct (decadesQueue p ++ (inFlight p).*1) as [|decade l] eqn:Hwork.
    + apply app_eq_nil in Hwork as [Hq Hf].
      split; [exact Hq|]. exact (fmap_nil_inv _ _ Hf).
    + exfalso.
      assert (Hin : pendingImage ∈ (map_to_list (generatedImages p)).*2).
      { apply list_elem_of_fmap. exists (decade, pendingImage).
        split; [reflexivity|]. apply elem_of_map_to_list, Hp.
        apply elem_of_cons. left. reflexivity. }
      apply list_elem_of_In in Hin. specialize (Hall _ Hin). discriminate.
  - intros [Hq Hf]. apply forallb_forall. intros img Hin.
    apply list_elem_of_In, list_elem_of_fmap in Hin as ([k x] & -> & Hin).
    apply elem_of_map_to_list in Hin.
    assert (Hterm : terminal x = true).
    { apply (Hs k x Hin). rewrite Hq, Hf. apply not_elem_of_nil. }
    simpl. unfold terminal in Hterm.
    destruct (status x); [discriminate|reflexivity|reflexivity].
Qed.


Lemma worker_loop_run_work (started fired : nat) (p : Run) :
  run_inv started fired p ->
  pending_work (worker_loop uploadedImage (decadesQueue p) p)
  = pending_work p.
Proof.
  intros Hinv. rewrite (worker_loop_run _ _ _ Hinv). unfold pending_work.
  destruct (decadesQueue p) as [|decade rest] eqn:Hq; simpl.
  - rewrite ?Hq. reflexivity.
  - unfold generateSingleDecade_start. rewrite Huploaded. simpl.
    rewrite length_app. simpl. lia.
Qed.

Lemma finish_work (p : Run) :
  pending_work (if allLoopsReturned p then finish p else p) = pending_work p.
Proof. destruct (allLoopsReturned p); reflexivity. Qed.

(** A settlement takes one generation away. *)
Lemma settle_run_work (fired : nat) (p p' : Run) (decade : string)
    (awaited : Thrown + string) :
  run_inv concurrencyLimit fired p ->
  settle uploadedImage decade awaited p = Some p' ->
  S (pending_work p') = pending_work p.
Proof.
  intros Hinv Hsettle. unfold settle in Hsettle.
  destruct (list_find (fun task => task.1 = decade) (inFlight p))
    as [[i [d byLoop]]|] eqn:Hfind; [|discriminate].
  destruct (remove_inv _ _ p decade d i byLoop awaited Hinv Hfind)
    as (Hrem & _ & Hlen).
  destruct byLoop; injection Hsettle as <-.
  - cbv zeta. rewrite finish_work.
    pose proof (worker_loop_run_work _ _ _ Hrem) as Hw.
    cbn [decadesQueue] in Hw. rewrite Hw.
    unfold pending_work. simpl. lia.
  - unfold pending_work. simpl. lia.
Qed.

Lemma settle_all_run_work (fired : nat)
    (answers : list (string * (Thrown + string))) (p p' : Run) :
  run_inv concurrencyLimit fired p ->
  settle_all uploadedImage answers p = Some p' ->
  length answers + pending_work p' = pending_work p.
Proof.
  revert p. induction answers as [|[decade awaited] answers IH];
    intros p Hinv Hrun; simpl in Hrun.
  - injection Hrun as <-. reflexivity.
  - destruct (settle uploadedImage decade awaited p) as [p1|] eqn:Hsettle;
      [|discriminate].
    pose proof (settle_run_work _ _ _ _ _ Hinv Hsettle) as Hwork.
    pose proof (IH p1 (settle_run_inv _ _ _ _ _ Hinv Hsettle) Hrun) as Hrest.
    simpl. lia.
Qed.

Lemma handleGenerateClick_start (p0 : Run) :
  handleGenerateClick uploadedImage p0
  = handleGenerateClick Samples.photoUrl uploadedPage.
Proof.
  destruct uploadedImage as [[|c s]|]; try discriminate. reflexivity.
Qed.

(** Whatever each generation settles with, the settlements can be played
    until nothing is queued or in flight. *)
Lemma run_to_completion (outcome : string -> Thrown + string) (fired : nat)
    (p : Run) :
  run_inv concurrencyLimit fired p ->
  exists more p',
    settle_all uploadedImage more p = Some p'
    /\ decadesQueue p' = [] /\ inFlight p' = []
    /\ Forall (fun answer => answer.2 = outcome answer.1) more.
Proof.
  remember (pending_work p) as n eqn:Hn.
  revert p Hn. induction n as [n IH] using lt_wf_ind. intros p Hn Hinv.
  destruct (inFlight p) as [|[decade byLoop] rest] eqn:Hfl.
  - exists [], p. split; [reflexivity|]. split; [|split; [exact Hfl|constructor]].
    destruct Hinv as [_ _ _ Hl _ Hd _ _ _]. apply Hd.
    unfold awaitedByLoop in Hl. rewrite Hfl in Hl. simpl in Hl.
    unfold concurrencyLimit in Hl. lia.
  - destruct (settle uploadedImage decade (outcome decade) p) as [p1|]
      eqn:Hsettle.
    + pose proof (settle_run_work _ _ _ _ _ Hinv Hsettle) as Hwork.
      destruct (IH (pending_work p1) ltac:(lia) p1 eq_refl
                  (settle_run_inv _ _ _ _ _ Hinv Hsettle))
        as (more & p' & Hrun & Hq & Hf & Hout).
      exists ((decade, outcome decade) :: more), p'.
      split; [simpl; rewrite Hsettle; exact Hrun|].
      split; [exact Hq|]. split; [exact Hf|].
      constructor; [reflexivity|exact Hout].
    + exfalso. unfold settle in Hsettle. rewrite Hfl in Hsettle.
      simpl in Hsettle. rewrite decide_True in Hsettle by reflexivity.
      destruct byLoop; discriminate.
Qed.

(** X23. A run of [handleGenerateClick] ends after one settlement per
    decade: a run that has seen [k] settlements has [6 - k] generations
    queued or in flight, and from every state it can reach the remaining
    settlements, whatever their outcomes, lead to a complete album with the
    results shown and the spinner off. *)
Theorem handleGenerateClick_completes (p0 p : Run)
    (answers : list (string * (Thrown + string)))
    (outcome : string -> Thrown + string) :
  settle_all uploadedImage answers (handleGenerateClick uploadedImage p0)
  = Some p ->
  length answers + pending_work p = length DECADES
  /\ exists more p',
       settle_all uploadedImage more p = Some p'
       /\ length answers + length more = length DECADES
       /\ Forall (fun answer => answer.2 = outcome answer.1) more
       /\ isGenerationComplete p' = true
       /\ appState p' = results_shown
       /\ isLoading p' = false.
Proof.
  intros Hrun.
  pose proof (handleGenerateClick_run_inv p0) as Hinv0.
  pose proof (settle_all_run_inv _ _ _ _ Hinv0 Hrun) as Hinv.
  pose proof (settle_all_shown _ _ _ _ Hinv0 (handleGenerateClick_shown p0)
                Hrun) as Hshown.
  pose proof (settle_all_run_work _ _ _ _ Hinv0 Hrun) as Hwork.
  rewrite handleGenerateClick_start in Hwork.
  change (pending_work (handleGenerateClick Samples.photoUrl uploadedPage))
    with (length DECADES) in Hwork.
  split; [exact Hwork|].
  destruct (run_to_completion outcome _ p Hinv)
    as (more & p' & Hmore & Hq & Hf & Hout).
  pose proof (settle_all_run_inv _ _ _ _ Hinv Hmore) as Hinv'.
  pose proof (settle_all_shown _ _ _ _ Hinv Hshown Hmore) as [Hs Hl].
  pose proof (settle_all_run_work _ _ _ _ Hinv Hmore) as Hwork'.
  exists more, p'. split; [exact Hmore|]. split.
  { unfold pending_work in Hwork' at 1. rewrite Hq, Hf in Hwork'.
    simpl in Hwork'. lia. }
  split; [exact Hout|]. split.
  { apply (isGenerationComplete_iff _ _ p' Hinv'). split; assumption. }
  assert (Hret : allLoopsReturned p' = true).
  { destruct Hinv' as [_ _ _ Hloops _ _ _ _ _].
    unfold awaitedByLoop in Hloops. rewrite Hf in Hloops. simpl in Hloops.
    unfold allLoopsReturned. apply Nat.eqb_eq. exact Hloops. }
  rewrite Hret in Hs, Hl. split; [exact Hs|exact Hl].
Qed.

End PastForwardEveryRun.


Lemma handleGenerateClick_completes_witness :
  exists p,
    PastForward.settle_all Samples.photoUrl
      [Samples.answered "1960s"; Samples.answered "1980s"]
      (PastForward.handleGenerateClick Samples.photoUrl
         PastForward.uploadedPage) = Some p
    /\ 2 + PastForwardRuns.pending_work p = 6.
Proof.
  destruct (PastForward.settle_all Samples.photoUrl
              [Samples.answered "1960s"; Samples.answered "1980s"]
              (PastForward.handleGenerateClick Samples.photoUrl
                 PastForward.uploadedPage)) as [p|] eqn:Hrun.
  - exists p. split; [reflexivity|].
    exact (proj1 (handleGenerateClick_completes Samples.photoUrl eq_refl
                    PastForward.uploadedPage p
                    [Samples.answered "1960s"; Samples.answered "1980s"]
                    (fun _ => inl (newError "quota exceeded")) Hrun)).
  - exfalso. vm_compute in Hrun. discriminate.
Defined.

(** ** FusionPanel: the size cap of the source slots *)

Section FusionSources.

Import FusionPanel.

Lemma panel_step_ok (s : Panel) (ev : PanelEvent) :
  slots_ok s -> slots_ok (panel_step s ev).
Proof.
  intros (H1 & H2 & H3). destruct ev as [slot files|slot|v|v]; simpl.
  - unfold handleFileSelect.
    destruct files as [[|selectedFile rest]|]; try (repeat split; assumption).
    destruct (Z.gtb_spec (file_size selectedFile) MAX_FILE_SIZE_BYTES)
      as [Hbig|Hok].
    + repeat split; assumption.
    + destruct slot; repeat split; simpl; assumption.
  - destruct slot; repeat split; simpl; try assumption; exact I.
  - repeat split; assumption.
  - repeat split; assumption.
Qed.

Lemma panel_run_ok (events : list PanelEvent) (s : Panel) :
  slots_ok s -> slots_ok (panel_run events s).
Proof.
  revert s. induction events as [|ev events IH]; intros s Hs; [exact Hs|].
  apply (IH (panel_step s ev)), panel_step_ok, Hs.
Qed.

(** X24. Whatever the user does to the panel, [handleApply] calls
    [onApplyFusion] only with one to three source images, none of them
    over 12 MB, and with a prompt that is not blank. *)
Theorem handleApply_sources_within_cap (trim : string -> string)
    (events : list PanelEvent) (sourceFiles : list File) (text : string)
    (count : Z) :
  handleApply trim (panel_run events initialPanel)
  = Some (sourceFiles, text, count) ->
  1 <= length sourceFiles <= 3
  /\ Forall (fun f => (file_size f <= 12 * 1024 * 1024)%Z) sourceFiles
  /\ trim text <> "".
Proof.
  assert (Hok : slots_ok (panel_run events initialPanel)).
  { apply panel_run_ok. repeat split; exact I. }
  destruct Hok as (H1 & H2 & H3). unfold handleApply. cbv zeta.
  destruct (0 <? length _)%nat eqn:Hlen; [|discriminate].
  destruct (Service.truthy _) eqn:Htrim; [|discriminate].
  simpl. intros [= <- <- <-]. apply Nat.ltb_lt in Hlen.
  split; [|split].
  - split; [exact Hlen|].
    destruct (sourceImageFile1 _), (sourceImageFile2 _),
      (sourceImageFile3 _); simpl; lia.
  - unfold within_cap, MAX_FILE_SIZE_BYTES, MAX_FILE_SIZE_MB in *.
    destruct (sourceImageFile1 _), (sourceImageFile2 _),
      (sourceImageFile3 _); simpl;
      repeat (apply List.Forall_cons; [assumption|]); apply List.Forall_nil.
  - intros E. rewrite E in Htrim. discriminate.
Qed.

End FusionSources.

Lemma handleApply_sources_within_cap_witness :
  let big := mkFile "poster.png" 20000000 "image/png" in
  let events :=
    [FusionPanel.SelectFiles FusionPanel.slot1 (Some [big]);
     FusionPanel.SelectFiles FusionPanel.slot2 (Some [Samples.photo]);
     FusionPanel.TypePrompt "blend them"] in
  Forall (fun f => (file_size f <= 12 * 1024 * 1024)%Z) [Samples.photo].
Proof.
  intros big events.
  exact (proj1 (proj2 (handleApply_sources_within_cap (fun s => s) events
                         [Samples.photo] "blend them" 1 eq_refl))).
Defined.

(** ** geminiService: the cached client *)

Section CachedClient.

Import Client.

Variable trim : string -> string.
Variable describe : Thrown -> string.

Lemma initialise_cache_ok (env : Env) (key : string)
    (baseUrl : option string) (st : ModuleState) :
  cache_ok (initialise describe env key baseUrl st).2.
Proof.
  unfold initialise. cbv zeta. destruct (construct env _); simpl.
  - exact I.
  - exists key, baseUrl.
    split; [reflexivity|]. split; [reflexivity|]. split; [reflexivity|].
    apply Nat.lt_succ_diag_r.
Qed.

Lemma getGoogleAI_cache_ok (env : Env) (st : ModuleState) :
  cache_ok st -> cache_ok (getGoogleAI trim describe env st).2.
Proof.
  intros Hst. unfold getGoogleAI. cbv zeta.
  destruct (getApiKey trim env) as [[|c key]|]; try exact Hst.
  destruct (aiInstance st) as [instance|] eqn:Hinst.
  - destruct (negb _ || negb _).
    + apply initialise_cache_ok.
    + exact Hst.
  - apply initialise_cache_ok.
Qed.

Lemma after_calls_cache_ok (envs : list Env) (st : ModuleState) :
  cache_ok st -> cache_ok (after_calls trim describe envs st).
Proof.
  revert st. induction envs as [|env envs IH]; intros st Hst; [exact Hst|].
  apply (IH (getGoogleAI trim describe env st).2), getGoogleAI_cache_ok, Hst.
Qed.

(** X25. [getGoogleAI] never hands out a stale client: after any series of
    calls, in whatever browser each was made, a call that returns a client
    returns one built from the key and the base URL the storage holds at
    that call; and a second call in the same browser returns the very same
    client without constructing another. *)
Theorem getGoogleAI_serves_current_settings (envs : list Env) (env : Env)
    (instance : GoogleGenAI) (st' : ModuleState) :
  let st := after_calls trim describe envs initialState in
  getGoogleAI trim describe env st = (inr instance, st') ->
  (exists key,
     getApiKey trim env = Some key
     /\ config instance = configOf key (getBaseUrl trim env))
  /\ getGoogleAI trim describe env st' = (inr instance, st')
  /\ constructed st <= constructed st' <= S (constructed st).
Proof.
  intros st.
  assert (Hst : cache_ok st) by (apply after_calls_cache_ok; exact I).
  generalize dependent st. intros st Hst.
  assert (Hinit : forall key,
    getApiKey trim env = Some key ->
    initialise describe env key (getBaseUrl trim env) st
    = (inr instance, st') ->
    config instance = configOf key (getBaseUrl trim env)
    /\ aiInstance st' = Some instance
    /\ lastUsedApiKey st' = Some key
    /\ lastUsedBaseUrl st' = toBaseUrl (getBaseUrl trim env)
    /\ constructed st' = S (constructed st)).
  { intros key _. unfold initialise. cbv zeta.
    destruct (construct env _); [discriminate|].
    intros [= <- <-]. repeat split. }
  assert (Hagain : forall c key,
    getApiKey trim env = Some (String c key) ->
    aiInstance st' = Some instance ->
    lastUsedApiKey st' = Some (String c key) ->
    lastUsedBaseUrl st' = toBaseUrl (getBaseUrl trim env) ->
    getGoogleAI trim describe env st' = (inr instance, st')).
  { intros c key Hkey Hi Hk Hu. unfold getGoogleAI. cbv zeta.
    rewrite Hkey, Hi, Hk, Hu.
    rewrite !bool_decide_eq_true_2 by reflexivity. reflexivity. }
  unfold getGoogleAI at 1. cbv zeta.
  destruct (getApiKey trim env) as [[|c key]|] eqn:Hkey; try discriminate.
  destruct (aiInstance st) as [cached|] eqn:Hcached.
  - destruct (negb _ || negb _) eqn:Hchanged.
    + intros Hrun.
      destruct (Hinit _ eq_refl Hrun) as (Hc & Hi & Hk & Hu & Hn).
      split; [exists (String c key); split; [reflexivity|exact Hc]|].
      split; [exact (Hagain c key eq_refl Hi Hk Hu)|lia].
    + intros [= <- <-].
      apply orb_false_iff in Hchanged as [Hk Hu].
      apply negb_false_iff, bool_decide_eq_true in Hk, Hu.
      unfold cache_ok in Hst. rewrite Hcached in Hst.
      destruct Hst as (key' & url' & Hk' & Hu' & Hc & _).
      split.
      * exists (String c key). split; [reflexivity|].
        rewrite Hc. rewrite <- Hk in Hk'. injection Hk' as <-.
        rewrite <- Hu in Hu'.
        destruct url', (getBaseUrl trim env); simpl in Hu';
          try discriminate; [injection Hu' as ->|]; reflexivity.
      * split; [|lia].
        apply (Hagain c key eq_refl Hcached); symmetry; assumption.
  - intros Hrun.
    destruct (Hinit _ eq_refl Hrun) as (Hc & Hi & Hk & Hu & Hn).
    split; [exists (String c key); split; [reflexivity|exact Hc]|].
    split; [exact (Hagain c key eq_refl Hi Hk Hu)|lia].
Qed.

End CachedClient.

Lemma getGoogleAI_serves_current_settings_witness :
  let env :=
    Client.mkEnv
      (fun key => if String.eqb key "gemini-api-key"
                  then inr (Some "demo-key") else inr None)
      (fun _ => None) in
  let instance := Client.mkGoogleGenAI 0 (Client.mkConfig "demo-key" None) in
  let st' := Client.mkModuleState (Some instance) (Some "demo-key")
               Client.url_undefined 1 in
  Client.getGoogleAI (fun s => s) message env st' = (inr instance, st').
Proof.
  intros env instance st'.
  exact (proj1 (proj2 (getGoogleAI_serves_current_settings (fun s => s)
                         message [] env instance st' eq_refl))).
Defined.
